(** * LIT span-graph module: loading coordination and annotation normalisation

    A shallow embedding of
      - [lit_nlp/client/core/lit_module.ts]   ([LitModule.loadLatest]) and
      - [lit_nlp/client/modules/span_graph_module.ts]
        ([tagsToEdges], [spansToEdges], [mapTokenToTags], [parseInput],
         [shouldDisplayModule], [updatePredDisplayData]),
    together with the properties the design document states about them.

    The normaliser is embedded twice.  On values ([parseInput]) a record
    is a tree and the functions are pure: this is the model most
    properties are stated on.  On a store ([OnStore.parseInput]) objects
    and arrays are cells that [push] and property assignment overwrite:
    this is the model in which "does not mutate its inputs" is a
    statement to prove; it is shown to refine the first one.  An [async]
    function is embedded as its two halves, before and after its
    [await]. *)

From stdpp Require Import base option list strings gmap.
From Stdlib Require Import ZArith Lia.

Open Scope Z_scope.
Open Scope string_scope.
Open Scope list_scope.

(** ** JavaScript values and completions *)

(** The values that flow through the module.  Numbers are the integers
    the code computes with (array indices and span bounds); objects and
    arrays are given by their own properties, in [Object.keys] order.
    Properties inherited from a prototype are not part of a value:
    a property of the module that depends on it is stated for field
    names that are ordinary, none of them the name of a member of
    [Object.prototype] ([ordinary_spec]). *)
#[local] Unset Elimination Schemes.
Inductive JsVal : Type :=
  | JUndefined
  | JNull
  | JBool (b : bool)
  | JNum (n : Z)
  | JStr (s : string)
  | JArr (xs : list JsVal)
  | JObj (ps : list (string * JsVal)).
#[local] Set Elimination Schemes.

(** What can be thrown.  The code has no [throw] statement of its own:
    an exception raised inside the module is a [TypeError] of the engine
    (the message is the one V8 words), and [await] rethrows the reason a
    collaborator rejected its promise with. *)
Inductive JsError : Type :=
  | TypeError (msg : string)
  | Rejection (reason : JsVal).

(** A completion: a normal value or a thrown exception. *)
Inductive Result (A : Type) : Type :=
  | Return (a : A)
  | Throw (e : JsError).
Arguments Return {A} a.
Arguments Throw {A} e.

Definition bind {A B} (m : Result A) (k : A -> Result B) : Result B :=
  match m with
  | Return a => k a
  | Throw e => Throw e
  end.

Notation "'let!' x ':=' m 'in' k" := (bind m (fun x => k))
  (at level 10, x name, m at level 100, k at level 200,
   format "'[v' 'let!'  x  ':='  m  'in' '/' k ']'").

(** A [for] loop that collects one value per element; the body may
    throw, and the first exception ends the loop. *)
Fixpoint mapR {A B} (f : A -> Result B) (l : list A) : Result (list B) :=
  match l with
  | [] => Return []
  | a :: l' => let! b := f a in let! bs := mapR f l' in Return (b :: bs)
  end.

Definition is_Return {A} (r : Result A) : Prop :=
  match r with Return _ => True | Throw _ => False end.

Definition is_Throw {A} (r : Result A) : Prop :=
  match r with Return _ => False | Throw _ => True end.

(** ** Plain objects used as string-keyed maps *)

Section Objects.
Context {A : Type}.

(** [o[k]] on own properties. *)
Fixpoint obj_get (o : list (string * A)) (k : string) : option A :=
  match o with
  | [] => None
  | (k', v) :: o' => if String.eqb k' k then Some v else obj_get o' k
  end.

(** [o[k] = v]: an existing property keeps its place, a new one goes
    last (field names are not array indices, which an engine lists
    first). *)
Fixpoint obj_set (o : list (string * A)) (k : string) (v : A)
  : list (string * A) :=
  match o with
  | [] => [(k, v)]
  | (k', v') :: o' =>
      if String.eqb k' k then (k', v) :: o' else (k', v') :: obj_set o' k v
  end.

(** [Object.keys(o)]. *)
Definition obj_keys (o : list (string * A)) : list string := o.*1.
End Objects.

(** A property key that is [undefined] is converted to the string
    ["undefined"] ([ToPropertyKey]). *)
Definition property_key (k : option string) : string :=
  match k with Some s => s | None => "undefined" end.

(** The names of the members of [Object.prototype].  Under one of these
    names a plain object that has no property of its own answers with
    the inherited member, and an assignment to [__proto__] changes the
    prototype instead of adding a property.  Reading and writing a
    property by field name is modelled on own properties ([obj_get],
    [obj_set]), which is what the engine does for every other name. *)
Definition object_prototype_names : list string :=
  ["constructor"; "__defineGetter__"; "__defineSetter__"; "hasOwnProperty";
   "__lookupGetter__"; "__lookupSetter__"; "isPrototypeOf";
   "propertyIsEnumerable"; "toString"; "valueOf"; "__proto__";
   "toLocaleString"].

(** A name written in digits only, as an array index is: an engine lists
    the properties with such names first, in numeric order, whenever
    they were added. *)
Definition is_digit (c : Ascii.ascii) : bool :=
  ((48 <=? Ascii.nat_of_ascii c) && (Ascii.nat_of_ascii c <=? 57))%nat.

Fixpoint all_digits (s : string) : bool :=
  match s with
  | EmptyString => true
  | String c s' => is_digit c && all_digits s'
  end.

Definition index_like (key : string) : bool :=
  negb (String.eqb key "") && all_digits key.

(** An ordinary name: not the name of a member of [Object.prototype],
    and not written like an index.  On ordinary names an object behaves
    as the list of its own properties in the order they were added. *)
Definition ordinary (key : string) : Prop :=
  (key ∉ object_prototype_names) ∧ index_like key = false.

#[global] Instance ordinary_dec (key : string) : Decision (ordinary key).
Proof. unfold ordinary. apply _. Defined.

Definition cannot_read (of_what prop : string) : JsError :=
  TypeError ("Cannot read properties of " ++ of_what
             ++ " (reading '" ++ prop ++ "')").

Definition not_a_function (expr : string) : JsError :=
  TypeError (expr ++ " is not a function").

(** [v.prop] for the fixed property names the module reads ([length],
    [start], [end], [label]): none of them is an index.  The length of a
    string is only ever compared with [0]. *)
Definition js_get (v : JsVal) (prop : string) : Result JsVal :=
  match v with
  | JUndefined => Throw (cannot_read "undefined" prop)
  | JNull => Throw (cannot_read "null" prop)
  | JObj ps => Return (default JUndefined (obj_get ps prop))
  | JStr s =>
      Return (if String.eqb prop "length"
              then JNum (Z.of_nat (String.length s)) else JUndefined)
  | JArr xs =>
      Return (if String.eqb prop "length"
              then JNum (Z.of_nat (length xs)) else JUndefined)
  | JBool _ | JNum _ => Return JUndefined
  end.

(** [v === 0]. *)
Definition strict_eq_zero (v : JsVal) : bool :=
  match v with JNum 0 => true | _ => false end.

(** [v.length === 0]. *)
Definition length_is_zero (v : JsVal) : Result bool :=
  let! len := js_get v "length" in Return (strict_eq_zero len).

(** The same loop when the body also takes the index, counted from [i]. *)
Fixpoint mapiR {A B} (f : nat -> A -> Result B) (i : nat) (l : list A)
    : Result (list B) :=
  match l with
  | [] => Return []
  | a :: l' => let! b := f i a in let! bs := mapiR f (S i) l' in Return (b :: bs)
  end.

(** [v.map(f)] where [f] may throw: only arrays have a [map]. *)
Definition js_map (expr : string) (f : nat -> JsVal -> Result JsVal)
    (v : JsVal) : Result JsVal :=
  match v with
  | JArr xs => let! ys := mapiR f 0 xs in Return (JArr ys)
  | JUndefined => Throw (cannot_read "undefined" "map")
  | JNull => Throw (cannot_read "null" "map")
  | _ => Throw (not_a_function (expr ++ ".map"))
  end.

(** [v.split()]: with no separator the whole string is the one element. *)
Definition js_split (expr : string) (v : JsVal) : Result JsVal :=
  match v with
  | JStr s => Return (JArr [JStr s])
  | JUndefined => Throw (cannot_read "undefined" "split")
  | JNull => Throw (cannot_read "null" "split")
  | _ => Throw (not_a_function (expr ++ ".split"))
  end.

(** A loop that threads a state and may throw. *)
Fixpoint foldR {A S} (f : S -> A -> Result S) (l : list A) (s : S) : Result S :=
  match l with
  | [] => Return s
  | a :: l' => let! s' := f s a in foldR f l' s'
  end.

(** ** Specs and records *)

(** The field kinds the module looks for; every other kind of the
    application is an [OtherType]. *)
Inductive LitName : Type :=
  | Tokens
  | TextSegment
  | SequenceTags
  | SpanLabels
  | EdgeLabels
  | OtherType (name : string).

#[global] Instance LitName_eq_dec : EqDecision LitName.
Proof. solve_decision. Defined.

(** A field descriptor: its kind and, for a tag field, the token field it
    is aligned to ([align] may be missing). *)
Record LitType : Type := { kind : LitName; align : option string }.

(** [Spec]: field name to descriptor, in [Object.keys] order. *)
Definition Spec : Type := list (string * LitType).

(** [Input] / [Preds]: field name to raw value. *)
Definition Input : Type := list (string * JsVal).

(** A spec all of whose field names and [align] targets are ordinary:
    for such a spec every property the module reads or writes by field
    name, in the grouping, in a record and in a result, is an own
    property or is not there, and [Object.keys] lists the properties in
    the order they were added. *)
Definition ordinary_spec (spec : Spec) : Prop :=
  Forall (fun entry => ordinary entry.1
                       ∧ ordinary (property_key (align entry.2))) spec.

#[global] Instance ordinary_spec_dec (spec : Spec) : Decision (ordinary_spec spec).
Proof. unfold ordinary_spec. apply _. Defined.

(** Modelled from the spec: [isLitSubtype] of [lib/utils] is not among
    the sources.  A descriptor is of one of the wanted kinds when its
    kind is one of them; a missing descriptor is of none. *)
Definition isLitSubtype (litType : option LitType) (typesToFind : list LitName)
    : bool :=
  match litType with
  | Some t => bool_decide (kind t ∈ typesToFind)
  | None => false
  end.

(** Modelled from the spec: [findSpecKeys] of [lib/utils] is not among
    the sources.  The names of the fields of the wanted kinds, in spec
    order. *)
Definition findSpecKeys (spec : Spec) (typesToFind : list LitName)
    : list string :=
  List.filter (fun key => isLitSubtype (obj_get spec key) typesToFind)
              (obj_keys spec).

Definition supportedPredTypes : list LitName :=
  [SequenceTags; SpanLabels; EdgeLabels].

(** ** Edges *)

(** The object literal [{span1: [start, end], label}]. *)
Definition EdgeLabel (start end_ label : JsVal) : JsVal :=
  JObj [("span1", JArr [start; end_]); ("label", label)].

(** [tagsToEdges]: sequence tags to length-1 span labels. *)
Definition tagsToEdges (tags : JsVal) : Result JsVal :=
  js_map "tags"
    (fun i label =>
       Return (EdgeLabel (JNum (Z.of_nat i)) (JNum (Z.of_nat i + 1)) label))
    tags.

(** The bounds of an edge, for reading results. *)
Definition span_start (e : JsVal) : option Z :=
  match e with
  | JObj (("span1", JArr [JNum a; _]) :: _) => Some a
  | _ => None
  end.

Definition span_end (e : JsVal) : option Z :=
  match e with
  | JObj (("span1", JArr [_; JNum b]) :: _) => Some b
  | _ => None
  end.

(** [spansToEdges]: span labels to single-sided edge labels. *)
Definition spansToEdges (spans : JsVal) : Result JsVal :=
  js_map "spans"
    (fun _ d =>
       let! start := js_get d "start" in
       let! end_ := js_get d "end" in
       let! label := js_get d "label" in
       Return (EdgeLabel start end_ label))
    spans.

(** ** Grouping tag fields under their token field *)

Definition FieldNameMultimap : Type := list (string * list string).

(** The second loop of [mapTokenToTags]:
    [tokenToTags[spec[tagKey].align].push(tagKey)].  The grouping is
    read on its own properties, as the engine does for an [ordinary]
    [align]; under a name of [Object.prototype] it would find the
    inherited member, which has no [push]. *)
Definition pushTag (spec : Spec) (tokenToTags : FieldNameMultimap)
    (tagKey : string) : Result FieldNameMultimap :=
  match obj_get spec tagKey with
  | None => Throw (cannot_read "undefined" "align")
  | Some t =>
      let tokenKey := property_key (align t) in
      match obj_get tokenToTags tokenKey with
      | None => Throw (cannot_read "undefined" "push")
      | Some tags => Return (obj_set tokenToTags tokenKey (tags ++ [tagKey]))
      end
  end.

(** [mapTokenToTags].  Each [tokenToTags[tokenKey] = []] adds or
    replaces an own property, as the engine does for an [ordinary]
    token field (for [__proto__] it would set the prototype). *)
Definition mapTokenToTags (spec : Spec) : Result FieldNameMultimap :=
  let tagKeys := findSpecKeys spec supportedPredTypes in
  let tokenKeys := findSpecKeys spec [Tokens] in
  let tokenToTags :=
    foldl (fun o tokenKey => obj_set o tokenKey []) [] tokenKeys in
  foldR (pushTag spec) tagKeys tokenToTags.

(** ** Normalising a record *)

Record AnnotationLayer : Type := { name : string; edges : JsVal }.

Record SpanGraph : Type := { tokens : JsVal; layers : list AnnotationLayer }.

Definition Annotations : Type := list (string * SpanGraph).

(** [data[key]]; [data] is [None] when the caller passes [undefined]
    (the first element of an empty result list).  A record is read on
    its own properties, as the engine does for an [ordinary] key; a
    record that lacks a name of [Object.prototype] would answer with
    the inherited member. *)
Definition data_get (data : option Input) (key : string) : Result JsVal :=
  match data with
  | Some d => Return (default JUndefined (obj_get d key))
  | None => Throw (cannot_read "undefined" key)
  end.

(** The body of the inner loop of [parseInput]: one layer per tag field. *)
Definition annotationLayer (data : option Input) (spec : Spec)
    (tagKey : string) : Result AnnotationLayer :=
  let! edges := data_get data tagKey in
  let! empty := length_is_zero edges in
  let edges := if (empty : bool) then JArr [] else edges in
  let! edges := (if isLitSubtype (obj_get spec tagKey) [SequenceTags]
            then tagsToEdges edges
            else if isLitSubtype (obj_get spec tagKey) [SpanLabels]
            then spansToEdges edges
            else Return edges) in
  Return {| name := tagKey; edges := edges |}.

(** The tokens of a token field: the field's value or, when that is
    empty, the text of the first [TextSegment] field, [split()]. *)
Definition resolveTokens (data : option Input) (spec : Spec)
    (tokenKey : string) : Result JsVal :=
  let! tokens := data_get data tokenKey in
  let! empty := length_is_zero tokens in
  if (empty : bool) then
    let textKey := head (findSpecKeys spec [TextSegment]) in
    let! text := data_get data (property_key textKey) in
    js_split "data[textKey]" text
  else Return tokens.

(** The body of the outer loop of [parseInput]. *)
Definition tokenGroup (data : option Input) (spec : Spec)
    (tokenToTags : FieldNameMultimap) (ret : Annotations) (tokenKey : string)
    : Result Annotations :=
  match obj_get tokenToTags tokenKey with
  | None => Throw (TypeError "tokenToTags[tokenKey] is not iterable")
  | Some tagKeys =>
      let! annotationLayers := mapR (annotationLayer data spec) tagKeys in
      let! tokens := resolveTokens data spec tokenKey in
      Return (obj_set ret tokenKey
                {| tokens := tokens; layers := annotationLayers |})
  end.

Definition parseInput (data : option Input) (spec : Spec)
    : Result Annotations :=
  let! tokenToTags := mapTokenToTags spec in
  foldR (tokenGroup data spec tokenToTags) (obj_keys tokenToTags) [].

(** ** Rendering the groups *)

(** What the template of one token group is filled with: the [id] of the
    [div], the heading (the [div] with a layer name, or [null]), and the
    two properties handed to [span-graph-vis-vertical]; [None] as
    [graph] is [undefined]. *)
Record TokenGroupView : Type := {
  group_id : string;
  heading : option string;
  graph : option SpanGraph;
  showLayerLabel : bool
}.

(** [renderTokenGroups]: one group per key of the grouping, whatever
    [data] holds.  [data[tokenKey]] is read on the own properties of
    [data], as the engine does for an [ordinary] token field. *)
Definition renderTokenGroups (data : Annotations) (spec : Spec)
    : Result (list TokenGroupView) :=
  let! tokenToTags := mapTokenToTags spec in
  Return
    (fmap (M:=list)
       (fun tokenKey =>
          let labelHere :=
            match obj_get data tokenKey with
            | Some g => (length (layers g) =? 1)%nat
            | None => false
            end in
          {| group_id := tokenKey;
             heading :=
               if labelHere
               then name <$> (obj_get data tokenKey ≫= fun g => head (layers g))
               else None;
             graph := obj_get data tokenKey;
             showLayerLabel := negb labelHere |})
       (obj_keys tokenToTags)).

(** ** The loading coordinator ([LitModule]) *)

Module LitModule.

(** The identity of a promise object: [===] on promises is equality of
    identities. *)
Definition Promise : Type := nat.

(** The fields of a [LitModule] that [loadLatest] touches:
    [latestLoadPromises], and the loading status that the callback
    [setIsLoading] writes on the parent widget. *)
Record State : Type := {
  latestLoadPromises : gmap string Promise;
  isLoading : bool
}.

Definition setIsLoading (status : bool) (st : State) : State :=
  {| latestLoadPromises := latestLoadPromises st; isLoading := status |}.

(** [latestLoadPromises.set(key, promise)] and
    [latestLoadPromises.delete(key)]. *)
Definition latest_set (key : string) (promise : Promise) (st : State)
    : State :=
  {| latestLoadPromises := <[key := promise]> (latestLoadPromises st);
     isLoading := isLoading st |}.

Definition latest_delete (key : string) (st : State) : State :=
  {| latestLoadPromises := delete key (latestLoadPromises st);
     isLoading := isLoading st |}.

(** How the awaited promise settles. *)
Inductive Settled (T : Type) : Type :=
  | Fulfilled (result : T)
  | Rejected (reason : JsVal).
Arguments Fulfilled {T} result.
Arguments Rejected {T} reason.

(** [loadLatest] up to its [await]: runs when the function is called. *)
Definition loadLatest_call (key : string) (promise : Promise) (st : State)
    : State :=
  setIsLoading true (latest_set key promise st).

(** [loadLatest] from its [await] on: runs when the promise has settled,
    on the state of that moment.  The completion is that of the promise
    [loadLatest] returned; [None] is [null]. *)
Definition loadLatest_resume {T} (key : string) (promise : Promise)
    (outcome : Settled T) (st : State) : State * Result (option T) :=
  match outcome with
  | Rejected reason => (st, Throw (Rejection reason))
  | Fulfilled result =>
      if decide (latestLoadPromises st !! key = Some promise) then
        (latest_delete key (setIsLoading false st), Return (Some result))
      else (st, Return None)
  end.

(** What happens to a module over time: calls of [loadLatest] and
    resumptions of earlier calls, in any order the event loop produces. *)
Inductive Event (T : Type) : Type :=
  | Call (key : string) (promise : Promise)
  | Resume (key : string) (promise : Promise) (outcome : Settled T).
Arguments Call {T} key promise.
Arguments Resume {T} key promise outcome.

Definition event_key {T} (e : Event T) : string :=
  match e with Call key _ | Resume key _ _ => key end.

(** One entry per resumed call: what its [loadLatest] returned. *)
Definition Log (T : Type) : Type :=
  list (string * Promise * Result (option T)).

Definition step {T} (st : State) (e : Event T) : State * Log T :=
  match e with
  | Call key promise => (loadLatest_call key promise st, [])
  | Resume key promise outcome =>
      let '(st', r) := loadLatest_resume key promise outcome st in
      (st', [(key, promise, r)])
  end.

Fixpoint run {T} (trace : list (Event T)) (st : State) : State * Log T :=
  match trace with
  | [] => (st, [])
  | e :: trace' =>
      let '(st1, log1) := step st e in
      let '(st2, log2) := run trace' st1 in
      (st2, log1 ++ log2)
  end.

(** The results committed under [key]: the non-null values that calls
    of [loadLatest] with that key returned, with the promise each came
    from. *)
Fixpoint committed {T} (key : string) (log : Log T) : list (Promise * T) :=
  match log with
  | [] => []
  | (k, p, Return (Some v)) :: log' =>
      if String.eqb k key then (p, v) :: committed key log'
      else committed key log'
  | _ :: log' => committed key log'
  end.

Definition initial : State :=
  {| latestLoadPromises := ∅; isLoading := false |}.

(** Events under other keys than [key]. *)
Definition foreign {T} (key : string) (trace : list (Event T)) : Prop :=
  Forall (fun e => event_key e ≠ key) trace.

(** A trace seen from [key]: where it leaves the handle stored under
    [key], and what it commits under [key]. *)
Definition handle_after {T} (key : string) (trace : list (Event T))
    (st : State) : option Promise :=
  latestLoadPromises (run trace st).1 !! key.

Definition committed_by {T} (key : string) (trace : list (Event T))
    (st : State) : list (Promise * T) :=
  committed key (run trace st).2.

End LitModule.

(** ** The two modules *)

Record ModelSpec : Type := { input : Spec; output : Spec }.

Definition ModelsMap : Type := list (string * ModelSpec).

(** [id] is spelled [id_]: the other name is taken. *)
Record IndexedInput : Type := { id_ : string; data : Input }.

Module SpanGraphGoldModule.
(** [goldDisplayData], computed from the primary selection. *)
Definition goldDisplayData (input : option IndexedInput) (dataSpec : Spec)
    : Result Annotations :=
  match input with
  | None => Return []
  | Some input => parseInput (Some (data input)) dataSpec
  end.

Definition shouldDisplayModule (modelSpecs : ModelsMap) (datasetSpec : Spec)
    : bool :=
  let hasTokens := (0 <? length (findSpecKeys datasetSpec [Tokens]))%nat in
  let hasSupportedPreds :=
    (0 <? length (findSpecKeys datasetSpec supportedPredTypes))%nat in
  hasTokens && hasSupportedPreds.

(** [render]: the groups inside the [div] of the module. *)
Definition render (input : option IndexedInput) (dataSpec : Spec)
    : Result (list TokenGroupView) :=
  let! goldDisplayData := goldDisplayData input dataSpec in
  renderTokenGroups goldDisplayData dataSpec.
End SpanGraphGoldModule.

Module SpanGraphModule.

(** A call of [apiService.getPreds]: the inputs and the field kinds
    asked for (the model and the dataset are those of the module). *)
Record GetPredsCall : Type := {
  inputs : list IndexedInput;
  requestedTypes : list LitName
}.

(** The module: its [LitModule] part, the observable [predDisplayData],
    and the calls it has made to the prediction service.  The promise a
    call returns is a new object: its identity is the call's rank. *)
Record State : Type := {
  base : LitModule.State;
  predDisplayData : Annotations;
  getPredsCalls : list GetPredsCall
}.

(** [updatePredDisplayData] up to its [await].  [None] as input is
    [null]; the result is the promise the function is left waiting
    for, or [None] when it has run to its end. *)
Definition updatePredDisplayData_call (input : option IndexedInput)
    (st : State) : State * option LitModule.Promise :=
  match input with
  | None =>
      ({| base := base st; predDisplayData := [];
          getPredsCalls := getPredsCalls st |}, None)
  | Some input =>
      let promise := length (getPredsCalls st) in
      let call := {| inputs := [input];
                     requestedTypes := [Tokens] ++ supportedPredTypes |} in
      ({| base := LitModule.loadLatest_call "getPreds" promise (base st);
          predDisplayData := predDisplayData st;
          getPredsCalls := getPredsCalls st ++ [call] |}, Some promise)
  end.

(** [updatePredDisplayData] from its [await] on; [predSpec] is the
    output spec of the module's model at that moment. *)
Definition updatePredDisplayData_resume (predSpec : Spec)
    (promise : LitModule.Promise)
    (outcome : LitModule.Settled (list Input)) (st : State)
    : State * Result unit :=
  let '(base', results) :=
    LitModule.loadLatest_resume "getPreds" promise outcome (base st) in
  let st' := {| base := base'; predDisplayData := predDisplayData st;
                getPredsCalls := getPredsCalls st |} in
  match results with
  | Throw e => (st', Throw e)
  | Return None => (st', Return ())
  | Return (Some results) =>
      match parseInput (results !! 0%nat) predSpec with
      | Throw e => (st', Throw e)
      | Return annotations =>
          ({| base := base'; predDisplayData := annotations;
              getPredsCalls := getPredsCalls st |}, Return ())
      end
  end.

Fixpoint shouldDisplayModule_loop (models : list (string * ModelSpec))
    : bool :=
  match models with
  | [] => false
  | (_, spec) :: rest =>
      let hasTokens := (0 <? length (findSpecKeys (output spec) [Tokens]))%nat in
      let hasSupportedPreds :=
        (0 <? length (findSpecKeys (output spec) supportedPredTypes))%nat in
      if hasTokens && hasSupportedPreds then true
      else shouldDisplayModule_loop rest
  end.

Definition shouldDisplayModule (modelSpecs : ModelsMap) (datasetSpec : Spec)
    : bool :=
  shouldDisplayModule_loop modelSpecs.

(** [render]: the groups inside the [div] of the module. *)
Definition render (predSpec : Spec) (st : State)
    : Result (list TokenGroupView) :=
  renderTokenGroups (predDisplayData st) predSpec.

(** What happens to the module once [firstUpdated] has set up its
    reaction: the primary selection changes, which calls
    [updatePredDisplayData] with it, or a call made earlier resumes
    because its promise has settled. *)
Inductive Event : Type :=
  | Selected (input : option IndexedInput)
  | Settled (promise : LitModule.Promise)
      (outcome : LitModule.Settled (list Input)).

Definition step (predSpec : Spec) (st : State) (e : Event) : State :=
  match e with
  | Selected input => (updatePredDisplayData_call input st).1
  | Settled promise outcome =>
      (updatePredDisplayData_resume predSpec promise outcome st).1
  end.

Definition run (predSpec : Spec) (trace : list Event) (st : State) : State :=
  foldl (step predSpec) st trace.
End SpanGraphModule.

(** ** The same functions on a store

    Objects and arrays are cells of a store and a value may be a
    reference to one: the array literals, object literals, [map] and
    [split] of the module allocate cells, [push] and property assignment
    overwrite one, and a value read from the record is shared with it,
    not copied. *)

Module Store.

Definition Loc : Type := nat.

Inductive Val : Type :=
  | VUndefined
  | VNull
  | VBool (b : bool)
  | VNum (n : Z)
  | VStr (s : string)
  | VRef (l : Loc).

Inductive Cell : Type :=
  | CArr (elems : list Val)
  | CObj (props : list (string * Val)).

Abbreviation Heap := (list Cell).

(** A computation on the store that may throw. *)
Definition M (A : Type) : Type := Heap -> Heap * Result A.

Definition ret {A} (a : A) : M A := fun h => (h, Return a).

Definition throw {A} (e : JsError) : M A := fun h => (h, Throw e).

Definition bindM {A B} (m : M A) (k : A -> M B) : M B :=
  fun h =>
    match m h with
    | (h', Return a) => k a h'
    | (h', Throw e) => (h', Throw e)
    end.

Notation "'let*' x ':=' m 'in' k" := (bindM m (fun x => k))
  (at level 10, x name, m at level 100, k at level 200,
   format "'[v' 'let*'  x  ':='  m  'in' '/' k ']'").

(** The three accesses to the store. *)
Definition alloc (c : Cell) : M Val :=
  fun h => (h ++ [c], Return (VRef (length h))).

Definition read (l : Loc) : M (option Cell) :=
  fun h => (h, Return (h !! l)).

Definition write (l : Loc) (c : Cell) : M unit :=
  fun h => (<[l := c]> h, Return ()).

Fixpoint forM {A} (f : A -> M unit) (l : list A) : M unit :=
  match l with
  | [] => ret ()
  | a :: l' => let* _ := f a in forM f l'
  end.

Fixpoint mapiM {A B} (f : nat -> A -> M B) (i : nat) (l : list A)
    : M (list B) :=
  match l with
  | [] => ret []
  | a :: l' =>
      let* b := f i a in let* bs := mapiM f (S i) l' in ret (b :: bs)
  end.

(** [v[prop]]; arrays and strings answer for their [length] only (the
    module reads no index), and a reference is to a cell of the store. *)
Definition get (v : Val) (prop : string) : M Val :=
  match v with
  | VUndefined => throw (cannot_read "undefined" prop)
  | VNull => throw (cannot_read "null" prop)
  | VStr s =>
      ret (if String.eqb prop "length"
           then VNum (Z.of_nat (String.length s)) else VUndefined)
  | VBool _ | VNum _ => ret VUndefined
  | VRef l =>
      let* c := read l in
      match c with
      | Some (CObj ps) => ret (default VUndefined (obj_get ps prop))
      | Some (CArr xs) =>
          ret (if String.eqb prop "length"
               then VNum (Z.of_nat (length xs)) else VUndefined)
      | None => ret VUndefined
      end
  end.

(** [arr.push(x)]: overwrites the cell of [arr]. *)
Definition push (expr : string) (arr : Val) (x : Val) : M unit :=
  match arr with
  | VUndefined => throw (cannot_read "undefined" "push")
  | VNull => throw (cannot_read "null" "push")
  | VRef l =>
      let* c := read l in
      match c with
      | Some (CArr xs) => write l (CArr (xs ++ [x]))
      | _ => throw (not_a_function (expr ++ ".push"))
      end
  | _ => throw (not_a_function (expr ++ ".push"))
  end.

(** [obj[key] = x] on an object created by the module: overwrites the
    cell of [obj]. *)
Definition set_prop (obj : Val) (key : string) (x : Val) : M unit :=
  match obj with
  | VRef l =>
      let* c := read l in
      match c with
      | Some (CObj ps) => write l (CObj (obj_set ps key x))
      | _ => ret ()
      end
  | _ => ret ()
  end.

(** [Object.keys(obj)] of an object created by the module. *)
Definition object_keys (obj : Val) : M (list string) :=
  match obj with
  | VRef l =>
      let* c := read l in
      match c with
      | Some (CObj ps) => ret (obj_keys ps)
      | _ => ret []
      end
  | _ => ret []
  end.

(** The elements a [for ... of] goes through. *)
Definition elements (v : Val) : M (list Val) :=
  match v with
  | VRef l =>
      let* c := read l in
      match c with
      | Some (CArr xs) => ret xs
      | _ => throw (TypeError "tokenToTags[tokenKey] is not iterable")
      end
  | _ => throw (TypeError "tokenToTags[tokenKey] is not iterable")
  end.

(** The field name a loop variable holds (only names are pushed). *)
Definition key_of (v : Val) : string :=
  match v with VStr s => s | _ => property_key None end.

End Store.

(** The functions of [span_graph_module.ts], on the store. *)
Module OnStore.
Import Store.

Definition length_is_zero (v : Val) : M bool :=
  let* len := get v "length" in
  ret (match len with VNum 0 => true | _ => false end).

Definition js_map (expr : string) (f : nat -> Val -> M Val) (v : Val) : M Val :=
  match v with
  | VRef l =>
      let* c := read l in
      match c with
      | Some (CArr xs) => let* ys := mapiM f 0 xs in alloc (CArr ys)
      | _ => throw (not_a_function (expr ++ ".map"))
      end
  | VUndefined => throw (cannot_read "undefined" "map")
  | VNull => throw (cannot_read "null" "map")
  | _ => throw (not_a_function (expr ++ ".map"))
  end.

Definition js_split (expr : string) (v : Val) : M Val :=
  match v with
  | VStr s => alloc (CArr [VStr s])
  | VUndefined => throw (cannot_read "undefined" "split")
  | VNull => throw (cannot_read "null" "split")
  | _ => throw (not_a_function (expr ++ ".split"))
  end.

Definition tagsToEdges (tags : Val) : M Val :=
  js_map "tags"
    (fun i label =>
       let* span1 := alloc (CArr [VNum (Z.of_nat i); VNum (Z.of_nat i + 1)]) in
       alloc (CObj [("span1", span1); ("label", label)]))
    tags.

Definition spansToEdges (spans : Val) : M Val :=
  js_map "spans"
    (fun _ d =>
       let* start := get d "start" in
       let* end_ := get d "end" in
       let* span1 := alloc (CArr [start; end_]) in
       let* label := get d "label" in
       alloc (CObj [("span1", span1); ("label", label)]))
    spans.

Definition mapTokenToTags (spec : Spec) : M Val :=
  let tagKeys := findSpecKeys spec supportedPredTypes in
  let tokenKeys := findSpecKeys spec [Tokens] in
  let* tokenToTags := alloc (CObj []) in
  let* _ :=
    forM (fun tokenKey =>
            let* tags := alloc (CArr []) in
            set_prop tokenToTags tokenKey tags)
         tokenKeys in
  let* _ :=
    forM (fun tagKey =>
            match obj_get spec tagKey with
            | None => throw (cannot_read "undefined" "align")
            | Some t =>
                let tokenKey := property_key (align t) in
                let* tags := get tokenToTags tokenKey in
                push "tokenToTags[tokenKey]" tags (VStr tagKey)
            end)
         tagKeys in
  ret tokenToTags.

Definition annotationLayer (data : Val) (spec : Spec) (tagKey : string)
    : M Val :=
  let* edges := get data tagKey in
  let* empty := length_is_zero edges in
  let* edges := (if (empty : bool) then alloc (CArr []) else ret edges) in
  let* edges := (if isLitSubtype (obj_get spec tagKey) [SequenceTags]
                 then tagsToEdges edges
                 else if isLitSubtype (obj_get spec tagKey) [SpanLabels]
                 then spansToEdges edges
                 else ret edges) in
  alloc (CObj [("name", VStr tagKey); ("edges", edges)]).

Definition resolveTokens (data : Val) (spec : Spec) (tokenKey : string)
    : M Val :=
  let* tokens := get data tokenKey in
  let* empty := length_is_zero tokens in
  if (empty : bool) then
    let textKey := head (findSpecKeys spec [TextSegment]) in
    let* text := get data (property_key textKey) in
    js_split "data[textKey]" text
  else ret tokens.

Definition tokenGroup (data : Val) (spec : Spec) (tokenToTags ret_ : Val)
    (tokenKey : string) : M unit :=
  let* annotationLayers := alloc (CArr []) in
  let* tags := get tokenToTags tokenKey in
  let* tagKeys := elements tags in
  let* _ :=
    forM (fun tagKey =>
            let* layer := annotationLayer data spec (key_of tagKey) in
            push "annotationLayers" annotationLayers layer)
         tagKeys in
  let* tokens := resolveTokens data spec tokenKey in
  let* graph := alloc (CObj [("tokens", tokens); ("layers", annotationLayers)]) in
  set_prop ret_ tokenKey graph.

Definition parseInput (data : Val) (spec : Spec) : M Val :=
  let* tokenToTags := mapTokenToTags spec in
  let* ret_ := alloc (CObj []) in
  let* tokenKeys := object_keys tokenToTags in
  let* _ := forM (tokenGroup data spec tokenToTags ret_) tokenKeys in
  ret ret_.

End OnStore.

(** * What the properties are stated with *)

(** ** Fields of a record and of a spec *)

(** Whether the tag field [tagKey] is aligned to [tokenKey]. *)
Definition alignedTo (spec : Spec) (tokenKey tagKey : string) : bool :=
  match obj_get spec tagKey with
  | Some t => String.eqb (property_key (align t)) tokenKey
  | None => false
  end.

(** [data[key]] of a record that is there. *)
Definition field (data : Input) (key : string) : JsVal :=
  default JUndefined (obj_get data key).

(** [v.length] can be read: [v] is neither [undefined] nor [null]. *)
Definition has_length (v : JsVal) : Prop := is_Return (js_get v "length").

(** A field that is in the record with a value whose [length] can be
    read. *)
Definition present_with_length (data : Input) (key : string) : Prop :=
  ∃ v, obj_get data key = Some v ∧ has_length v.

(** Whether an error says what went wrong: that a field is unaligned. *)
Definition is_unaligned_field_error (e : JsError) : bool :=
  match e with
  | TypeError msg =>
      match String.index 0 "unaligned" msg with Some _ => true | None => false end
  | Rejection _ => false
  end.

(** [undefined] or [null]: a value no property can be read of. *)
Definition nullish (v : JsVal) : Prop := v = JUndefined ∨ v = JNull.

(** [v.prop] of a value that has properties; [undefined] otherwise. *)
Definition prop_or_undefined (v : JsVal) (prop : string) : JsVal :=
  match js_get v prop with Return w => w | Throw _ => JUndefined end.

(** A span as the type [SpanLabel] has it. *)
Definition SpanLabel (start end_ label : JsVal) : JsVal :=
  JObj [("start", start); ("end", end_); ("label", label)].

(** Every tag field of the spec is aligned to one of its token fields. *)
Definition all_aligned (spec : Spec) : Prop :=
  ∀ tagKey t, tagKey ∈ findSpecKeys spec supportedPredTypes ->
    obj_get spec tagKey = Some t ->
    property_key (align t) ∈ findSpecKeys spec [Tokens].

(** The kind of a field of the spec. *)
Definition kind_of (spec : Spec) (key : string) : option LitName :=
  kind <$> obj_get spec key.

(** A value a tag field of kind [k] can be converted from: an empty
    value of any sort, an array (of spans that are there, for span
    labels), or for edge labels anything with a length. *)
Definition convertible (k : option LitName) (v : JsVal) : Prop :=
  length_is_zero v = Return true ∨
  (∃ xs, v = JArr xs ∧
         (k = Some SpanLabels -> Forall (fun d => ¬ nullish d) xs)) ∨
  (k ≠ Some SequenceTags ∧ k ≠ Some SpanLabels ∧ has_length v).

(** A value the tokens of a token field can be taken from: something
    non-empty, or something empty when the first text field of the spec
    holds a string in the record. *)
Definition tokenisable (data : Input) (spec : Spec) (v : JsVal) : Prop :=
  length_is_zero v = Return false ∨
  (length_is_zero v = Return true ∧
   ∃ s, field data (property_key (head (findSpecKeys spec [TextSegment])))
        = JStr s).



(** ** Specs and records to try the properties on *)

Definition spec_unaligned : Spec :=
  [("tokens", {| kind := Tokens; align := None |});
   ("pos", {| kind := SequenceTags; align := Some "words" |})].

Definition spec_tagged : Spec :=
  [("tokens", {| kind := Tokens; align := None |});
   ("text", {| kind := TextSegment; align := None |});
   ("pos", {| kind := SequenceTags; align := Some "tokens" |});
   ("ner", {| kind := SpanLabels; align := Some "tokens" |});
   ("srl", {| kind := EdgeLabels; align := Some "tokens" |})].

(** A record as the datapoint editor leaves it: no tokens, and [""]
    where the spans should be. *)
Definition record_edited : Input :=
  [("tokens", JArr []);
   ("text", JStr "so it goes");
   ("pos", JArr [JStr "ADV"; JStr "PRON"; JStr "VERB"]);
   ("ner", JStr "");
   ("srl", JArr [])].

Definition spec_tokens_only : Spec :=
  [("tokens", {| kind := Tokens; align := None |})].

(** A record that has a field of the name ["undefined"]. *)
Definition record_undefined_field : Input :=
  [("tokens", JArr []); ("undefined", JStr "so it goes")].

Definition record_no_text : Input := [("tokens", JArr [])].

(** A record with its tokens, its spans and its edges filled in. *)
Definition record_full : Input :=
  [("tokens", JArr [JStr "so"; JStr "it"; JStr "goes"]);
   ("text", JStr "so it goes");
   ("pos", JArr [JStr "ADV"; JStr "PRON"; JStr "VERB"]);
   ("ner", JArr [SpanLabel (JNum 1) (JNum 2) (JStr "THING")]);
   ("srl", JArr [JObj [("span1", JArr [JNum 2; JNum 3]);
                       ("span2", JArr [JNum 1; JNum 2]);
                       ("label", JStr "ARG0")]])].

(** A spec with two token fields, one of them with a single layer. *)
Definition spec_two_groups : Spec :=
  [("tokens", {| kind := Tokens; align := None |});
   ("pieces", {| kind := Tokens; align := None |});
   ("pos", {| kind := SequenceTags; align := Some "tokens" |});
   ("ner", {| kind := SpanLabels; align := Some "tokens" |});
   ("tags", {| kind := SequenceTags; align := Some "pieces" |})].

Definition record_two_groups : Input :=
  [("tokens", JArr [JStr "unhappy"]);
   ("pieces", JArr [JStr "un"; JStr "happy"]);
   ("pos", JArr [JStr "ADJ"]);
   ("ner", JArr []);
   ("tags", JArr [JStr "B"; JStr "I"]);
   ("comment", JStr "not read")].

(** ** Shapes in a store *)

Module Shape.
Import Store.

(** [rep X h v j]: in the store [h], the value [v] has the shape [j], and
    no cell at a location of [X] is read to see it. *)
#[local] Unset Elimination Schemes.
Inductive rep (X : list Loc) (h : Heap) : Val -> JsVal -> Prop :=
  | rep_undefined : rep X h VUndefined JUndefined
  | rep_null : rep X h VNull JNull
  | rep_bool b : rep X h (VBool b) (JBool b)
  | rep_num n : rep X h (VNum n) (JNum n)
  | rep_str s : rep X h (VStr s) (JStr s)
  | rep_arr l vs js :
      l ∉ X -> h !! l = Some (CArr vs) ->
      Forall2 (rep X h) vs js ->
      rep X h (VRef l) (JArr js)
  | rep_obj l vps ps :
      l ∉ X -> h !! l = Some (CObj vps) ->
      Forall2 (fun vp p => vp.1 = p.1 ∧ rep X h vp.2 p.2) vps ps ->
      rep X h (VRef l) (JObj ps).
#[local] Set Elimination Schemes.

(** [stable X h h']: every cell of [h] outside [X] is the same in [h']. *)
Definition stable (X : list Loc) (h h' : Heap) : Prop :=
  ∀ l c, l ∉ X -> h !! l = Some c -> h' !! l = Some c.

(** The locations of [X] are allocated in [h]. *)
Definition allocated (X : list Loc) (h : Heap) : Prop :=
  ∀ x, x ∈ X -> (x < length h)%nat.

(** [refines X R h m p]: run from [h], the computation [m] changes no
    cell outside [X] and frees none, and it ends as the completion [p]
    of the value model does: it throws what [p] throws, or it returns a
    value that [R] relates, in the store it leaves, to the one [p]
    returns. *)
Definition refines {A B} (X : list Loc) (R : Heap -> A -> B -> Prop)
    (h : Heap) (m : M A) (p : Result B) : Prop :=
  stable X h (m h).1 ∧ (length h ≤ length (m h).1)%nat ∧
  match p with
  | Return b => ∃ a, (m h).2 = Return a ∧ R (m h).1 a b
  | Throw e => (m h).2 = Throw e
  end.

(** The results of the value model as the objects the code builds. *)
Definition layer_js (l : AnnotationLayer) : JsVal :=
  JObj [("name", JStr (name l)); ("edges", edges l)].

Definition graph_js (g : SpanGraph) : JsVal :=
  JObj [("tokens", tokens g); ("layers", JArr (layer_js <$> layers g))].

Definition annotations_js (a : Annotations) : JsVal :=
  JObj ((fun p => (p.1, graph_js p.2)) <$> a).

Definition layers_rel (X : list Loc) (h : Heap)
    (vs : list Val) (ls : list AnnotationLayer) : Prop :=
  Forall2 (fun v l => rep X h v (layer_js l)) vs ls.

(** The cells below [n] are kept, and none is freed. *)
Definition keeps (n : nat) (h h' : Heap) : Prop :=
  (length h ≤ length h')%nat ∧ ∀ l, (l < n)%nat -> h' !! l = h !! l.

(** The grouping while it is built: the object at [lT] has the keys of
    [o]; under each key it holds its own array, allocated at [n] or
    above, with the tag names [o] has there. *)
Definition grouping_inv (n : nat) (lT : Loc) (h : Heap)
    (o : FieldNameMultimap) : Prop :=
  ∃ ps, h !! lT = Some (CObj ps) ∧ obj_keys ps = obj_keys o ∧
    (∀ k, match obj_get o k with
          | None => obj_get ps k = None
          | Some tags =>
              ∃ a, obj_get ps k = Some (VRef a) ∧ a ≠ lT ∧ (n ≤ a)%nat ∧
                   h !! a = Some (CArr (VStr <$> tags))
          end) ∧
    (∀ k k' a, obj_get ps k = Some (VRef a) -> obj_get ps k' = Some (VRef a) ->
               k = k').

(** The grouping when it is built, as the loops of [parseInput] read
    it: the cells it is made of are below [n]. *)
Definition grouping_rel (n : nat) (h : Heap) (T : Val)
    (m : FieldNameMultimap) : Prop :=
  ∃ lT ps, T = VRef lT ∧ (lT < n)%nat ∧ h !! lT = Some (CObj ps) ∧
    obj_keys ps = obj_keys m ∧
    ∀ k, match obj_get m k with
         | None => obj_get ps k = None
         | Some tags =>
             ∃ a, obj_get ps k = Some (VRef a) ∧ (a < n)%nat ∧
                  h !! a = Some (CArr (VStr <$> tags))
         end.

Definition graphs_rel (X : list Loc) (h : Heap)
    (vps : list (string * Val)) (acc : Annotations) : Prop :=
  Forall2 (fun vp p => vp.1 = p.1 ∧ rep X h vp.2 (graph_js p.2)) vps acc.

(** The record [record_edited] in a store, and in another one where it
    lies elsewhere and its two empty lists are one array. *)
Definition store_edited : Heap :=
  [CArr [];
   CArr [VStr "ADV"; VStr "PRON"; VStr "VERB"];
   CArr [];
   CObj [("tokens", VRef 0%nat); ("text", VStr "so it goes");
         ("pos", VRef 1%nat); ("ner", VStr ""); ("srl", VRef 2%nat)]].

Definition store_edited_shared : Heap :=
  [CObj [("tokens", VRef 2%nat); ("text", VStr "so it goes");
         ("pos", VRef 1%nat); ("ner", VStr ""); ("srl", VRef 2%nat)];
   CArr [VStr "ADV"; VStr "PRON"; VStr "VERB"];
   CArr []].

End Shape.

(** * Properties *)

(** A decidable fact about closed terms, settled by evaluating it. *)
Ltac by_computation := apply (bool_decide_unpack _); vm_compute; exact I.

(** ** Objects *)

Section ObjectFacts.
Context {A : Type}.
Implicit Types (o : list (string * A)) (k : string) (v : A).

Lemma obj_get_Some_keys o k v : obj_get o k = Some v -> k ∈ obj_keys o.
Proof.
  induction o as [|[k' v'] o IH]; simpl; [done|].
  destruct (String.eqb_spec k' k) as [->|Hne]; intros H.
  - apply list_elem_of_here.
  - apply list_elem_of_further, IH, H.
Qed.

Lemma obj_get_keys_is_Some o k : k ∈ obj_keys o -> is_Some (obj_get o k).
Proof.
  induction o as [|[k' v'] o IH]; simpl; intros H.
  - by apply elem_of_nil in H.
  - destruct (String.eqb_spec k' k) as [->|Hne]; [by eexists|].
    apply elem_of_cons in H as [->|H]; [done|]. by apply IH.
Qed.

Lemma obj_get_set_eq o k v : obj_get (obj_set o k v) k = Some v.
Proof.
  induction o as [|[k' v'] o IH]; simpl.
  - by rewrite String.eqb_refl.
  - destruct (String.eqb_spec k' k) as [->|Hne]; simpl.
    + by rewrite String.eqb_refl.
    + by destruct (String.eqb_spec k' k).
Qed.

Lemma obj_get_set_ne o k k' v :
  k ≠ k' -> obj_get (obj_set o k v) k' = obj_get o k'.
Proof.
  intros Hne. induction o as [|[k1 v1] o IH]; simpl.
  - by destruct (String.eqb_spec k k').
  - destruct (String.eqb_spec k1 k) as [->|Hne1]; simpl.
    + by destruct (String.eqb_spec k k').
    + by rewrite IH.
Qed.

Lemma obj_keys_set_present o k v :
  is_Some (obj_get o k) -> obj_keys (obj_set o k v) = obj_keys o.
Proof.
  unfold obj_keys.
  induction o as [|[k1 v1] o IH]; simpl; intros [x Hx]; [done|].
  revert Hx. destruct (String.eqb_spec k1 k) as [->|Hne1]; simpl; [done|].
  intros Hx. f_equal. apply IH. by exists x.
Qed.

Lemma obj_keys_set_elem o k k' v :
  k' ∈ obj_keys (obj_set o k v) <-> k' = k ∨ k' ∈ obj_keys o.
Proof.
  unfold obj_keys. induction o as [|[k1 v1] o IH]; simpl.
  - rewrite list_elem_of_singleton. split; [by left|].
    intros [->|H]; [done|]. by apply elem_of_nil in H.
  - destruct (String.eqb_spec k1 k) as [->|Hne1]; simpl.
    + rewrite elem_of_cons. tauto.
    + rewrite !elem_of_cons, IH. tauto.
Qed.
End ObjectFacts.

(** ** Loops that may throw *)

Lemma mapiR_Return {A B} (g : nat -> A -> B) (l : list A) (i : nat) :
  mapiR (fun j a => Return (g j a)) i l = Return (imap (fun j => g (i + j)%nat) l).
Proof.
  revert i. induction l as [|a l IH]; intros i; simpl; [done|].
  rewrite IH. simpl. rewrite Nat.add_0_r. do 2 f_equal.
  apply imap_ext. intros j x _. simpl. f_equal. lia.
Qed.

Lemma mapR_Return_inv {A B} (f : A -> Result B) (l : list A) (bs : list B) :
  mapR f l = Return bs -> Forall2 (fun a b => f a = Return b) l bs.
Proof.
  revert bs. induction l as [|a l IH]; simpl; intros bs H.
  - injection H as <-. constructor.
  - destruct (f a) as [b|e] eqn:Ha; simpl in H; [|done].
    destruct (mapR f l) as [bs'|e] eqn:Hl; simpl in H; [|done].
    injection H as <-. constructor; [done|]. by apply IH.
Qed.

Lemma foldR_app {A S} (f : S -> A -> Result S) (l1 l2 : list A) (s : S) :
  foldR f (l1 ++ l2) s = let! s1 := foldR f l1 s in foldR f l2 s1.
Proof.
  revert s. induction l1 as [|a l1 IH]; intros s; simpl; [done|].
  destruct (f s a); simpl; [apply IH|done].
Qed.

(** ** Spec lookups *)

Lemma elem_of_findSpecKeys (spec : Spec) (types : list LitName) (key : string) :
  key ∈ findSpecKeys spec types <->
  ∃ t, obj_get spec key = Some t ∧ kind t ∈ types.
Proof.
  unfold findSpecKeys. rewrite list_elem_of_In, List.filter_In, <- list_elem_of_In.
  unfold isLitSubtype. split.
  - intros [Hk Ht]. destruct (obj_get spec key) as [t|]; [|done].
    exists t. split; [done|]. by apply bool_decide_eq_true in Ht.
  - intros (t & Hg & Ht). split; [by eapply obj_get_Some_keys|].
    rewrite Hg. by apply bool_decide_eq_true.
Qed.

Lemma findSpecKeys_nonempty (spec : Spec) (types : list LitName) :
  (0 <? length (findSpecKeys spec types))%nat = true <->
  ∃ key t, obj_get spec key = Some t ∧ kind t ∈ types.
Proof.
  rewrite Nat.ltb_lt. split.
  - destruct (findSpecKeys spec types) as [|key l] eqn:E; simpl; [lia|].
    intros _. exists key. apply elem_of_findSpecKeys. rewrite E. left.
  - intros (key & t & H). assert (Hin : key ∈ findSpecKeys spec types).
    { apply elem_of_findSpecKeys. eauto. }
    destruct (findSpecKeys spec types); [by apply elem_of_nil in Hin|simpl; lia].
Qed.

(** ** [tagsToEdges] *)

(** C6.  For every list of tag strings, [tagsToEdges] returns one edge
    per tag, in index order: the edge at index [i] is
    [{span1: [i, i+1], label: tags[i]}].  So there are as many edges as
    tags, each edge is one position long, and each starts where the one
    before it ends: no gap and no overlap. *)
Theorem tagsToEdges_one_edge_per_tag (tags : list string) :
  ∃ es : list JsVal,
    tagsToEdges (JArr (JStr <$> tags)) = Return (JArr es) ∧
    length es = length tags ∧
    (∀ (i : nat) (tag : string), tags !! i = Some tag ->
       es !! i = Some (EdgeLabel (JNum (Z.of_nat i)) (JNum (Z.of_nat i + 1))
                                 (JStr tag))) ∧
    (∀ (i : nat) (e : JsVal), es !! i = Some e ->
       span_start e = Some (Z.of_nat i) ∧ span_end e = Some (Z.of_nat i + 1)) ∧
    (∀ (i : nat) (e1 e2 : JsVal), es !! i = Some e1 -> es !! S i = Some e2 ->
       span_end e1 = span_start e2).
Proof.
  set (mk := fun (i : nat) (label : JsVal) =>
               EdgeLabel (JNum (Z.of_nat i)) (JNum (Z.of_nat i + 1)) label).
  exists (imap mk (JStr <$> tags)).
  assert (Hlook : ∀ (i : nat) (e : JsVal),
            imap mk (JStr <$> tags) !! i = Some e ->
            ∃ tag, tags !! i = Some tag ∧ e = mk i (JStr tag)).
  { intros i e. rewrite list_lookup_imap, list_lookup_fmap.
    destruct (tags !! i) as [tag|]; simpl; [|done].
    intros [= <-]. eauto. }
  split; [|split; [|split; [|split]]].
  - unfold tagsToEdges, js_map. rewrite (mapiR_Return mk). reflexivity.
  - by rewrite length_imap, length_fmap.
  - intros i tag Hi. rewrite list_lookup_imap, list_lookup_fmap, Hi. reflexivity.
  - intros i e He. apply Hlook in He as (tag & _ & ->). done.
  - intros i e1 e2 H1 H2.
    apply Hlook in H1 as (t1 & _ & ->). apply Hlook in H2 as (t2 & _ & ->).
    simpl. f_equal. lia.
Qed.

(** ** [shouldDisplayModule] *)

(** C9.  The gold module is shown exactly when the dataset spec has a
    field of kind [Tokens] and a field of one of the supported
    prediction kinds; with no field of a supported kind it is not shown,
    whatever else the spec has. *)
Theorem shouldDisplayModule_iff (modelSpecs : ModelsMap) (spec : Spec) :
  (SpanGraphGoldModule.shouldDisplayModule modelSpecs spec = true <->
     (∃ key t, obj_get spec key = Some t ∧ kind t = Tokens) ∧
     (∃ key t, obj_get spec key = Some t ∧
               (kind t = SequenceTags ∨ kind t = SpanLabels ∨
                kind t = EdgeLabels))) ∧
  ((∀ key t, obj_get spec key = Some t ->
      kind t ≠ SequenceTags ∧ kind t ≠ SpanLabels ∧ kind t ≠ EdgeLabels) ->
   SpanGraphGoldModule.shouldDisplayModule modelSpecs spec = false).
Proof.
  assert (Hiff : SpanGraphGoldModule.shouldDisplayModule modelSpecs spec = true <->
     (∃ key t, obj_get spec key = Some t ∧ kind t = Tokens) ∧
     (∃ key t, obj_get spec key = Some t ∧
               (kind t = SequenceTags ∨ kind t = SpanLabels ∨
                kind t = EdgeLabels))).
  { unfold SpanGraphGoldModule.shouldDisplayModule.
    rewrite andb_true_iff, !findSpecKeys_nonempty. unfold supportedPredTypes.
    split; intros [(k1 & t1 & H1 & K1) (k2 & t2 & H2 & K2)]; split.
    - exists k1, t1. split; [done|]. by apply list_elem_of_singleton in K1.
    - exists k2, t2. split; [done|].
      rewrite !elem_of_cons in K2. destruct K2 as [?|[?|[?|K2]]]; auto.
      by apply elem_of_nil in K2.
    - exists k1, t1. split; [done|]. by apply list_elem_of_singleton.
    - exists k2, t2. split; [done|]. rewrite !elem_of_cons. tauto. }
  split; [exact Hiff|].
  intros Hnone. apply not_true_is_false. intros Htrue.
  apply Hiff in Htrue as [_ (k & t & Hk & Hkind)].
  destruct (Hnone k t Hk) as (? & ? & ?). tauto.
Qed.

(** ** [mapTokenToTags] *)

Lemma seed_get (tokenKeys : list string) (o : FieldNameMultimap) (k : string) :
  obj_get (foldl (fun o tokenKey => obj_set o tokenKey []) o tokenKeys) k =
  if decide (k ∈ tokenKeys) then Some [] else obj_get o k.
Proof.
  revert o. induction tokenKeys as [|a l IH]; intros o.
  - simpl foldl. destruct (decide (k ∈ [])) as [Hin|_]; [|done].
    by apply elem_of_nil in Hin.
  - simpl foldl. rewrite IH.
    destruct (decide (k ∈ l)) as [Hin|Hnin];
      destruct (decide (k ∈ a :: l)) as [Hin'|Hnin']; try done.
    + exfalso. apply Hnin'. by right.
    + apply elem_of_cons in Hin' as [->|?]; [|done]. apply obj_get_set_eq.
    + apply obj_get_set_ne. intros ->. apply Hnin'. left.
Qed.

Lemma pushTag_Return (spec : Spec) (o o' : FieldNameMultimap) (tagKey : string) :
  pushTag spec o tagKey = Return o' ->
  ∀ k, obj_get o' k =
       (fun tags => tags ++ List.filter (alignedTo spec k) [tagKey]) <$> obj_get o k.
Proof.
  unfold pushTag. destruct (obj_get spec tagKey) as [t|] eqn:Hs; [|done].
  destruct (obj_get o (property_key (align t))) as [tags|] eqn:Ho; [|done].
  intros [= <-] k. unfold alignedTo. simpl. rewrite Hs.
  destruct (String.eqb_spec (property_key (align t)) k) as [<-|Hne].
  - by rewrite obj_get_set_eq, Ho.
  - rewrite obj_get_set_ne by done.
    destruct (obj_get o k); simpl; [|done]. by rewrite app_nil_r.
Qed.

Lemma foldR_pushTag_Return (spec : Spec) (tagKeys : list string)
    (o m : FieldNameMultimap) :
  foldR (pushTag spec) tagKeys o = Return m ->
  ∀ k, obj_get m k =
       (fun tags => tags ++ List.filter (alignedTo spec k) tagKeys) <$> obj_get o k.
Proof.
  revert o. induction tagKeys as [|a l IH]; intros o; simpl.
  - intros [= <-] k. destruct (obj_get o k); simpl; [|done].
    by rewrite app_nil_r.
  - destruct (pushTag spec o a) as [o'|e] eqn:Hp; simpl; [|done].
    intros Hm k. rewrite (IH _ Hm k), (pushTag_Return _ _ _ _ Hp k).
    destruct (obj_get o k); simpl; [|done].
    f_equal. rewrite <- app_assoc. f_equal.
    by destruct (alignedTo spec k a).
Qed.

(** What a returned grouping holds: under each token field, the tag
    fields aligned to it, in spec order; nothing under any other name. *)
Lemma mapTokenToTags_Return (spec : Spec) (m : FieldNameMultimap) :
  mapTokenToTags spec = Return m ->
  ∀ k, obj_get m k =
       if decide (k ∈ findSpecKeys spec [Tokens])
       then Some (List.filter (alignedTo spec k)
                    (findSpecKeys spec supportedPredTypes))
       else None.
Proof.
  unfold mapTokenToTags. intros Hm k.
  rewrite (foldR_pushTag_Return _ _ _ _ Hm k), seed_get.
  by destruct (decide (k ∈ findSpecKeys spec [Tokens])).
Qed.

(** A tag field that is aligned to no token field stops the grouping. *)
Lemma foldR_pushTag_Throw (spec : Spec) (tokenKeys tagKeys : list string)
    (o : FieldNameMultimap) :
  (∀ k, is_Some (obj_get o k) <-> k ∈ tokenKeys) ->
  Forall (fun tagKey => is_Some (obj_get spec tagKey)) tagKeys ->
  Exists (fun tagKey => ∃ t, obj_get spec tagKey = Some t ∧
                             property_key (align t) ∉ tokenKeys) tagKeys ->
  foldR (pushTag spec) tagKeys o = Throw (cannot_read "undefined" "push").
Proof.
  intros Ho Hall Hex. revert o Ho.
  induction tagKeys as [|a l IH]; intros o Ho; [by apply Exists_nil in Hex|].
  apply Forall_cons in Hall as [[t Ht] Hall]. simpl.
  unfold pushTag at 1. rewrite Ht.
  destruct (obj_get o (property_key (align t))) as [tags|] eqn:Hget; simpl; [|done].
  apply IH; [done| |].
  - apply Exists_cons in Hex as [(t' & Ht' & Hbad)|Hex]; [|done].
    rewrite Ht in Ht'. injection Ht' as <-.
    exfalso. apply Hbad, Ho. by exists tags.
  - intros k. rewrite <- Ho.
    destruct (decide (property_key (align t) = k)) as [<-|Hne].
    + rewrite obj_get_set_eq, Hget. split; eauto.
    + by rewrite obj_get_set_ne.
Qed.

(** ** [parseInput] *)

(** What a returned [parseInput] holds for the token fields it went
    through, and that it leaves the other names as they were. *)
Lemma foldR_tokenGroup_Return (data : option Input) (spec : Spec)
    (m : FieldNameMultimap) (l : list string) (acc ret : Annotations) :
  foldR (tokenGroup data spec m) l acc = Return ret ->
  (∀ k, k ∈ l ->
     ∃ tagKeys ls toks,
       obj_get m k = Some tagKeys ∧
       mapR (annotationLayer data spec) tagKeys = Return ls ∧
       resolveTokens data spec k = Return toks ∧
       obj_get ret k = Some {| tokens := toks; layers := ls |}) ∧
  (∀ k, k ∉ l -> obj_get ret k = obj_get acc k).
Proof.
  revert acc. induction l as [|a l IH]; intros acc; simpl.
  - intros [= <-]. split; [|done]. intros k Hk. by apply elem_of_nil in Hk.
  - unfold tokenGroup at 1.
    destruct (obj_get m a) as [tagKeys|] eqn:Hm; simpl; [|done].
    destruct (mapR (annotationLayer data spec) tagKeys) as [ls|e] eqn:Hls;
      simpl; [|done].
    destruct (resolveTokens data spec a) as [toks|e] eqn:Htoks; simpl; [|done].
    intros Hret. destruct (IH _ Hret) as [Hin Hout]. split.
    + intros k Hk. destruct (decide (k ∈ l)) as [Hl|Hl]; [by apply Hin|].
      apply elem_of_cons in Hk as [->|Hk]; [|done].
      exists tagKeys, ls, toks. rewrite (Hout _ Hl), obj_get_set_eq. done.
    + intros k Hk. apply not_elem_of_cons in Hk as [Hne Hk].
      rewrite (Hout _ Hk). by apply obj_get_set_ne.
Qed.

Lemma parseInput_Return (data : option Input) (spec : Spec) (ret : Annotations) :
  parseInput data spec = Return ret ->
  ∀ k, match obj_get ret k with
       | Some g =>
           k ∈ findSpecKeys spec [Tokens] ∧
           resolveTokens data spec k = Return (tokens g) ∧
           mapR (annotationLayer data spec)
             (List.filter (alignedTo spec k)
                (findSpecKeys spec supportedPredTypes)) = Return (layers g)
       | None => k ∉ findSpecKeys spec [Tokens]
       end.
Proof.
  unfold parseInput.
  destruct (mapTokenToTags spec) as [m|e] eqn:Hm; simpl; [|done].
  intros Hret k. pose proof (mapTokenToTags_Return _ _ Hm k) as Hk.
  destruct (foldR_tokenGroup_Return _ _ _ _ _ _ Hret) as [Hin Hout].
  destruct (decide (k ∈ findSpecKeys spec [Tokens])) as [Htok|Htok].
  - assert (Hkeys : k ∈ obj_keys m) by (by eapply obj_get_Some_keys).
    destruct (Hin _ Hkeys) as (tagKeys & ls & toks & Hg & Hls & Htoks & Hr).
    rewrite Hr. simpl. rewrite Hk in Hg. injection Hg as <-. done.
  - assert (Hkeys : k ∉ obj_keys m).
    { intros Hin'. apply obj_get_keys_is_Some in Hin' as [x Hx]. congruence. }
    by rewrite (Hout _ Hkeys).
Qed.

Lemma mapTokenToTags_Throw (spec : Spec) (tagKey : string) (t : LitType) :
  tagKey ∈ findSpecKeys spec supportedPredTypes ->
  obj_get spec tagKey = Some t ->
  property_key (align t) ∉ findSpecKeys spec [Tokens] ->
  mapTokenToTags spec = Throw (cannot_read "undefined" "push").
Proof.
  intros Htag Ht Hbad. unfold mapTokenToTags.
  apply foldR_pushTag_Throw with (tokenKeys := findSpecKeys spec [Tokens]).
  - intros k. rewrite seed_get.
    destruct (decide (k ∈ findSpecKeys spec [Tokens])); simpl.
    + split; eauto.
    + split; [intros [x Hx]; done|done].
  - apply Forall_forall. intros k Hk.
    apply elem_of_findSpecKeys in Hk as (t' & -> & _). eauto.
  - apply Exists_exists. exists tagKey. eauto.
Qed.

(** When [parseInput] returns, every tag field is aligned to a token
    field. *)
Lemma parseInput_Return_aligned (data : option Input) (spec : Spec)
    (ret : Annotations) (tagKey : string) (t : LitType) :
  parseInput data spec = Return ret ->
  tagKey ∈ findSpecKeys spec supportedPredTypes ->
  obj_get spec tagKey = Some t ->
  property_key (align t) ∈ findSpecKeys spec [Tokens].
Proof.
  intros Hret Htag Ht.
  destruct (decide (property_key (align t) ∈ findSpecKeys spec [Tokens]))
    as [|Hbad]; [done|].
  unfold parseInput in Hret.
  by rewrite (mapTokenToTags_Throw _ _ _ Htag Ht Hbad) in Hret.
Qed.

Lemma has_length_iff (v : JsVal) : has_length v <-> v ≠ JUndefined ∧ v ≠ JNull.
Proof. unfold has_length. destruct v; simpl; split; try done; intros []; done. Qed.

Lemma length_is_zero_has_length (v : JsVal) (b : bool) :
  length_is_zero v = Return b -> has_length v.
Proof. unfold length_is_zero, has_length. by destruct (js_get v "length"). Qed.

Lemma annotationLayer_Return (data : Input) (spec : Spec) (tagKey : string)
    (l : AnnotationLayer) :
  annotationLayer (Some data) spec tagKey = Return l ->
  name l = tagKey ∧ has_length (field data tagKey).
Proof.
  unfold annotationLayer. simpl. fold (field data tagKey).
  destruct (length_is_zero (field data tagKey)) as [b|e] eqn:Hlen; simpl; [|done].
  intros H. split; [|by eapply length_is_zero_has_length].
  match type of H with (bind ?m _ = _) => destruct m; simpl in H; [|done] end.
  by injection H as <-.
Qed.

Lemma annotationLayer_empty (data : Input) (spec : Spec) (tagKey : string) :
  length_is_zero (field data tagKey) = Return true ->
  annotationLayer (Some data) spec tagKey =
  Return {| name := tagKey; edges := JArr [] |}.
Proof.
  intros Hlen. unfold annotationLayer. simpl. fold (field data tagKey).
  rewrite Hlen. simpl.
  destruct (isLitSubtype (obj_get spec tagKey) [SequenceTags]); [done|].
  by destruct (isLitSubtype (obj_get spec tagKey) [SpanLabels]).
Qed.

Lemma resolveTokens_Return (data : Input) (spec : Spec) (tokenKey : string)
    (toks : JsVal) :
  resolveTokens (Some data) spec tokenKey = Return toks ->
  (length_is_zero (field data tokenKey) = Return false ∧
   toks = field data tokenKey) ∨
  (length_is_zero (field data tokenKey) = Return true ∧
   ∃ s, field data (property_key (head (findSpecKeys spec [TextSegment])))
          = JStr s ∧ toks = JArr [JStr s]).
Proof.
  unfold resolveTokens. simpl. fold (field data tokenKey).
  destruct (length_is_zero (field data tokenKey)) as [[]|e]; simpl; [| |done].
  - fold (field data (property_key (head (findSpecKeys spec [TextSegment])))).
    destruct (field data _) as [| | | |s| |]; simpl; try done.
    intros [= <-]. right. eauto.
  - intros [= <-]. by left.
Qed.

Lemma field_Some (data : Input) (key : string) (v : JsVal) :
  field data key = v -> v ≠ JUndefined -> obj_get data key = Some v.
Proof. unfold field. destruct (obj_get data key); simpl; congruence. Qed.

(** C3, as stated, fails: the tag field [pos] is aligned to [words],
    which is no token field, and the exception [mapTokenToTags] throws
    is the engine's, about reading [push] of [undefined]; it does not
    say that a field is unaligned. *)
Lemma mapTokenToTags_unaligned_error_is_generic :
  "pos" ∈ findSpecKeys spec_unaligned supportedPredTypes ∧
  obj_get spec_unaligned "pos"
    = Some {| kind := SequenceTags; align := Some "words" |} ∧
  ("words" ∉ findSpecKeys spec_unaligned [Tokens]) ∧
  mapTokenToTags spec_unaligned =
    Throw (TypeError "Cannot read properties of undefined (reading 'push')") ∧
  ¬ ∃ e, mapTokenToTags spec_unaligned = Throw e ∧
         is_unaligned_field_error e = true.
Proof.
  split; [|split; [|split; [|split]]].
  - by_computation.
  - reflexivity.
  - by_computation.
  - reflexivity.
  - intros (e & He & Hdesc). vm_compute in He. injection He as <-. done.
Qed.

(** C3, amended.  For a spec with ordinary names (no field name and no
    [align] is the name of a member of [Object.prototype] or written
    like an index), a tag field whose [align] names no token field of
    the spec makes [mapTokenToTags] fail, and [parseInput] with it: no
    grouping is returned and the field is not dropped.  What is thrown
    is the engine's [TypeError] about reading [push] of [undefined],
    not an error that says a field is unaligned. *)
Theorem mapTokenToTags_unaligned_throws
    (spec : Spec) (tagKey : string) (t : LitType) :
  ordinary_spec spec ->
  tagKey ∈ findSpecKeys spec supportedPredTypes ->
  obj_get spec tagKey = Some t ->
  property_key (align t) ∉ findSpecKeys spec [Tokens] ->
  mapTokenToTags spec = Throw (cannot_read "undefined" "push") ∧
  (∀ data, parseInput data spec = Throw (cannot_read "undefined" "push")) ∧
  is_unaligned_field_error (cannot_read "undefined" "push") = false.
Proof.
  intros _ Htag Ht Hbad.
  pose proof (mapTokenToTags_Throw _ _ _ Htag Ht Hbad) as Hthrow.
  split; [done|]. split; [|reflexivity].
  intros data. unfold parseInput. by rewrite Hthrow.
Qed.

Lemma mapTokenToTags_unaligned_throws_witness :
  mapTokenToTags spec_unaligned = Throw (cannot_read "undefined" "push") ∧
  (∀ data, parseInput data spec_unaligned
           = Throw (cannot_read "undefined" "push")) ∧
  is_unaligned_field_error (cannot_read "undefined" "push") = false.
Proof.
  apply (mapTokenToTags_unaligned_throws spec_unaligned "pos"
           {| kind := SequenceTags; align := Some "words" |}).
  - by_computation.
  - by_computation.
  - reflexivity.
  - by_computation.
Defined.



Lemma mapR_lookup {A B} (f : A -> Result B) (l : list A) (bs : list B) :
  mapR f l = Return bs ->
  (∀ b, b ∈ bs -> ∃ a, a ∈ l ∧ f a = Return b) ∧
  (∀ a, a ∈ l -> ∃ b, b ∈ bs ∧ f a = Return b).
Proof.
  intros H. apply mapR_Return_inv in H.
  induction H as [|a b l bs Hab _ [IH1 IH2]].
  - split; intros x Hx; by apply elem_of_nil in Hx.
  - split; intros x Hx; apply elem_of_cons in Hx as [->|Hx].
    + exists a. split; [left|done].
    + destruct (IH1 _ Hx) as (a' & ? & ?). exists a'. split; [by right|done].
    + exists b. split; [left|done].
    + destruct (IH2 _ Hx) as (b' & ? & ?). exists b'. split; [by right|done].
Qed.

Lemma elem_of_aligned (spec : Spec) (tokenKey tagKey : string) (t : LitType) :
  tagKey ∈ findSpecKeys spec supportedPredTypes ->
  obj_get spec tagKey = Some t ->
  tagKey ∈ List.filter (alignedTo spec (property_key (align t)))
             (findSpecKeys spec supportedPredTypes).
Proof.
  intros Htag Ht. rewrite list_elem_of_In, List.filter_In, <- list_elem_of_In.
  split; [done|]. unfold alignedTo. rewrite Ht. apply String.eqb_refl.
Qed.

(** C7.  A tag field whose raw value is empty (its [length] is [0]: the
    string [""] as well as the list [[]]) gives a layer with the empty
    edge list, without an error, whatever the field's kind; when
    [parseInput] returns, no layer of that name has any entry, and, for
    a spec with ordinary names, that layer is in the result under the
    token field the tag field is aligned to. *)
Theorem parseInput_empty_value_empty_edges
    (data : Input) (spec : Spec) (tagKey : string) :
  length_is_zero (field data tagKey) = Return true ->
  annotationLayer (Some data) spec tagKey
    = Return {| name := tagKey; edges := JArr [] |} ∧
  ∀ ret, parseInput (Some data) spec = Return ret ->
    (∀ tokenKey g l, obj_get ret tokenKey = Some g -> l ∈ layers g ->
       name l = tagKey -> edges l = JArr []) ∧
    (ordinary_spec spec ->
     ∀ t, tagKey ∈ findSpecKeys spec supportedPredTypes ->
       obj_get spec tagKey = Some t ->
       ∃ g, obj_get ret (property_key (align t)) = Some g ∧
            {| name := tagKey; edges := JArr [] |} ∈ layers g).
Proof.
  intros Hlen. pose proof (annotationLayer_empty data spec tagKey Hlen) as Hlayer.
  split; [done|]. intros ret Hret. split.
  - intros tokenKey g l Hg Hl Hname.
    pose proof (parseInput_Return _ _ _ Hret tokenKey) as Hk. rewrite Hg in Hk.
    destruct Hk as (_ & _ & Hls).
    apply mapR_lookup in Hls as [Hls _].
    destruct (Hls l Hl) as (tagKey' & _ & Hl').
    destruct (annotationLayer_Return _ _ _ _ Hl') as [Hname' _].
    rewrite Hname in Hname'. subst tagKey'.
    rewrite Hlayer in Hl'. by injection Hl' as <-.
  - intros _ t Htag Ht.
    pose proof (parseInput_Return_aligned _ _ _ _ _ Hret Htag Ht) as Hal.
    pose proof (parseInput_Return _ _ _ Hret (property_key (align t))) as Hk.
    destruct (obj_get ret (property_key (align t))) as [g|]; [|done].
    destruct Hk as (_ & _ & Hls). exists g. split; [done|].
    apply mapR_lookup in Hls as [_ Hls].
    destruct (Hls tagKey (elem_of_aligned _ (property_key (align t)) _ _ Htag Ht))
      as (l & Hl & Hl').
    rewrite Hlayer in Hl'. by injection Hl' as <-.
Qed.

Lemma parseInput_empty_value_empty_edges_witness :
  annotationLayer (Some record_edited) spec_tagged "ner"
    = Return {| name := "ner"; edges := JArr [] |} ∧
  ∀ ret, parseInput (Some record_edited) spec_tagged = Return ret ->
    (∀ tokenKey g l, obj_get ret tokenKey = Some g -> l ∈ layers g ->
       name l = "ner" -> edges l = JArr []) ∧
    (∀ t, "ner" ∈ findSpecKeys spec_tagged supportedPredTypes ->
       obj_get spec_tagged "ner" = Some t ->
       ∃ g, obj_get ret (property_key (align t)) = Some g ∧
            {| name := "ner"; edges := JArr [] |} ∈ layers g).
Proof.
  destruct (parseInput_empty_value_empty_edges record_edited spec_tagged
              "ner" eq_refl) as [Hlayer Hresult].
  split; [exact Hlayer|]. intros ret Hret.
  destruct (Hresult ret Hret) as [Hempty Hthere].
  split; [exact Hempty|]. apply Hthere. by_computation.
Defined.

Lemma present_with_length_intro (data : Input) (key : string) :
  has_length (field data key) -> present_with_length data key.
Proof.
  intros H. exists (field data key). split; [|done].
  apply field_Some; [done|]. by apply has_length_iff in H as [? _].
Qed.

(** C10, as stated, fails in its last part: the token field is empty and
    the spec has no [TextSegment] field, so the text key is
    [undefined]; as a property key that is the name ["undefined"], which
    this record has, with a string: [parseInput] returns. *)
Lemma parseInput_no_text_field_returns :
  "tokens" ∈ findSpecKeys spec_tokens_only [Tokens] ∧
  length_is_zero (field record_undefined_field "tokens") = Return true ∧
  findSpecKeys spec_tokens_only [TextSegment] = [] ∧
  parseInput (Some record_undefined_field) spec_tokens_only
    = Return [("tokens", {| tokens := JArr [JStr "so it goes"]; layers := [] |})] ∧
  ¬ is_Throw (parseInput (Some record_undefined_field) spec_tokens_only).
Proof.
  split; [by_computation|]. split; [reflexivity|]. split; [reflexivity|].
  split; [reflexivity|]. vm_compute. tauto.
Qed.

(** C10, amended.  For a spec with ordinary names (no field name and
    no [align] is the name of a member of [Object.prototype] or
    written like an index),
    [parseInput] returns only if every token field and
    every tag field of the spec is in the record with a value whose
    [length] can be read (any value but [undefined] and [null]), every
    tag field is aligned to a token field, and, for each token field
    whose value is empty, the record has a string under the name of
    the first [TextSegment] field of the spec or, when the spec has
    none, under the name ["undefined"].  So when a token field's value is
    empty, the spec has no [TextSegment] field and the record has no
    string under ["undefined"], [parseInput] throws instead of
    returning. *)
Theorem parseInput_partial (data : Input) (spec : Spec) :
  ordinary_spec spec ->
  (∀ ret, parseInput (Some data) spec = Return ret ->
     (∀ tokenKey, tokenKey ∈ findSpecKeys spec [Tokens] ->
        present_with_length data tokenKey) ∧
     (∀ tagKey, tagKey ∈ findSpecKeys spec supportedPredTypes ->
        (∃ t, obj_get spec tagKey = Some t ∧
              property_key (align t) ∈ findSpecKeys spec [Tokens]) ∧
        present_with_length data tagKey) ∧
     (∀ tokenKey, tokenKey ∈ findSpecKeys spec [Tokens] ->
        length_is_zero (field data tokenKey) = Return true ->
        ∃ s, obj_get data (property_key (head (findSpecKeys spec [TextSegment])))
             = Some (JStr s))) ∧
  (∀ tokenKey, tokenKey ∈ findSpecKeys spec [Tokens] ->
     length_is_zero (field data tokenKey) = Return true ->
     findSpecKeys spec [TextSegment] = [] ->
     (∀ s, obj_get data "undefined" ≠ Some (JStr s)) ->
     is_Throw (parseInput (Some data) spec)).
Proof.
  intros _.
  assert (Hnec : ∀ ret, parseInput (Some data) spec = Return ret ->
     (∀ tokenKey, tokenKey ∈ findSpecKeys spec [Tokens] ->
        present_with_length data tokenKey) ∧
     (∀ tagKey, tagKey ∈ findSpecKeys spec supportedPredTypes ->
        (∃ t, obj_get spec tagKey = Some t ∧
              property_key (align t) ∈ findSpecKeys spec [Tokens]) ∧
        present_with_length data tagKey) ∧
     (∀ tokenKey, tokenKey ∈ findSpecKeys spec [Tokens] ->
        length_is_zero (field data tokenKey) = Return true ->
        ∃ s, obj_get data (property_key (head (findSpecKeys spec [TextSegment])))
             = Some (JStr s))).
  { intros ret Hret.
    assert (Htoks : ∀ tokenKey, tokenKey ∈ findSpecKeys spec [Tokens] ->
              ∃ g, obj_get ret tokenKey = Some g ∧
                   resolveTokens (Some data) spec tokenKey = Return (tokens g) ∧
                   mapR (annotationLayer (Some data) spec)
                     (List.filter (alignedTo spec tokenKey)
                        (findSpecKeys spec supportedPredTypes))
                   = Return (layers g)).
    { intros k Hk. pose proof (parseInput_Return _ _ _ Hret k) as H.
      destruct (obj_get ret k) as [g|]; [|done].
      destruct H as (_ & ? & ?). eauto. }
    split; [|split].
    - intros k Hk. destruct (Htoks k Hk) as (g & _ & Hg & _).
      apply present_with_length_intro.
      apply resolveTokens_Return in Hg as [[Hlen _]|[Hlen _]];
        by eapply length_is_zero_has_length.
    - intros tagKey Htag.
      pose proof Htag as Htag'.
      apply elem_of_findSpecKeys in Htag' as (t & Ht & _).
      pose proof (parseInput_Return_aligned _ _ _ _ _ Hret Htag Ht) as Hal.
      split; [eauto|].
      destruct (Htoks _ Hal) as (g & _ & _ & Hls).
      apply mapR_lookup in Hls as [_ Hls].
      destruct (Hls tagKey (elem_of_aligned _ (property_key (align t)) _ _ Htag Ht))
        as (l & _ & Hl).
      apply annotationLayer_Return in Hl as [_ Hl].
      by apply present_with_length_intro.
    - intros k Hk Hlen. destruct (Htoks k Hk) as (g & _ & Hg & _).
      apply resolveTokens_Return in Hg as [[Hlen' _]|(_ & s & Hs & _)];
        [congruence|].
      exists s. by apply field_Some. }
  split; [exact Hnec|].
  intros k Hk Hlen Hnone Hundef.
  destruct (parseInput (Some data) spec) as [ret|e] eqn:Hret; [|done].
  destruct (Hnec ret eq_refl) as (_ & _ & Htext).
  destruct (Htext k Hk Hlen) as [s Hs].
  rewrite Hnone in Hs. simpl in Hs. by apply Hundef in Hs.
Qed.

Lemma parseInput_partial_witness :
  (∀ tokenKey, tokenKey ∈ findSpecKeys spec_tagged [Tokens] ->
     present_with_length record_edited tokenKey) ∧
  is_Throw (parseInput (Some record_no_text) spec_tokens_only).
Proof.
  split.
  - destruct (parseInput_partial record_edited spec_tagged) as [Hnec _];
      [by_computation|].
    destruct (Hnec _ eq_refl) as [Htok _]. exact Htok.
  - destruct (parseInput_partial record_no_text spec_tokens_only)
      as [_ Hfail]; [by_computation|].
    apply (Hfail "tokens").
    + by_computation.
    + reflexivity.
    + reflexivity.
    + intros s. vm_compute. discriminate.
Defined.

(** ** [loadLatest] *)

Module LitModuleFacts.
Import LitModule.

Section Traces.
Context {T : Type}.
Implicit Types (st : State) (trace : list (Event T)) (key : string).

Lemma run_app trace1 trace2 st :
  run (trace1 ++ trace2) st =
  let '(st1, log1) := run trace1 st in
  let '(st2, log2) := run trace2 st1 in
  (st2, log1 ++ log2).
Proof.
  revert st. induction trace1 as [|e trace1 IH]; intros st; simpl.
  - by destruct (run trace2 st).
  - destruct (step st e) as [st1 log1]. rewrite IH.
    destruct (run trace1 st1) as [st2 log2].
    destruct (run trace2 st2) as [st3 log3]. by rewrite app_assoc.
Qed.

Lemma committed_app key (log1 log2 : Log T) :
  committed key (log1 ++ log2) = committed key log1 ++ committed key log2.
Proof.
  induction log1 as [|[[k p] r] log1 IH]; simpl; [done|].
  destruct r as [[v|]|e]; [|done..].
  destruct (String.eqb k key); [|done]. by rewrite IH.
Qed.

Lemma step_foreign key (e : Event T) st :
  event_key e ≠ key ->
  latestLoadPromises (step st e).1 !! key = latestLoadPromises st !! key ∧
  committed key (step st e).2 = [].
Proof.
  intros Hne. destruct e as [k p|k p [v|reason]]; simpl in *.
  - split; [|done]. by apply lookup_insert_ne.
  - destruct (decide (latestLoadPromises st !! k = Some p)); simpl.
    + split; [by apply lookup_delete_ne|]. by destruct (String.eqb_spec k key).
    + done.
  - done.
Qed.

Lemma run_foreign key trace st :
  foreign key trace ->
  latestLoadPromises (run trace st).1 !! key = latestLoadPromises st !! key ∧
  committed key (run trace st).2 = [].
Proof.
  intros Hf. revert st. induction Hf as [|e trace He _ IH]; intros st; simpl.
  - done.
  - destruct (step_foreign key e st He) as [Hst Hlog].
    destruct (step st e) as [st1 log1]. simpl in Hst, Hlog.
    destruct (IH st1) as [Hst' Hlog'].
    destruct (run trace st1) as [st2 log2]. simpl in *.
    split; [congruence|]. by rewrite committed_app, Hlog, Hlog'.
Qed.

Lemma committed_by_app key trace1 trace2 st :
  committed_by key (trace1 ++ trace2) st =
  committed_by key trace1 st ++ committed_by key trace2 (run trace1 st).1.
Proof.
  unfold committed_by. rewrite run_app.
  destruct (run trace1 st) as [st1 log1]. simpl.
  destruct (run trace2 st1) as [st2 log2]. simpl. apply committed_app.
Qed.

Lemma run_app_state trace1 trace2 st :
  (run (trace1 ++ trace2) st).1 = (run trace2 (run trace1 st).1).1.
Proof.
  rewrite run_app. destruct (run trace1 st) as [st1 log1]. simpl.
  by destruct (run trace2 st1).
Qed.

(** Resuming a call whose promise is not the one stored under its key:
    nothing is committed and the state stays. *)
Lemma resume_superseded key (promise : Promise) (outcome : Settled T) st :
  latestLoadPromises st !! key ≠ Some promise ->
  (run [Resume key promise outcome] st).1 = st ∧
  committed_by key [Resume key promise outcome] st = [].
Proof.
  intros Hne. unfold committed_by. simpl. destruct outcome as [v|reason]; simpl.
  - by rewrite decide_False.
  - done.
Qed.

(** Resuming the call whose promise is the stored one: its result is
    committed and the handle removed. *)
Lemma resume_latest key (promise : Promise) (v : T) st :
  latestLoadPromises st !! key = Some promise ->
  latestLoadPromises (run [Resume key promise (Fulfilled v)] st).1 !! key
    = None ∧
  isLoading (run [Resume key promise (Fulfilled v)] st).1 = false ∧
  committed_by key [Resume key promise (Fulfilled v)] st = [(promise, v)].
Proof.
  intros Heq. unfold committed_by. simpl. rewrite decide_True by done. simpl.
  rewrite lookup_delete_eq, String.eqb_refl. done.
Qed.

Lemma call_stores key (promise : Promise) st :
  latestLoadPromises (run [Call (T:=T) key promise] st).1 !! key
    = Some promise ∧
  isLoading (run [Call (T:=T) key promise] st).1 = true ∧
  committed_by key [Call (T:=T) key promise] st = [].
Proof. unfold committed_by. simpl. by rewrite lookup_insert_eq. Qed.

(** Both calls have been made and neither has resumed: the handle
    stored under [key] is the second one's. *)
Lemma both_in_flight key (A B : Promise) trace1 trace2 st :
  foreign key trace1 -> foreign key trace2 ->
  handle_after key ([Call key A] ++ trace1 ++ [Call key B] ++ trace2) st
    = Some B ∧
  committed_by key ([Call key A] ++ trace1 ++ [Call key B] ++ trace2) st
    = [].
Proof.
  intros H1 H2. unfold handle_after.
  rewrite !committed_by_app, !run_app_state.
  destruct (call_stores key A st) as (_ & _ & ->).
  set (s1 := (run [Call key A] st).1).
  destruct (run_foreign key trace1 s1 H1) as [_ Hc1].
  fold (committed_by key trace1 s1) in Hc1. rewrite Hc1.
  set (s2 := (run trace1 s1).1).
  destruct (call_stores key B s2) as (HB & _ & ->).
  set (s3 := (run [Call key B] s2).1) in *.
  destruct (run_foreign key trace2 s3 H2) as [Hh2 Hc2].
  fold (committed_by key trace2 s3) in Hc2. rewrite Hc2, Hh2. done.
Qed.

(** C1.  Two calls of [loadLatest] under one key, of [A] and then of
    [B], both made before either resumes, with anything happening
    under other keys in between.  In whichever order the two
    resume, and however [A] settles, what is committed under the
    key is the result of [B] and nothing else: the call of [A]
    returns [null] or throws, also when it resumes after the result
    of [B] has been committed. *)
Theorem loadLatest_last_issued_wins
    key (A B : Promise) (outA : Settled T) (b : T)
    trace1 trace2 trace3 trace4 st :
  A ≠ B ->
  foreign key trace1 -> foreign key trace2 ->
  foreign key trace3 -> foreign key trace4 ->
  let issued := [Call key A] ++ trace1 ++ [Call key B] ++ trace2 in
  committed_by key
    (issued ++ [Resume key A outA] ++ trace3
            ++ [Resume key B (Fulfilled b)] ++ trace4) st = [(B, b)] ∧
  committed_by key
    (issued ++ [Resume key B (Fulfilled b)] ++ trace3
            ++ [Resume key A outA] ++ trace4) st = [(B, b)].
Proof.
  intros Hne H1 H2 H3 H4 issued.
  destruct (both_in_flight key A B trace1 trace2 st H1 H2) as [Hh Hc].
  fold issued in Hh, Hc. unfold handle_after in Hh.
  set (s0 := (run issued st).1) in *.
  split; rewrite !committed_by_app, Hc; fold s0; rewrite app_nil_l.
  - (* A resumes first: superseded. *)
    destruct (resume_superseded key A outA s0) as [Hs HcA];
      [rewrite Hh; congruence|].
    rewrite HcA, Hs.
    destruct (run_foreign key trace3 s0 H3) as [Hh3 Hc3].
    fold (committed_by key trace3 s0) in Hc3. rewrite Hc3.
    set (s1 := (run trace3 s0).1) in *.
    destruct (resume_latest key B b s1) as (_ & _ & HcB); [congruence|].
    rewrite HcB.
    destruct (run_foreign key trace4 (run [Resume key B (Fulfilled b)] s1).1 H4)
      as [_ Hc4].
    fold (committed_by key trace4 (run [Resume key B (Fulfilled b)] s1).1) in Hc4.
    by rewrite Hc4.
  - (* B resumes first and is committed; A resumes later. *)
    destruct (resume_latest key B b s0 Hh) as (HhB & _ & HcB).
    rewrite HcB. set (s1 := (run [Resume key B (Fulfilled b)] s0).1) in *.
    destruct (run_foreign key trace3 s1 H3) as [Hh3 Hc3].
    fold (committed_by key trace3 s1) in Hc3. rewrite Hc3.
    set (s2 := (run trace3 s1).1) in *.
    destruct (resume_superseded key A outA s2) as [Hs HcA];
      [rewrite Hh3, HhB; congruence|].
    rewrite HcA, Hs.
    destruct (run_foreign key trace4 s2 H4) as [_ Hc4].
    fold (committed_by key trace4 s2) in Hc4. by rewrite Hc4.
Qed.

(** C2, amended.  When the awaited promise is rejected while its
    handle is the one stored under the key, the call of
    [loadLatest] throws the reason to its caller and does nothing
    else: the busy signal is not cleared, it stays as it was, and
    the handle stays stored.  Rejected right after the call, the
    busy signal is left [true]. *)
Theorem loadLatest_rejected_propagates
    key (promise : Promise) (reason : JsVal) st :
  latestLoadPromises st !! key = Some promise ->
  loadLatest_resume (T:=T) key promise (Rejected reason) st
    = (st, Throw (Rejection reason)) ∧
  (let st' := (loadLatest_resume (T:=T) key promise (Rejected reason) st).1 in
   isLoading st' = isLoading st ∧
   latestLoadPromises st' !! key = Some promise) ∧
  (∀ st0,
     let st1 := loadLatest_call key promise st0 in
     let st2 := (loadLatest_resume (T:=T) key promise (Rejected reason) st1).1 in
     isLoading st2 = true ∧ latestLoadPromises st2 !! key = Some promise).
Proof.
  intros Hh. split; [done|]. split; [done|].
  intros st0. simpl. by rewrite lookup_insert_eq.
Qed.
End Traces.

Lemma loadLatest_last_issued_wins_witness :
  committed_by "getPreds"
    (([Call "getPreds" 0%nat] ++ [] ++ [Call "getPreds" 1%nat]
        ++ [Call "getEmbeddings" 2%nat])
     ++ [Resume "getPreds" 0%nat (Fulfilled "first")] ++ []
     ++ [Resume "getPreds" 1%nat (Fulfilled "second")]
     ++ [Resume "getEmbeddings" 2%nat (Fulfilled "other")]) initial
    = [(1%nat, "second")] ∧
  committed_by "getPreds"
    (([Call "getPreds" 0%nat] ++ [] ++ [Call "getPreds" 1%nat]
        ++ [Call "getEmbeddings" 2%nat])
     ++ [Resume "getPreds" 1%nat (Fulfilled "second")] ++ []
     ++ [Resume "getPreds" 0%nat (Fulfilled "first")]
     ++ [Resume "getEmbeddings" 2%nat (Fulfilled "other")]) initial
    = [(1%nat, "second")].
Proof.
  apply (loadLatest_last_issued_wins (T:=string) "getPreds" 0%nat 1%nat
           (Fulfilled "first") "second"
           [] [Call "getEmbeddings" 2%nat] []
           [Resume "getEmbeddings" 2%nat (Fulfilled "other")] initial).
  - lia.
  - apply Forall_nil_2.
  - apply Forall_cons_2; [by_computation|apply Forall_nil_2].
  - apply Forall_nil_2.
  - apply Forall_cons_2; [by_computation|apply Forall_nil_2].
Defined.

(** C2, as stated, fails: the promise of the only call is rejected
    while its handle is the stored one; the call throws the reason and
    the busy signal is left [true]. *)
Lemma loadLatest_rejected_leaves_loading :
  latestLoadPromises (loadLatest_call "getPreds" 0%nat initial) !! "getPreds"
    = Some 0%nat ∧
  loadLatest_resume (T:=list Input) "getPreds" 0%nat
      (Rejected (JStr "500 Internal Server Error"))
      (loadLatest_call "getPreds" 0%nat initial)
    = (loadLatest_call "getPreds" 0%nat initial,
       Throw (Rejection (JStr "500 Internal Server Error"))) ∧
  isLoading (loadLatest_resume (T:=list Input) "getPreds" 0%nat
               (Rejected (JStr "500 Internal Server Error"))
               (loadLatest_call "getPreds" 0%nat initial)).1 = true ∧
  isLoading (loadLatest_resume (T:=list Input) "getPreds" 0%nat
               (Rejected (JStr "500 Internal Server Error"))
               (loadLatest_call "getPreds" 0%nat initial)).1 ≠ false.
Proof. repeat split; done. Qed.

Lemma loadLatest_rejected_propagates_witness :
  loadLatest_resume (T:=list Input) "getPreds" 0%nat
      (Rejected (JStr "500 Internal Server Error"))
      (loadLatest_call "getPreds" 0%nat initial)
    = (loadLatest_call "getPreds" 0%nat initial,
       Throw (Rejection (JStr "500 Internal Server Error"))) ∧
  (let st' := (loadLatest_resume (T:=list Input) "getPreds" 0%nat
                 (Rejected (JStr "500 Internal Server Error"))
                 (loadLatest_call "getPreds" 0%nat initial)).1 in
   isLoading st' = isLoading (loadLatest_call "getPreds" 0%nat initial) ∧
   latestLoadPromises st' !! "getPreds" = Some 0%nat) ∧
  (∀ st0,
     let st1 := loadLatest_call "getPreds" 0%nat st0 in
     let st2 := (loadLatest_resume (T:=list Input) "getPreds" 0%nat
                   (Rejected (JStr "500 Internal Server Error")) st1).1 in
     isLoading st2 = true ∧ latestLoadPromises st2 !! "getPreds" = Some 0%nat).
Proof.
  apply (loadLatest_rejected_propagates (T:=list Input) "getPreds" 0%nat
           (JStr "500 Internal Server Error")
           (loadLatest_call "getPreds" 0%nat initial)).
  reflexivity.
Defined.
End LitModuleFacts.

(** ** [updatePredDisplayData] *)

(** C5.  Called with [null], [updatePredDisplayData] sets
    [predDisplayData] to [{}] and runs to its end without awaiting
    anything: [loadLatest] is not called (no handle is stored, the busy
    signal is not touched) and the prediction service is not called. *)
Theorem updatePredDisplayData_null_clears (st : SpanGraphModule.State) :
  let '(st', waiting) := SpanGraphModule.updatePredDisplayData_call None st in
  SpanGraphModule.predDisplayData st' = [] ∧
  waiting = None ∧
  SpanGraphModule.base st' = SpanGraphModule.base st ∧
  SpanGraphModule.getPredsCalls st' = SpanGraphModule.getPredsCalls st.
Proof. done. Qed.

(** With an input, on the contrary, the prediction service is called and
    the promise it returns is stored under the key ["getPreds"]. *)
Lemma updatePredDisplayData_input_fetches
    (input : IndexedInput) (st : SpanGraphModule.State) :
  let '(st', waiting) :=
    SpanGraphModule.updatePredDisplayData_call (Some input) st in
  ∃ promise,
    waiting = Some promise ∧
    SpanGraphModule.predDisplayData st' = SpanGraphModule.predDisplayData st ∧
    length (SpanGraphModule.getPredsCalls st')
      = S (length (SpanGraphModule.getPredsCalls st)) ∧
    LitModule.latestLoadPromises (SpanGraphModule.base st') !! "getPreds"
      = Some promise ∧
    LitModule.isLoading (SpanGraphModule.base st') = true.
Proof.
  simpl. eexists. split; [done|]. split; [done|].
  rewrite length_app, lookup_insert_eq. simpl. split; [lia|done].
Qed.

(** What [loadLatest] returns decides what is shown: a call that has been
    superseded leaves [predDisplayData] as it is, however its promise
    settles, and the call whose promise is the stored one shows what
    [parseInput] makes of the first result. *)
Lemma updatePredDisplayData_superseded_keeps
    (predSpec : Spec) (promise : LitModule.Promise)
    (outcome : LitModule.Settled (list Input)) (st : SpanGraphModule.State) :
  LitModule.latestLoadPromises (SpanGraphModule.base st) !! "getPreds"
    ≠ Some promise ->
  SpanGraphModule.predDisplayData
    (SpanGraphModule.updatePredDisplayData_resume predSpec promise outcome st).1
  = SpanGraphModule.predDisplayData st.
Proof.
  intros Hne. unfold SpanGraphModule.updatePredDisplayData_resume.
  destruct outcome as [results|reason]; simpl; [|done].
  by rewrite decide_False.
Qed.

Lemma updatePredDisplayData_latest_shows
    (predSpec : Spec) (promise : LitModule.Promise)
    (results : list Input) (annotations : Annotations)
    (st : SpanGraphModule.State) :
  LitModule.latestLoadPromises (SpanGraphModule.base st) !! "getPreds"
    = Some promise ->
  parseInput (results !! 0%nat) predSpec = Return annotations ->
  SpanGraphModule.predDisplayData
    (SpanGraphModule.updatePredDisplayData_resume predSpec promise
       (LitModule.Fulfilled results) st).1
  = annotations.
Proof.
  intros Heq Hparse. unfold SpanGraphModule.updatePredDisplayData_resume.
  simpl. rewrite decide_True by done. by rewrite Hparse.
Qed.

(** ** The store model against the value model *)

(** Induction on a value, with the elements of an array and the
    properties of an object. *)
Section JsVal_induction.
Variable P : JsVal -> Prop.
Hypothesis Hundefined : P JUndefined.
Hypothesis Hnull : P JNull.
Hypothesis Hbool : ∀ b, P (JBool b).
Hypothesis Hnum : ∀ n, P (JNum n).
Hypothesis Hstr : ∀ s, P (JStr s).
Hypothesis Harr : ∀ xs, Forall P xs -> P (JArr xs).
Hypothesis Hobj : ∀ ps, Forall (fun p => P p.2) ps -> P (JObj ps).

Fixpoint JsVal_ind (v : JsVal) : P v :=
  match v with
  | JUndefined => Hundefined
  | JNull => Hnull
  | JBool b => Hbool b
  | JNum n => Hnum n
  | JStr s => Hstr s
  | JArr xs =>
      Harr xs
        ((fix go (xs : list JsVal) : Forall P xs :=
            match xs with
            | [] => Forall_nil_2 P
            | x :: xs' => Forall_cons_2 P x xs' (JsVal_ind x) (go xs')
            end) xs)
  | JObj ps =>
      Hobj ps
        ((fix go (ps : list (string * JsVal)) : Forall (fun p => P p.2) ps :=
            match ps with
            | [] => Forall_nil_2 _
            | p :: ps' => Forall_cons_2 _ p ps' (JsVal_ind p.2) (go ps')
            end) ps)
  end.
End JsVal_induction.

Module StoreFacts.
Import Store Shape.

Lemma stable_refl X h : stable X h h.
Proof. by intros l c. Qed.

Lemma stable_trans X h1 h2 h3 :
  stable X h1 h2 -> stable X h2 h3 -> stable X h1 h3.
Proof. intros H12 H23 l c Hl Hc. eauto. Qed.

Lemma stable_mono X X' h h' : X ⊆ X' -> stable X h h' -> stable X' h h'.
Proof. intros Hsub Hst l c Hl. apply Hst. intros Hin. by apply Hl, Hsub. Qed.

Lemma stable_alloc X h c : stable X h (h ++ [c]).
Proof. intros l c' _ Hl. by apply lookup_app_l_Some. Qed.

Lemma stable_write X h l c : l ∈ X -> stable X h (<[l := c]> h).
Proof.
  intros Hin l' c' Hl' Hc'. rewrite list_lookup_insert_ne; [done|].
  intros ->. done.
Qed.

Lemma allocated_le X h h' :
  (length h ≤ length h')%nat -> allocated X h -> allocated X h'.
Proof. intros Hle Hal x Hx. specialize (Hal x Hx). lia. Qed.

Lemma allocated_cons X h :
  allocated X h -> ∀ c, allocated (length h :: X) (h ++ [c]).
Proof.
  intros Hal c x Hx. rewrite length_app. simpl.
  apply elem_of_cons in Hx as [->|Hx]; [lia|]. specialize (Hal x Hx). lia.
Qed.

(** The one lemma about [rep]: it goes along any change of store and of
    [X] that keeps the cells it reads. *)
Lemma rep_impl X X' h h' :
  (∀ l c, l ∉ X -> h !! l = Some c -> (l ∉ X') ∧ h' !! l = Some c) ->
  ∀ j v, rep X h v j -> rep X' h' v j.
Proof.
  intros Hkeep j. induction j as [| | | | |js IH|ps IH] using JsVal_ind;
    intros v Hrep;
    inversion Hrep as [| | | | |l vs js' Hl Hc Hall|l vps ps' Hl Hc Hall];
    subst; try constructor.
  - destruct (Hkeep l _ Hl Hc) as [Hl' Hc'].
    apply rep_arr with vs; [done..|].
    clear Hl Hc Hrep Hl' Hc'. revert IH. induction Hall as [|v j vs js Hvj _ IHl].
    + constructor.
    + intros IH. apply Forall_cons in IH as [IHj IH].
      constructor; [by apply IHj|by apply IHl].
  - destruct (Hkeep l _ Hl Hc) as [Hl' Hc'].
    apply rep_obj with vps; [done..|].
    clear Hl Hc Hrep Hl' Hc'. revert IH.
    induction Hall as [|vp p vps ps [Hk Hvj] _ IHl].
    + constructor.
    + intros IH. apply Forall_cons in IH as [IHj IH].
      constructor; [split; [done|by apply IHj]|by apply IHl].
Qed.

Lemma rep_stable_avoid X h h' v j :
  stable X h h' -> rep X h v j -> rep X h' v j.
Proof. intros Hst. apply rep_impl. intros l c Hl Hc. split; [done|by apply Hst]. Qed.

Lemma rep_stable X h h' v j : stable [] h h' -> rep X h v j -> rep X h' v j.
Proof.
  intros Hst. apply rep_stable_avoid. intros l c _. apply Hst, not_elem_of_nil.
Qed.

Lemma rep_weaken X X' h v j : X' ⊆ X -> rep X h v j -> rep X' h v j.
Proof.
  intros Hsub. apply rep_impl. intros l c Hl Hc. split; [|done].
  intros Hin. by apply Hl, Hsub.
Qed.

(** A location that is not allocated yet is not read. *)
Lemma rep_avoid X h v j x :
  (length h ≤ x)%nat -> rep X h v j -> rep (x :: X) h v j.
Proof.
  intros Hx. apply rep_impl. intros l c Hl Hc. split; [|done].
  apply lookup_lt_Some in Hc. apply not_elem_of_cons. split; [lia|done].
Qed.

Lemma Forall2_rep_stable X h h' vs js :
  stable [] h h' -> Forall2 (rep X h) vs js -> Forall2 (rep X h') vs js.
Proof.
  intros Hst Hall. eapply Forall2_impl; [exact Hall|].
  intros v j. by apply rep_stable.
Qed.

Lemma refines_ret {A B} X (R : Heap -> A -> B -> Prop) h a b :
  R h a b -> refines X R h (ret a) (Return b).
Proof. intros HR. split; [apply stable_refl|]. split; [done|]. by exists a. Qed.

Lemma refines_throw {A B} X (R : Heap -> A -> B -> Prop) h e :
  refines X R h (throw e) (Throw e).
Proof. split; [apply stable_refl|]. by split. Qed.

Lemma refines_bind {A B A' B'} X (R : Heap -> A -> B -> Prop)
    (R' : Heap -> A' -> B' -> Prop) h m p k kp :
  refines X R h m p ->
  (∀ h' a b, stable X h h' -> (length h ≤ length h')%nat -> R h' a b ->
     refines X R' h' (k a) (kp b)) ->
  refines X R' h (bindM m k) (bind p kp).
Proof.
  unfold refines, bindM. intros (Hst & Hle & Hres) Hk.
  destruct (m h) as [h1 r1]. simpl in *. destruct p as [b|e]; simpl.
  - destruct Hres as (a & -> & HR).
    destruct (Hk h1 a b Hst Hle HR) as (Hst' & Hle' & Hres').
    split; [by eapply stable_trans|]. split; [lia|done].
  - subst r1. simpl. by split.
Qed.

Lemma refines_conseq {A B} X (R R' : Heap -> A -> B -> Prop) h m p :
  (∀ h' a b, stable X h h' -> (length h ≤ length h')%nat ->
     R h' a b -> R' h' a b) ->
  refines X R h m p -> refines X R' h m p.
Proof.
  intros HRR (Hst & Hle & Hres). split; [done|]. split; [done|].
  destruct p as [b|e]; [|done]. destruct Hres as (a & Ha & HR). eauto.
Qed.

Lemma refines_mono {A B} X X' (R : Heap -> A -> B -> Prop) h m p :
  X ⊆ X' -> refines X R h m p -> refines X' R h m p.
Proof.
  intros Hsub (Hst & Hle & Hres). split; [by eapply stable_mono|]. by split.
Qed.

(** *** Reading *)

Lemma Forall2_obj_get {A B} (R : A -> B -> Prop)
    (vps : list (string * A)) (ps : list (string * B)) (k : string) :
  Forall2 (fun vp p => vp.1 = p.1 ∧ R vp.2 p.2) vps ps ->
  match obj_get vps k, obj_get ps k with
  | Some v, Some j => R v j
  | None, None => True
  | _, _ => False
  end.
Proof.
  induction 1 as [|[k1 v] [k2 j] vps ps [Hk HR] _ IH]; simpl; [done|].
  simpl in Hk. subst k2. by destruct (String.eqb k1 k).
Qed.

Lemma Forall2_obj_set {A B} (R : A -> B -> Prop)
    (vps : list (string * A)) (ps : list (string * B)) (k : string) v j :
  Forall2 (fun vp p => vp.1 = p.1 ∧ R vp.2 p.2) vps ps ->
  R v j ->
  Forall2 (fun vp p => vp.1 = p.1 ∧ R vp.2 p.2)
    (obj_set vps k v) (obj_set ps k j).
Proof.
  intros Hall HR.
  induction Hall as [|[k1 v1] [k2 j1] vps ps [Hk HR1] Hall IH]; simpl.
  - by constructor.
  - simpl in Hk. subst k2. destruct (String.eqb k1 k); by constructor.
Qed.

Lemma get_refines X h v j prop :
  rep X h v j -> refines [] (rep X) h (get v prop) (js_get j prop).
Proof.
  intros Hrep.
  inversion Hrep as [| | | | |l vs js Hl Hc Hall|l vps ps Hl Hc Hall]; subst;
    simpl; try (apply refines_throw); try (apply refines_ret).
  - constructor.
  - constructor.
  - destruct (String.eqb prop "length"); constructor.
  - unfold refines, get, bindM, read, ret. simpl. rewrite Hc. simpl.
    split; [apply stable_refl|]. split; [done|]. eexists. split; [done|].
    rewrite (Forall2_length _ _ _ Hall).
    destruct (String.eqb prop "length"); constructor.
  - unfold refines, get, bindM, read, ret. simpl. rewrite Hc. simpl.
    split; [apply stable_refl|]. split; [done|]. eexists. split; [done|].
    pose proof (Forall2_obj_get _ _ _ prop Hall) as Hget.
    destruct (obj_get vps prop), (obj_get ps prop); simpl; try done.
    constructor.
Qed.

Lemma length_is_zero_refines X h v j :
  rep X h v j ->
  refines [] (fun _ a b => a = b) h (OnStore.length_is_zero v) (length_is_zero j).
Proof.
  intros Hrep. unfold OnStore.length_is_zero, length_is_zero.
  eapply refines_bind; [by apply get_refines|].
  intros h' len jlen _ _ Hlen. apply refines_ret.
  inversion Hlen; subst; try done.
Qed.

(** *** Allocating *)

Lemma lookup_alloc (h : Heap) (c : Cell) : (h ++ [c]) !! length h = Some c.
Proof. by rewrite lookup_app_r, Nat.sub_diag. Qed.

Lemma fresh_not_in X (h : Heap) : allocated X h -> length h ∉ X.
Proof. intros Hal Hin. specialize (Hal _ Hin). lia. Qed.

Lemma alloc_arr_refines X h vs js :
  allocated X h -> Forall2 (rep X h) vs js ->
  refines [] (rep X) h (alloc (CArr vs)) (Return (JArr js)).
Proof.
  intros Hal Hall. unfold refines, alloc. simpl.
  split; [apply stable_alloc|]. split; [rewrite length_app; lia|].
  eexists. split; [done|].
  apply rep_arr with vs; [by apply fresh_not_in|apply lookup_alloc|].
  eapply Forall2_rep_stable; [apply stable_alloc|done].
Qed.

Lemma alloc_obj_refines X h vps ps :
  allocated X h ->
  Forall2 (fun vp p => vp.1 = p.1 ∧ rep X h vp.2 p.2) vps ps ->
  refines [] (rep X) h (alloc (CObj vps)) (Return (JObj ps)).
Proof.
  intros Hal Hall. unfold refines, alloc. simpl.
  split; [apply stable_alloc|]. split; [rewrite length_app; lia|].
  eexists. split; [done|].
  apply rep_obj with vps; [by apply fresh_not_in|apply lookup_alloc|].
  eapply Forall2_impl; [exact Hall|]. intros vp p [Hk Hr].
  split; [done|]. eapply rep_stable; [apply stable_alloc|done].
Qed.

Lemma refines_bind_Return {A B A' B'} X (R : Heap -> A -> B -> Prop)
    (R' : Heap -> A' -> B' -> Prop) h m b k (q : Result B') :
  refines X R h m (Return b) ->
  (∀ h' a, stable X h h' -> (length h ≤ length h')%nat -> R h' a b ->
     refines X R' h' (k a) q) ->
  refines X R' h (bindM m k) q.
Proof.
  unfold refines, bindM. intros (Hst & Hle & a & Ha & HR) Hk.
  destruct (m h) as [h1 r1]. simpl in *. subst r1.
  destruct (Hk h1 a Hst Hle HR) as (Hst' & Hle' & Hres').
  split; [by eapply stable_trans|]. split; [lia|done].
Qed.

Lemma bind_read {A} (l : Loc) (k : option Cell -> M A) (h : Heap) :
  bindM (read l) k h = k (h !! l) h.
Proof. reflexivity. Qed.

(** Two computations that do the same from [h] refine the same. *)
Lemma refines_ext {A B} X (R : Heap -> A -> B -> Prop) h (m m' : M A) p :
  m h = m' h -> refines X R h m' p -> refines X R h m p.
Proof. unfold refines. by intros ->. Qed.

(** *** [map], [split] and the two conversions *)

Lemma mapiM_refines X (f : nat -> Val -> M Val)
    (fp : nat -> JsVal -> Result JsVal) (h0 : Heap) :
  (∀ h i x j, (length h0 ≤ length h)%nat -> rep X h x j ->
     refines [] (rep X) h (f i x) (fp i j)) ->
  ∀ xs js h i, (length h0 ≤ length h)%nat -> Forall2 (rep X h) xs js ->
  refines [] (fun h vs js => Forall2 (rep X h) vs js) h
    (mapiM f i xs) (mapiR fp i js).
Proof.
  intros Hf xs. induction xs as [|x xs IH]; intros js h i Hle Hall.
  - apply Forall2_nil_inv_l in Hall as ->. apply refines_ret. constructor.
  - apply Forall2_cons_inv_l in Hall as (j & js' & Hx & Hall & ->). simpl.
    eapply refines_bind; [by apply Hf|].
    intros h1 b jb Hst1 Hle1 Hb.
    eapply refines_bind;
      [apply IH; [lia|by eapply Forall2_rep_stable]|].
    intros h2 bs jbs Hst2 _ Hbs. apply refines_ret.
    constructor; [by eapply rep_stable|done].
Qed.

Lemma js_map_refines X h expr f fp v j :
  allocated X h -> rep X h v j ->
  (∀ h' i x jx, allocated X h' -> rep X h' x jx ->
     refines [] (rep X) h' (f i x) (fp i jx)) ->
  refines [] (rep X) h (OnStore.js_map expr f v) (js_map expr fp j).
Proof.
  intros Hal Hrep Hf.
  inversion Hrep as [| | | | |l vs js Hl Hc Hall|l vps ps Hl Hc Hall]; subst;
    simpl; try apply refines_throw.
  - apply refines_ext with (let* ys := mapiM f 0 vs in alloc (CArr ys)).
    { by rewrite bind_read, Hc. }
    eapply refines_bind.
    + apply mapiM_refines with (h0 := h); [|done..].
      intros h' i x jx Hle Hx. apply Hf; [by eapply allocated_le|done].
    + intros h' ys jys Hst Hle Hys. apply alloc_arr_refines; [|done].
      by eapply allocated_le.
  - apply refines_ext with (throw (not_a_function (expr ++ ".map"))).
    { by rewrite bind_read, Hc. }
    apply refines_throw.
Qed.

Lemma js_split_refines X h expr v j :
  allocated X h -> rep X h v j ->
  refines [] (rep X) h (OnStore.js_split expr v) (js_split expr j).
Proof.
  intros Hal Hrep.
  inversion Hrep; subst; simpl; try apply refines_throw.
  apply alloc_arr_refines; [done|]. repeat constructor.
Qed.

Lemma tagsToEdges_refines X h v j :
  allocated X h -> rep X h v j ->
  refines [] (rep X) h (OnStore.tagsToEdges v) (tagsToEdges j).
Proof.
  intros Hal Hrep. apply js_map_refines; [done..|].
  intros h' i label jlabel Hal' Hlabel.
  eapply refines_bind_Return.
  - apply alloc_arr_refines with (js := [JNum (Z.of_nat i); JNum (Z.of_nat i + 1)]);
      [done|]. repeat constructor.
  - intros h1 span1 Hst Hle Hspan. apply alloc_obj_refines.
    + by eapply allocated_le.
    + repeat constructor; simpl; [done|]. by eapply rep_stable.
Qed.

Lemma spansToEdges_refines X h v j :
  allocated X h -> rep X h v j ->
  refines [] (rep X) h (OnStore.spansToEdges v) (spansToEdges j).
Proof.
  intros Hal Hrep. apply js_map_refines; [done..|].
  intros h0 _ d jd Hal0 Hd.
  eapply refines_bind; [by apply get_refines|].
  intros h1 start jstart Hst1 Hle1 Hstart.
  eapply refines_bind; [apply get_refines; by eapply rep_stable|].
  intros h2 end_ jend Hst2 Hle2 Hend.
  eapply refines_bind_Return.
  - apply alloc_arr_refines with (js := [jstart; jend]).
    + eapply allocated_le; [|done]. lia.
    + repeat constructor; [by eapply rep_stable|done].
  - intros h3 span1 Hst3 Hle3 Hspan.
    eapply refines_bind.
    + apply get_refines. eapply rep_stable; [exact Hst3|].
      eapply rep_stable; [exact Hst2|]. by eapply rep_stable.
    + intros h4 label jlabel Hst4 Hle4 Hlabel. unfold EdgeLabel.
      apply alloc_obj_refines.
      * eapply allocated_le; [|done]. lia.
      * constructor; [split; [done|by eapply rep_stable]|].
        constructor; [by split|constructor].
Qed.

(** *** One layer, and the tokens *)

Lemma annotationLayer_refines X h data d spec tagKey :
  allocated X h -> rep X h data (JObj d) ->
  refines [] (fun h v l => rep X h v (layer_js l)) h
    (OnStore.annotationLayer data spec tagKey)
    (annotationLayer (Some d) spec tagKey).
Proof.
  intros Hal Hdata. unfold OnStore.annotationLayer, annotationLayer.
  change (data_get (Some d) tagKey) with (js_get (JObj d) tagKey).
  eapply refines_bind; [by apply get_refines|].
  intros h1 edges jedges Hst1 Hle1 Hedges.
  eapply refines_bind; [by eapply length_is_zero_refines|].
  intros h2 empty ? Hst2 Hle2 <-.
  assert (Hal2 : allocated X h2) by (eapply allocated_le; [|done]; lia).
  eapply refines_bind_Return
    with (R := rep X) (b := if empty then JArr [] else jedges).
  { destruct empty.
    - apply alloc_arr_refines; [done|constructor].
    - apply refines_ret. by eapply rep_stable. }
  intros h3 edges3 Hst3 Hle3 Hedges3.
  assert (Hal3 : allocated X h3) by (by eapply allocated_le).
  eapply refines_bind with (R := rep X).
  { destruct (isLitSubtype (obj_get spec tagKey) [SequenceTags]);
      [by apply tagsToEdges_refines|].
    destruct (isLitSubtype (obj_get spec tagKey) [SpanLabels]);
      [by apply spansToEdges_refines|].
    by apply refines_ret. }
  intros h4 edges4 jedges4 Hst4 Hle4 Hedges4.
  destruct (alloc_obj_refines X h4
              [("name", VStr tagKey); ("edges", edges4)]
              [("name", JStr tagKey); ("edges", jedges4)])
    as (Hst5 & Hle5 & v & Hv & Hlayer).
  - by eapply allocated_le.
  - constructor; [split; [done|constructor]|].
    constructor; [by split|constructor].
  - split; [done|]. split; [done|]. by exists v.
Qed.

Lemma resolveTokens_refines X h data d spec tokenKey :
  allocated X h -> rep X h data (JObj d) ->
  refines [] (rep X) h
    (OnStore.resolveTokens data spec tokenKey)
    (resolveTokens (Some d) spec tokenKey).
Proof.
  intros Hal Hdata. unfold OnStore.resolveTokens, resolveTokens.
  change (data_get (Some d) tokenKey) with (js_get (JObj d) tokenKey).
  eapply refines_bind; [by apply get_refines|].
  intros h1 toks jtoks Hst1 Hle1 Htoks.
  eapply refines_bind; [by eapply length_is_zero_refines|].
  intros h2 empty ? Hst2 Hle2 <-.
  destruct empty.
  - change (data_get (Some d)
              (property_key (head (findSpecKeys spec [TextSegment]))))
      with (js_get (JObj d)
              (property_key (head (findSpecKeys spec [TextSegment])))).
    eapply refines_bind.
    + apply get_refines. eapply rep_stable; [exact Hst2|].
      by eapply rep_stable.
    + intros h3 text jtext Hst3 Hle3 Htext. apply js_split_refines; [|done].
      eapply allocated_le; [|done]. lia.
  - apply refines_ret. by eapply rep_stable.
Qed.

(** *** Steps of the store alone *)

(** A step that the value model does not make (an accumulator is
    allocated, read or overwritten), followed by the rest.  The rest
    may write to [W]: to what the step may write to, and to cells that
    are not allocated before it. *)
Lemma refines_step {A A' B'} W W' (R : Heap -> A' -> B' -> Prop)
    h h1 (m : M A) (k : A -> M A') a p :
  m h = (h1, Return a) ->
  stable W' h h1 -> (length h ≤ length h1)%nat ->
  (∀ w, w ∈ W -> w ∈ W' ∨ (length h ≤ w)%nat) ->
  refines W R h1 (k a) p ->
  refines W' R h (bindM m k) p.
Proof.
  unfold refines, bindM. intros -> Hst Hle HW (Hst' & Hle' & Hres).
  split; [|split; [lia|done]].
  intros l c Hl Hc. apply Hst'; [|by apply Hst].
  intros Hin. destruct (HW l Hin) as [?|Hge]; [done|].
  apply lookup_lt_Some in Hc. lia.
Qed.

Lemma refines_step_Throw {A A' B'} W (R : Heap -> A' -> B' -> Prop)
    h h1 (m : M A) (k : A -> M A') e :
  m h = (h1, Throw e) ->
  stable W h h1 -> (length h ≤ length h1)%nat ->
  refines W R h (bindM m k) (Throw e).
Proof. unfold refines, bindM. intros -> Hst Hle. by split. Qed.

(** The result of the value model, mapped. *)
Lemma refines_map {A B B'} W (R : Heap -> A -> B -> Prop)
    (R' : Heap -> A -> B' -> Prop) h m p (g : B -> B') :
  (∀ h' a b, R h' a b -> R' h' a (g b)) ->
  refines W R h m p ->
  refines W R' h m (let! b := p in Return (g b)).
Proof.
  intros HRR (Hst & Hle & Hres). split; [done|]. split; [done|].
  destruct p as [b|e]; simpl; [|done].
  destruct Hres as (a & Ha & HR). eauto.
Qed.

Lemma bindM_assoc {A B C} (m : M A) (k : A -> M B) (k' : B -> M C) h :
  bindM (bindM m k) k' h = bindM m (fun a => bindM (k a) k') h.
Proof. unfold bindM. by destruct (m h) as [h1 [a|e]]. Qed.

Lemma push_arr expr l xs x (h : Heap) :
  h !! l = Some (CArr xs) ->
  push expr (VRef l) x h = (<[l := CArr (xs ++ [x])]> h, Return ()).
Proof. intros Hc. unfold push. by rewrite bind_read, Hc. Qed.

Lemma set_prop_obj l ps key x (h : Heap) :
  h !! l = Some (CObj ps) ->
  set_prop (VRef l) key x h = (<[l := CObj (obj_set ps key x)]> h, Return ()).
Proof. intros Hc. unfold set_prop. by rewrite bind_read, Hc. Qed.

Lemma get_obj l ps prop (h : Heap) :
  h !! l = Some (CObj ps) ->
  get (VRef l) prop h = (h, Return (default VUndefined (obj_get ps prop))).
Proof. intros Hc. unfold get. by rewrite bind_read, Hc. Qed.

Lemma lookup_write (h : Heap) l c c' :
  h !! l = Some c -> <[l := c']> h !! l = Some c'.
Proof. intros Hc. apply list_lookup_insert_eq. by eapply lookup_lt_Some. Qed.

(** *** The inner loop of [parseInput] *)

Lemma layers_rel_stable X h h' vs ls :
  stable X h h' -> layers_rel X h vs ls -> layers_rel X h' vs ls.
Proof.
  intros Hst Hall. eapply Forall2_impl; [exact Hall|].
  intros v l. by apply rep_stable_avoid.
Qed.

(** [refines_bind] when the first part writes to less than the whole. *)
Lemma refines_bind_from {A B A' B'} W0 W (R : Heap -> A -> B -> Prop)
    (R' : Heap -> A' -> B' -> Prop) h m p k kp :
  W0 ⊆ W ->
  refines W0 R h m p ->
  (∀ h' a b, stable W0 h h' -> (length h ≤ length h')%nat -> R h' a b ->
     refines W R' h' (k a) (kp b)) ->
  refines W R' h (bindM m k) (bind p kp).
Proof.
  unfold refines, bindM. intros Hsub (Hst & Hle & Hres) Hk.
  destruct (m h) as [h1 r1]. simpl in *. destruct p as [b|e]; simpl.
  - destruct Hres as (a & -> & HR).
    destruct (Hk h1 a b Hst Hle HR) as (Hst' & Hle' & Hres').
    split; [|split; [lia|done]].
    eapply stable_trans; [|done]. by eapply stable_mono.
  - subst r1. simpl. split; [by eapply stable_mono|]. by split.
Qed.

Lemma layers_loop X lL data d spec :
  lL ∈ X ->
  ∀ tagKeys h acc vs,
    allocated X h -> rep X h data (JObj d) ->
    h !! lL = Some (CArr vs) -> layers_rel X h vs acc ->
    refines [lL]
      (fun h' (_ : unit) ls =>
         ∃ vs', h' !! lL = Some (CArr vs') ∧ layers_rel X h' vs' (acc ++ ls))
      h
      (forM (fun tagKey =>
               let* layer := OnStore.annotationLayer data spec (key_of tagKey) in
               push "annotationLayers" (VRef lL) layer)
            (VStr <$> tagKeys))
      (mapR (annotationLayer (Some d) spec) tagKeys).
Proof.
  intros HlL tagKeys.
  induction tagKeys as [|t ts IH]; intros h acc vs Hal Hdata Hcell Hacc.
  - apply refines_ret. exists vs. by rewrite app_nil_r.
  - simpl. eapply refines_ext; [apply bindM_assoc|].
    eapply refines_bind_from;
      [apply list_subseteq_nil|by apply annotationLayer_refines|].
    intros h1 layer l Hst1 Hle1 Hlayer.
    assert (Hcell1 : h1 !! lL = Some (CArr vs)).
    { apply Hst1; [apply not_elem_of_nil|done]. }
    set (h2 := <[lL := CArr (vs ++ [layer])]> h1).
    assert (Hst2 : stable X h1 h2) by (by apply stable_write).
    eapply refines_step with (W := [lL]) (h1 := h2) (a := ()).
    + by apply push_arr.
    + apply stable_write. left.
    + unfold h2. by rewrite length_insert.
    + intros w Hw. by left.
    + eapply refines_map; [|apply (IH h2 (acc ++ [l]) (vs ++ [layer]))].
      * intros h' _ ls (vs' & Hvs' & Hrel). exists vs'. split; [done|].
        by rewrite <- app_assoc in Hrel.
      * unfold h2. eapply allocated_le; [|done]. rewrite length_insert. lia.
      * eapply rep_stable_avoid; [exact Hst2|]. by eapply rep_stable.
      * by eapply lookup_write.
      * apply Forall2_app.
        -- eapply layers_rel_stable; [exact Hst2|].
           eapply layers_rel_stable; [|exact Hacc].
           eapply stable_mono; [|exact Hst1]. apply list_subseteq_nil.
        -- constructor; [|constructor]. by eapply rep_stable_avoid.
Qed.

(** *** [mapTokenToTags] on the store *)

Lemma obj_keys_set_congr {A B} (ps : list (string * A))
    (o : list (string * B)) k v x :
  obj_keys ps = obj_keys o ->
  obj_keys (obj_set ps k v) = obj_keys (obj_set o k x).
Proof.
  unfold obj_keys. revert o.
  induction ps as [|[k1 v1] ps IH]; intros [|[k2 x2] o]; simpl; try done.
  intros [= -> Hks]. destruct (String.eqb k2 k); simpl; [by rewrite Hks|].
  f_equal. by apply IH.
Qed.

Lemma keeps_trans n h1 h2 h3 : keeps n h1 h2 -> keeps n h2 h3 -> keeps n h1 h3.
Proof.
  intros [Hle1 H1] [Hle2 H2]. split; [lia|].
  intros l Hl. by rewrite H2, H1.
Qed.

Lemma seed_loop n lT :
  (n ≤ lT)%nat ->
  ∀ tokenKeys h o, grouping_inv n lT h o ->
    let r := forM (fun tokenKey =>
                     let* tags := alloc (CArr []) in
                     set_prop (VRef lT) tokenKey tags) tokenKeys h in
    r.2 = Return () ∧ keeps n h r.1 ∧
    grouping_inv n lT r.1 (foldl (fun o k => obj_set o k []) o tokenKeys).
Proof.
  intros HlT tokenKeys.
  set (body := fun tokenKey =>
                 let* tags := alloc (CArr []) in
                 set_prop (VRef lT) tokenKey tags).
  induction tokenKeys as [|k ks IH]; intros h o Hinv.
  - simpl. split; [done|]. split; [|done]. by split.
  - destruct Hinv as (ps & HT & Hkeys & Hlook & Hinj).
    assert (HlTh : (lT < length h)%nat) by (by eapply lookup_lt_Some).
    set (a := length h).
    set (h1 := h ++ [CArr []]).
    set (h2 := <[lT := CObj (obj_set ps k (VRef a))]> h1).
    assert (Hbody : body k h = (h2, Return ())).
    { unfold body, bindM, alloc. apply set_prop_obj.
      by apply lookup_app_l_Some. }
    assert (Hstep : forM body (k :: ks) h = forM body ks h2).
    { change (forM body (k :: ks) h)
        with (bindM (body k) (fun _ => forM body ks) h).
      unfold bindM. by rewrite Hbody. }
    assert (Hold : ∀ l c, l ≠ lT -> h !! l = Some c -> h2 !! l = Some c).
    { intros l c Hne Hc. unfold h2. rewrite list_lookup_insert_ne by done.
      by apply lookup_app_l_Some. }
    assert (Hinv2 : grouping_inv n lT h2 (obj_set o k [])).
    { exists (obj_set ps k (VRef a)). split; [|split; [|split]].
      - unfold h2. apply lookup_write with (CObj ps).
        by apply lookup_app_l_Some.
      - by apply obj_keys_set_congr.
      - intros k'. destruct (decide (k = k')) as [<-|Hne].
        + rewrite !obj_get_set_eq. exists a.
          split; [done|]. split; [unfold a; lia|]. split; [unfold a; lia|].
          unfold h2. rewrite list_lookup_insert_ne by (unfold a; lia).
          apply lookup_alloc.
        + rewrite !obj_get_set_ne by done. specialize (Hlook k').
          destruct (obj_get o k') as [tags|]; [|done].
          destruct Hlook as (a' & Ha' & Hne' & Hn & Hc).
          exists a'. split; [done|]. split; [done|]. split; [done|].
          by apply Hold.
      - assert (Hfresh : ∀ k', obj_get ps k' ≠ Some (VRef a)).
        { intros k' Hk'. specialize (Hlook k'). rewrite Hk' in Hlook.
          destruct (obj_get o k') as [tags|]; [|done].
          destruct Hlook as (a' & [= <-] & _ & _ & Hc).
          apply lookup_lt_Some in Hc. unfold a in Hc. lia. }
        intros k1 k2 b.
        destruct (decide (k = k1)) as [<-|Hne1];
          destruct (decide (k = k2)) as [<-|Hne2]; try done;
          rewrite ?obj_get_set_eq, ?obj_get_set_ne by done.
        + intros [= <-] Hk2. by apply Hfresh in Hk2.
        + intros Hk1 [= <-]. by apply Hfresh in Hk1.
        + apply Hinj. }
    destruct (IH h2 _ Hinv2) as (Hr & Hkeep & Hinv3).
    rewrite Hstep. simpl foldl. split; [done|]. split; [|done].
    eapply keeps_trans; [|exact Hkeep]. split.
    + unfold h2, h1. rewrite length_insert, length_app. lia.
    + intros l Hl. unfold h2, h1.
      rewrite list_lookup_insert_ne by lia. apply lookup_app_l. lia.
Qed.

Lemma push_loop n lT spec :
  (n ≤ lT)%nat ->
  ∀ tagKeys h o, grouping_inv n lT h o ->
    let r := forM (fun tagKey =>
                     match obj_get spec tagKey with
                     | None => throw (cannot_read "undefined" "align")
                     | Some t =>
                         let tokenKey := property_key (align t) in
                         let* tags := get (VRef lT) tokenKey in
                         push "tokenToTags[tokenKey]" tags (VStr tagKey)
                     end) tagKeys h in
    keeps n h r.1 ∧
    match foldR (pushTag spec) tagKeys o with
    | Return m => r.2 = Return () ∧ grouping_inv n lT r.1 m
    | Throw e => r.2 = Throw e
    end.
Proof.
  intros HlT tagKeys.
  set (body := fun tagKey =>
                 match obj_get spec tagKey with
                 | None => throw (cannot_read "undefined" "align")
                 | Some t =>
                     let tokenKey := property_key (align t) in
                     let* tags := get (VRef lT) tokenKey in
                     push "tokenToTags[tokenKey]" tags (VStr tagKey)
                 end).
  induction tagKeys as [|t ts IH]; intros h o Hinv.
  - simpl. split; [by split|]. by split.
  - cbv zeta. simpl foldR. unfold pushTag at 1.
    assert (Hthrow : ∀ e, body t h = (h, Throw e) ->
              forM body (t :: ts) h = (h, Throw e)).
    { intros e He.
      change (forM body (t :: ts) h)
        with (bindM (body t) (fun _ => forM body ts) h).
      unfold bindM. by rewrite He. }
    destruct Hinv as (ps & HT & Hkeys & Hlook & Hinj).
    destruct (obj_get spec t) as [ty|] eqn:Hs.
    2: { rewrite (Hthrow (cannot_read "undefined" "align")).
         - simpl. split; [by split|done].
         - unfold body. by rewrite Hs. }
    pose proof (Hlook (property_key (align ty))) as Hk.
    destruct (obj_get o (property_key (align ty))) as [tags|] eqn:Ho.
    + destruct Hk as (a & Ha & HaT & Han & Hc).
      set (h2 := <[a := CArr ((VStr <$> tags) ++ [VStr t])]> h).
      assert (Hbody : body t h = (h2, Return ())).
      { unfold body. rewrite Hs. cbv zeta. unfold bindM.
        rewrite (get_obj lT ps _ h HT), Ha. simpl. by apply push_arr. }
      assert (Hstep : forM body (t :: ts) h = forM body ts h2).
      { change (forM body (t :: ts) h)
          with (bindM (body t) (fun _ => forM body ts) h).
        unfold bindM. by rewrite Hbody. }
      rewrite Hstep. simpl bind.
      assert (Hinv2 : grouping_inv n lT h2
                        (obj_set o (property_key (align ty)) (tags ++ [t]))).
      { exists ps. split; [|split; [|split]].
        - unfold h2. by rewrite list_lookup_insert_ne.
        - rewrite Hkeys. symmetry. apply obj_keys_set_present. by eexists.
        - intros k'. destruct (decide (property_key (align ty) = k')) as [<-|Hne].
          + rewrite obj_get_set_eq. exists a. split; [done|].
            split; [done|]. split; [done|].
            unfold h2. rewrite fmap_app. by eapply lookup_write.
          + rewrite obj_get_set_ne by done. specialize (Hlook k').
            destruct (obj_get o k') as [tags'|]; [|done].
            destruct Hlook as (a' & Ha' & HaT' & Han' & Hc').
            exists a'. split; [done|]. split; [done|]. split; [done|].
            unfold h2. rewrite list_lookup_insert_ne; [done|].
            intros <-. apply Hne. by eapply Hinj.
        - done. }
      destruct (IH h2 _ Hinv2) as (Hkeep & Hres). split; [|done].
      eapply keeps_trans; [|exact Hkeep]. split.
      * unfold h2. by rewrite length_insert.
      * intros l Hl. unfold h2. apply list_lookup_insert_ne. lia.
    + rewrite (Hthrow (cannot_read "undefined" "push")).
      * simpl. split; [by split|done].
      * unfold body. rewrite Hs. cbv zeta. unfold bindM.
        by rewrite (get_obj lT ps _ h HT), Hk.
Qed.

Lemma grouping_rel_stable n h h' T m :
  (∀ l c, (l < n)%nat -> h !! l = Some c -> h' !! l = Some c) ->
  grouping_rel n h T m -> grouping_rel n h' T m.
Proof.
  intros Hst (lT & ps & -> & HlT & HT & Hkeys & Hlook).
  exists lT, ps. split; [done|]. split; [done|]. split; [by apply Hst|].
  split; [done|]. intros k. specialize (Hlook k).
  destruct (obj_get m k) as [tags|]; [|done].
  destruct Hlook as (a & Ha & Han & Hc). exists a.
  split; [done|]. split; [done|]. by apply Hst.
Qed.

Lemma mapTokenToTags_refines spec h :
  refines [] (fun h' T m => grouping_rel (length h') h' T m) h
    (OnStore.mapTokenToTags spec) (mapTokenToTags spec).
Proof.
  unfold mapTokenToTags.
  set (lT := length h). set (h1 := h ++ [CObj []]).
  assert (Hinv1 : grouping_inv (length h) lT h1 []).
  { exists []. split; [apply lookup_alloc|]. split; [done|]. by split. }
  pose proof (seed_loop (length h) lT (Nat.le_refl _)
                (findSpecKeys spec [Tokens]) h1 [] Hinv1) as Hseed.
  cbv zeta in Hseed.
  match type of Hseed with
  | context [forM ?f ?l ?h] => destruct (forM f l h) as [h2 r2] eqn:E2
  end.
  simpl in Hseed. destruct Hseed as (-> & Hkeep2 & Hinv2).
  pose proof (push_loop (length h) lT spec (Nat.le_refl _)
                (findSpecKeys spec supportedPredTypes) h2 _ Hinv2) as Hpush.
  cbv zeta in Hpush.
  match type of Hpush with
  | context [forM ?f ?l ?h] => destruct (forM f l h) as [h3 r3] eqn:E3
  end.
  simpl in Hpush. destruct Hpush as (Hkeep3 & Hres).
  assert (Hrun : OnStore.mapTokenToTags spec h =
                 (h3, match r3 with
                      | Return _ => Return (VRef lT)
                      | Throw e => Throw e
                      end)).
  { unfold OnStore.mapTokenToTags. cbv zeta.
    unfold bindM at 1. unfold alloc at 1. cbv beta iota. fold lT h1.
    unfold bindM at 1. rewrite E2. cbv beta iota.
    unfold bindM at 1. rewrite E3. by destruct r3. }
  assert (Hkeep : keeps (length h) h1 h3) by (by eapply keeps_trans).
  destruct Hkeep as [Hle Hsame].
  assert (Hlen1 : length h1 = S (length h)).
  { unfold h1. rewrite length_app. simpl. lia. }
  assert (Hst : stable [] h h3).
  { intros l c _ Hc. rewrite Hsame by (by eapply lookup_lt_Some).
    by apply lookup_app_l_Some. }
  unfold refines. rewrite Hrun. simpl.
  split; [done|]. split; [lia|].
  destruct (foldR (pushTag spec) (findSpecKeys spec supportedPredTypes) _)
    as [m|e].
  - destruct Hres as [-> Hinv3]. eexists. split; [done|].
    destruct Hinv3 as (ps & HT & Hkeys & Hlook & _).
    exists lT, ps. split; [done|].
    split; [by eapply lookup_lt_Some|]. split; [done|]. split; [done|].
    intros k. specialize (Hlook k). destruct (obj_get m k) as [tags|]; [|done].
    destruct Hlook as (a & Ha & _ & _ & Hc). exists a.
    split; [done|]. split; [by eapply lookup_lt_Some|done].
  - by subst r3.
Qed.

(** *** The outer loop of [parseInput] *)

Lemma graphs_rel_impl X X' h h' vps acc :
  (∀ v j, rep X h v j -> rep X' h' v j) ->
  graphs_rel X h vps acc -> graphs_rel X' h' vps acc.
Proof.
  intros Himpl Hall. eapply Forall2_impl; [exact Hall|].
  intros vp p [Hk Hr]. split; [done|]. by apply Himpl.
Qed.

Lemma elements_arr l xs (h : Heap) :
  h !! l = Some (CArr xs) -> elements (VRef l) h = (h, Return xs).
Proof. intros Hc. unfold elements. by rewrite bind_read, Hc. Qed.

Lemma set_prop_refines {B} W (R : Heap -> unit -> B -> Prop)
    l ps key x (h : Heap) b :
  h !! l = Some (CObj ps) -> l ∈ W ->
  R (<[l := CObj (obj_set ps key x)]> h) () b ->
  refines W R h (set_prop (VRef l) key x) (Return b).
Proof.
  intros Hc Hl HR. unfold refines. rewrite (set_prop_obj l ps key x h Hc).
  simpl. split; [by apply stable_write|].
  split; [by rewrite length_insert|]. by exists ().
Qed.

Lemma tokenGroup_refines n lR T m data d spec tokenKey h acc vps :
  grouping_rel n h T m -> (n ≤ lR)%nat ->
  rep [lR] h data (JObj d) ->
  h !! lR = Some (CObj vps) -> graphs_rel [lR] h vps acc ->
  refines [lR]
    (fun h' (_ : unit) acc' =>
       ∃ vps', h' !! lR = Some (CObj vps') ∧ graphs_rel [lR] h' vps' acc')
    h
    (OnStore.tokenGroup data spec T (VRef lR) tokenKey)
    (tokenGroup (Some d) spec m acc tokenKey).
Proof.
  intros (lT & ps & -> & HlT & HT & Hkeys & Hlook) HnR Hdata HR Hacc.
  assert (HlR : (lR < length h)%nat) by (by eapply lookup_lt_Some).
  unfold OnStore.tokenGroup, tokenGroup.
  set (lL := length h). set (h1 := h ++ [CArr []]).
  set (X := [lL; lR]).
  assert (Hst01 : stable [] h h1) by apply stable_alloc.
  assert (Hal1 : allocated X h1).
  { intros x Hx. unfold h1. rewrite length_app. simpl.
    apply elem_of_cons in Hx as [->|Hx]; [unfold lL; lia|].
    apply list_elem_of_singleton in Hx as ->. lia. }
  assert (Hup : ∀ v j, rep [lR] h v j -> rep X h1 v j).
  { intros v j Hv. eapply rep_stable; [exact Hst01|].
    apply rep_avoid; [unfold lL; lia|done]. }
  eapply refines_step with (W := X) (h1 := h1) (a := VRef lL).
  { reflexivity. }
  { by eapply stable_mono; [apply list_subseteq_nil|]. }
  { unfold h1. rewrite length_app. lia. }
  { intros w Hw. apply elem_of_cons in Hw as [->|Hw]; [right; unfold lL; lia|].
    by left. }
  eapply refines_step with (W := X) (h1 := h1)
    (a := default VUndefined (obj_get ps tokenKey)).
  { apply get_obj. by apply Hst01; [apply not_elem_of_nil|]. }
  { apply stable_refl. }
  { done. }
  { intros w Hw. by left. }
  specialize (Hlook tokenKey).
  destruct (obj_get m tokenKey) as [tagKeys|].
  2: { rewrite Hlook. simpl. eapply refines_step_Throw; [reflexivity| |done].
       apply stable_refl. }
  destruct Hlook as (a & Ha & Han & Hc). rewrite Ha. simpl.
  eapply refines_step with (W := X) (h1 := h1) (a := VStr <$> tagKeys).
  { apply elements_arr. by apply Hst01; [apply not_elem_of_nil|]. }
  { apply stable_refl. }
  { done. }
  { intros w Hw. by left. }
  eapply refines_bind_from with (W0 := [lL]).
  { intros w Hw. apply list_elem_of_singleton in Hw as ->. left. }
  { apply (layers_loop X lL data d spec) with (acc := []) (vs := []).
    - left.
    - done.
    - by apply Hup.
    - apply lookup_alloc.
    - constructor. }
  intros h3 [] ls Hst13 Hle13 (vs' & HL3 & Hls). simpl in Hls.
  assert (Hst13' : stable X h1 h3).
  { eapply stable_mono; [|exact Hst13].
    intros w Hw. apply list_elem_of_singleton in Hw as ->. left. }
  assert (Hal3 : allocated X h3) by (by eapply allocated_le).
  eapply refines_bind_from with (W0 := []).
  { apply list_subseteq_nil. }
  { apply resolveTokens_refines with (X := X); [done|].
    eapply rep_stable_avoid; [exact Hst13'|]. by apply Hup. }
  intros h4 toks jtoks Hst34 Hle34 Htoks.
  assert (Hlen4 : (length h < length h4)%nat).
  { pose proof Hle13 as Hle. unfold h1 in Hle. rewrite length_app in Hle.
    simpl in Hle. lia. }
  set (lG := length h4).
  set (h5 := h4 ++ [CObj [("tokens", toks); ("layers", VRef lL)]]).
  assert (Hst45 : stable [] h4 h5) by apply stable_alloc.
  eapply refines_step with (W := X) (h1 := h5) (a := VRef lG).
  { reflexivity. }
  { by eapply stable_mono; [apply list_subseteq_nil|]. }
  { unfold h5. rewrite length_app. lia. }
  { intros w Hw. by left. }
  assert (HR5 : h5 !! lR = Some (CObj vps)).
  { apply Hst45; [apply not_elem_of_nil|].
    apply Hst34; [apply not_elem_of_nil|].
    apply Hst13.
    - apply not_elem_of_cons. split; [unfold lL; lia|apply not_elem_of_nil].
    - by apply Hst01; [apply not_elem_of_nil|]. }
  set (h6 := <[lR := CObj (obj_set vps tokenKey (VRef lG))]> h5).
  assert (Hst56 : stable X h5 h6).
  { apply stable_write. right. left. }
  assert (Hdown : ∀ v j, rep X h3 v j -> rep [lR] h6 v j).
  { intros v j Hv. apply rep_weaken with X.
    { intros w Hw. apply list_elem_of_singleton in Hw as ->. right. left. }
    eapply rep_stable_avoid; [exact Hst56|].
    eapply rep_stable; [exact Hst45|]. by eapply rep_stable. }
  apply set_prop_refines with (ps := vps); [exact HR5|right; left|].
  fold h6. exists (obj_set vps tokenKey (VRef lG)).
  split; [by eapply lookup_write|].
  apply (Forall2_obj_set (fun v g => rep [lR] h6 v (graph_js g))).
  - eapply graphs_rel_impl; [|exact Hacc].
    intros v j Hv. apply Hdown. eapply rep_stable_avoid; [exact Hst13'|].
    by apply Hup.
  - simpl. unfold graph_js. simpl.
    apply rep_obj with [("tokens", toks); ("layers", VRef lL)].
    + apply not_elem_of_cons. split; [|apply not_elem_of_nil].
      unfold lG. lia.
    + unfold h6. rewrite list_lookup_insert_ne by (unfold lG; lia).
      apply lookup_alloc.
    + constructor.
      { split; [done|]. simpl. apply rep_weaken with X.
        { intros w Hw. apply list_elem_of_singleton in Hw as ->. right. left. }
        eapply rep_stable_avoid; [exact Hst56|].
        by eapply rep_stable. }
      constructor; [|constructor]. split; [done|]. simpl.
      apply rep_arr with vs'.
      * apply not_elem_of_cons. split; [unfold lL; lia|apply not_elem_of_nil].
      * unfold h6. rewrite list_lookup_insert_ne by (unfold lL; lia).
        apply Hst45; [apply not_elem_of_nil|].
        by apply Hst34; [apply not_elem_of_nil|].
      * apply Forall2_fmap_r. eapply Forall2_impl; [exact Hls|].
        intros v l Hv. by apply Hdown.
Qed.

Lemma groups_loop n lR T m data d spec :
  (n ≤ lR)%nat ->
  ∀ keys h acc vps,
    grouping_rel n h T m -> rep [lR] h data (JObj d) ->
    h !! lR = Some (CObj vps) -> graphs_rel [lR] h vps acc ->
    refines [lR]
      (fun h' (_ : unit) acc' =>
         ∃ vps', h' !! lR = Some (CObj vps') ∧ graphs_rel [lR] h' vps' acc')
      h
      (forM (OnStore.tokenGroup data spec T (VRef lR)) keys)
      (foldR (tokenGroup (Some d) spec m) keys acc).
Proof.
  intros HnR keys.
  induction keys as [|k ks IH]; intros h acc vps HT Hdata HR Hacc.
  - apply refines_ret. eauto.
  - simpl. eapply refines_bind; [by eapply tokenGroup_refines|].
    intros h' [] acc' Hst Hle (vps' & HR' & Hacc').
    apply IH with vps'; [|by eapply rep_stable_avoid|done..].
    eapply grouping_rel_stable; [|exact HT].
    intros l c Hl Hc. apply Hst; [|done].
    apply not_elem_of_cons. split; [lia|apply not_elem_of_nil].
Qed.

Lemma object_keys_obj l ps (h : Heap) :
  h !! l = Some (CObj ps) -> object_keys (VRef l) h = (h, Return (obj_keys ps)).
Proof. intros Hc. unfold object_keys. by rewrite bind_read, Hc. Qed.

Lemma refines_then_ret {A A' B} W (R : Heap -> A -> B -> Prop)
    (R' : Heap -> A' -> B -> Prop) h (m : M A) p (v : A') :
  (∀ h' a b, R h' a b -> R' h' v b) ->
  refines W R h m p ->
  refines W R' h (let* _ := m in ret v) p.
Proof.
  unfold refines, bindM. intros HRR (Hst & Hle & Hres).
  destruct (m h) as [h1 r1]. simpl in *. destruct p as [b|e].
  - destruct Hres as (a & -> & HR). simpl. split; [done|]. split; [done|].
    exists v. split; [done|]. by eapply HRR.
  - subst r1. simpl. by split.
Qed.

(** The store model refines the value model: on a record of the shape
    [d], [parseInput] on the store changes no cell that was there and
    ends as [parseInput] on values does, with a result of the shape that
    one returns. *)
Lemma parseInput_refines h data (d : Input) spec :
  rep [] h data (JObj d) ->
  refines [] (fun h' v a => rep [] h' v (annotations_js a)) h
    (OnStore.parseInput data spec) (parseInput (Some d) spec).
Proof.
  intros Hdata. unfold OnStore.parseInput, parseInput.
  eapply refines_bind; [apply mapTokenToTags_refines|].
  intros h1 T m Hst01 Hle01 HT.
  set (lR := length h1). set (h2 := h1 ++ [CObj []]).
  assert (Hst12 : stable [] h1 h2) by apply stable_alloc.
  eapply refines_step with (W := [lR]) (h1 := h2) (a := VRef lR).
  { reflexivity. }
  { done. }
  { unfold h2. rewrite length_app. lia. }
  { intros w Hw. apply list_elem_of_singleton in Hw as ->. by right. }
  assert (HT2 : grouping_rel lR h2 T m).
  { eapply grouping_rel_stable; [|exact HT].
    intros l c _ Hc. by apply Hst12; [apply not_elem_of_nil|]. }
  pose proof HT2 as (lT & ps & -> & HlT & HlTc & Hkeys & _).
  eapply refines_step with (W := [lR]) (h1 := h2) (a := obj_keys ps).
  { by apply object_keys_obj. }
  { apply stable_refl. }
  { done. }
  { intros w Hw. by left. }
  rewrite Hkeys.
  eapply refines_then_ret;
    [|apply (groups_loop lR lR (VRef lT) m data d spec (Nat.le_refl _))
        with (vps := [])].
  - intros h3 [] a (vps' & HR3 & Hacc).
    apply rep_obj with vps'; [apply not_elem_of_nil|done|].
    apply Forall2_fmap_r. eapply Forall2_impl; [exact Hacc|].
    intros vp p [Hk Hr]. split; [done|]. simpl.
    eapply rep_weaken; [|exact Hr]. apply list_subseteq_nil.
  - done.
  - eapply rep_stable; [exact Hst12|].
    apply rep_avoid; [unfold lR; lia|]. by eapply rep_stable.
  - apply lookup_alloc.
  - constructor.
Qed.

(** C8.  [parseInput] has no side effect and its result depends on the
    shape of its inputs only.  Take a record of the shape [record]
    anywhere in a store.  Running [parseInput] on it changes no cell
    that was in the store before the call, the record's or any other:
    what the call writes to are cells it has allocated itself; so the
    record still has its shape afterwards.  And two runs on records of
    the same shape, in whatever stores and at whatever locations (the
    second may be the first one's record again, in the store the first
    run left), end alike: both throw the same exception, or both return
    a result of one and the same shape. *)
Theorem parseInput_deterministic_no_side_effect
    (spec : Spec) (record : Input) (h1 h2 : Heap) (data1 data2 : Val) :
  rep [] h1 data1 (JObj record) ->
  rep [] h2 data2 (JObj record) ->
  let run1 := OnStore.parseInput data1 spec h1 in
  let run2 := OnStore.parseInput data2 spec h2 in
  (stable [] h1 run1.1 ∧ rep [] run1.1 data1 (JObj record)) ∧
  (stable [] h2 run2.1 ∧ rep [] run2.1 data2 (JObj record)) ∧
  match parseInput (Some record) spec with
  | Return annotations =>
      ∃ v1 v2, run1.2 = Return v1 ∧ run2.2 = Return v2 ∧
               rep [] run1.1 v1 (annotations_js annotations) ∧
               rep [] run2.1 v2 (annotations_js annotations)
  | Throw e => run1.2 = Throw e ∧ run2.2 = Throw e
  end.
Proof.
  intros Hdata1 Hdata2 run1 run2.
  destruct (parseInput_refines h1 data1 record spec Hdata1) as (Hst1 & _ & Hres1).
  destruct (parseInput_refines h2 data2 record spec Hdata2) as (Hst2 & _ & Hres2).
  fold run1 in Hst1, Hres1. fold run2 in Hst2, Hres2.
  split; [split; [done|by eapply rep_stable]|].
  split; [split; [done|by eapply rep_stable]|].
  destruct (parseInput (Some record) spec) as [annotations|e]; [|by split].
  destruct Hres1 as (v1 & Hv1 & Hrep1). destruct Hres2 as (v2 & Hv2 & Hrep2).
  by exists v1, v2.
Qed.

Ltac solve_rep :=
  repeat first
    [ apply rep_undefined | apply rep_null | apply rep_bool | apply rep_num
    | apply rep_str
    | eapply rep_arr; [apply not_elem_of_nil|reflexivity|]
    | eapply rep_obj; [apply not_elem_of_nil|reflexivity|]
    | apply Forall2_nil_2
    | apply Forall2_cons_2
    | split; [reflexivity|] ].

Lemma parseInput_deterministic_no_side_effect_witness :
  let run1 := OnStore.parseInput (VRef 3%nat) spec_tagged store_edited in
  let run2 := OnStore.parseInput (VRef 0%nat) spec_tagged store_edited_shared in
  (stable [] store_edited run1.1 ∧
   rep [] run1.1 (VRef 3%nat) (JObj record_edited)) ∧
  (stable [] store_edited_shared run2.1 ∧
   rep [] run2.1 (VRef 0%nat) (JObj record_edited)) ∧
  match parseInput (Some record_edited) spec_tagged with
  | Return annotations =>
      ∃ v1 v2, run1.2 = Return v1 ∧ run2.2 = Return v2 ∧
               rep [] run1.1 v1 (annotations_js annotations) ∧
               rep [] run2.1 v2 (annotations_js annotations)
  | Throw e => run1.2 = Throw e ∧ run2.2 = Throw e
  end.
Proof.
  apply (parseInput_deterministic_no_side_effect spec_tagged record_edited
           store_edited store_edited_shared (VRef 3%nat) (VRef 0%nat)).
  - unfold record_edited, store_edited. solve_rep.
  - unfold record_edited, store_edited_shared. solve_rep.
Defined.

End StoreFacts.
(** * Further properties of the code *)

(** ** Loops *)

Lemma mapiR_ext {A B} (f g : nat -> A -> Result B) (i : nat) (l : list A) :
  (∀ j a, a ∈ l -> f j a = g j a) -> mapiR f i l = mapiR g i l.
Proof.
  revert i. induction l as [|a l IH]; intros i Hfg; [done|].
  simpl. rewrite Hfg by left. destruct (g i a); [|done]. simpl.
  rewrite IH; [done|]. intros j a' Ha'. apply Hfg. by right.
Qed.

Lemma mapiR_map_Return {A B} (f : nat -> A -> Result B) (g : A -> B)
    (i : nat) (l : list A) :
  (∀ j a, a ∈ l -> f j a = Return (g a)) ->
  mapiR f i l = Return (g <$> l).
Proof.
  revert i. induction l as [|a l IH]; intros i Hfg; [done|].
  simpl. rewrite Hfg by left. simpl.
  rewrite IH; [done|]. intros j a' Ha'. apply Hfg. by right.
Qed.

Lemma mapiR_Throw {A B} (f : nat -> A -> Result B) (i : nat) (l : list A)
    (P : JsError -> Prop) :
  Exists (fun a => ∀ j, ∃ e, f j a = Throw e ∧ P e) l ->
  (∀ j a e, f j a = Throw e -> P e) ->
  ∃ e, mapiR f i l = Throw e ∧ P e.
Proof.
  intros Hex Hall. revert i. induction Hex as [a l Ha|a l _ IH]; intros i.
  - destruct (Ha i) as (e & He & HP). exists e. simpl. by rewrite He.
  - simpl. destruct (f i a) as [b|e] eqn:Hfa.
    + destruct (IH (S i)) as (e & He & HP). exists e. simpl. by rewrite He.
    + exists e. split; [done|]. by eapply Hall.
Qed.


Lemma mapR_is_Return {A B} (f : A -> Result B) (l : list A) :
  (∀ a, a ∈ l -> is_Return (f a)) -> is_Return (mapR f l).
Proof.
  induction l as [|a l IH]; intros Hf; [done|].
  simpl. specialize (Hf a (list_elem_of_here _ _)) as Ha.
  destruct (f a); [|done]. simpl.
  assert (is_Return (mapR f l)) as Hl.
  { apply IH. intros a' Ha'. apply Hf. by right. }
  by destruct (mapR f l).
Qed.

Lemma mapR_names {A B} (f : A -> Result B) (g : B -> A) (l : list A)
    (bs : list B) :
  mapR f l = Return bs -> (∀ a b, f a = Return b -> g b = a) -> g <$> bs = l.
Proof.
  intros Hmap Hg. apply mapR_Return_inv in Hmap.
  induction Hmap as [|a b l bs Hab _ IH]; [done|].
  rewrite fmap_cons. by rewrite (Hg _ _ Hab), IH.
Qed.


Lemma foldR_is_Return {A S} (f : S -> A -> Result S) (l : list A) (s : S) :
  (∀ a s', a ∈ l -> is_Return (f s' a)) -> is_Return (foldR f l s).
Proof.
  revert s. induction l as [|a l IH]; intros s Hf; [done|].
  simpl. specialize (Hf a s (list_elem_of_here _ _)) as Ha.
  destruct (f s a) as [s'|]; [|done]. simpl.
  apply IH. intros a' s'' Ha'. apply Hf. by right.
Qed.

(** ** [spansToEdges] *)

Lemma nullish_dec (v : JsVal) : nullish v ∨ ¬ nullish v.
Proof.
  unfold nullish.
  destruct v; try (right; intros [?|?]; discriminate); left; auto.
Qed.

Lemma js_get_Return (v : JsVal) (prop : string) :
  ¬ nullish v -> is_Return (js_get v prop).
Proof. unfold nullish. destruct v; simpl; tauto. Qed.

Lemma js_get_nullish (v : JsVal) (prop : string) :
  nullish v ->
  js_get v prop = Throw (cannot_read "undefined" prop) ∨
  js_get v prop = Throw (cannot_read "null" prop).
Proof. intros [->| ->]; simpl; auto. Qed.

Lemma js_get_prop_or_undefined (v : JsVal) (prop : string) :
  ¬ nullish v -> js_get v prop = Return (prop_or_undefined v prop).
Proof.
  intros Hv. unfold prop_or_undefined.
  pose proof (js_get_Return v prop Hv) as Hr. by destruct (js_get v prop).
Qed.

(** X1.  [spansToEdges] renames and nothing else: for an array of spans
    that are all there (none is [undefined] or [null]) it returns an
    array of the same length whose i-th edge is
    [{span1: [start, end], label}] of the i-th span, whatever the three
    properties hold; any other property of a span is dropped. *)
Theorem spansToEdges_renames (spans : list JsVal) :
  Forall (fun d => ¬ nullish d) spans ->
  ∃ es : list JsVal,
    spansToEdges (JArr spans) = Return (JArr es) ∧
    length es = length spans ∧
    (∀ (i : nat) (d : JsVal), spans !! i = Some d ->
       es !! i = Some (EdgeLabel (prop_or_undefined d "start")
                                 (prop_or_undefined d "end")
                                 (prop_or_undefined d "label"))) ∧
    (∀ (i : nat) (start end_ label : JsVal) (more : list (string * JsVal)),
       spans !! i = Some (JObj (("start", start) :: ("end", end_)
                                :: ("label", label) :: more)) ->
       es !! i = Some (EdgeLabel start end_ label)).
Proof.
  intros Hall.
  set (g := fun d => EdgeLabel (prop_or_undefined d "start")
                       (prop_or_undefined d "end")
                       (prop_or_undefined d "label")).
  exists (g <$> spans).
  assert (spansToEdges (JArr spans) = Return (JArr (g <$> spans))) as Hrun.
  { unfold spansToEdges, js_map.
    rewrite (mapiR_map_Return _ g); [done|].
    intros _ d Hd. rewrite Forall_forall in Hall. specialize (Hall d Hd).
    by rewrite !js_get_prop_or_undefined. }
  split; [done|]. split; [by rewrite length_fmap|].
  split.
  - intros i d Hi. by rewrite list_lookup_fmap, Hi.
  - intros i start end_ label more Hi. by rewrite list_lookup_fmap, Hi.
Qed.

Lemma spansToEdges_renames_witness :
  ∃ es : list JsVal,
    spansToEdges (JArr [SpanLabel (JNum 1) (JNum 2) (JStr "THING");
                        JObj [("label", JStr "PLACE")]; JStr "x"])
      = Return (JArr es) ∧
    es = [EdgeLabel (JNum 1) (JNum 2) (JStr "THING");
          EdgeLabel JUndefined JUndefined (JStr "PLACE");
          EdgeLabel JUndefined JUndefined JUndefined].
Proof.
  destruct (spansToEdges_renames
              [SpanLabel (JNum 1) (JNum 2) (JStr "THING");
               JObj [("label", JStr "PLACE")]; JStr "x"])
    as (es & Hrun & Hlen & Hes & _).
  { repeat constructor; unfold nullish; intros [?|?]; discriminate. }
  exists es. split; [exact Hrun|].
  destruct es as [|e0 [|e1 [|e2 [|]]]]; try discriminate Hlen.
  pose proof (Hes 0%nat _ eq_refl) as H0.
  pose proof (Hes 1%nat _ eq_refl) as H1.
  pose proof (Hes 2%nat _ eq_refl) as H2.
  cbv in H0, H1, H2 |- *. congruence.
Defined.

(** X2.  A span that is not there makes [spansToEdges] throw: when some
    element of the array is [undefined] or [null], no edge list is
    returned, and the exception is the [TypeError] of reading [start]
    of that value. *)
Theorem spansToEdges_missing_span_throws (spans : list JsVal) :
  Exists nullish spans ->
  spansToEdges (JArr spans) = Throw (cannot_read "undefined" "start") ∨
  spansToEdges (JArr spans) = Throw (cannot_read "null" "start").
Proof.
  intros Hex. unfold spansToEdges, js_map.
  set (f := fun (_ : nat) d =>
              let! start := js_get d "start" in
              let! end_ := js_get d "end" in
              let! label := js_get d "label" in
              Return (EdgeLabel start end_ label)).
  destruct (mapiR_Throw f 0 spans
              (fun e => e = cannot_read "undefined" "start" ∨
                        e = cannot_read "null" "start")) as (e & He & HP).
  - eapply Exists_impl; [exact Hex|]. intros d Hd j. unfold f.
    destruct (js_get_nullish d "start" Hd) as [-> | ->]; eauto.
  - intros j d e. unfold f.
    destruct (nullish_dec d) as [Hd|Hd].
    + destruct (js_get_nullish d "start" Hd) as [-> | ->]; simpl;
        intros [= <-]; auto.
    + rewrite !js_get_prop_or_undefined by done. discriminate.
  - rewrite He. simpl. destruct HP as [-> | ->]; auto.
Qed.

Lemma spansToEdges_missing_span_throws_witness :
  spansToEdges (JArr [SpanLabel (JNum 0) (JNum 1) (JStr "A"); JNull])
    = Throw (cannot_read "undefined" "start") ∨
  spansToEdges (JArr [SpanLabel (JNum 0) (JNum 1) (JStr "A"); JNull])
    = Throw (cannot_read "null" "start").
Proof.
  apply (spansToEdges_missing_span_throws
           [SpanLabel (JNum 0) (JNum 1) (JStr "A"); JNull]).
  apply Exists_cons_tl, Exists_cons_hd. right. reflexivity.
Defined.

(** ** [mapTokenToTags] *)

Lemma obj_keys_set_absent {A} (o : list (string * A)) (k : string) (v : A) :
  k ∉ obj_keys o -> obj_keys (obj_set o k v) = obj_keys o ++ [k].
Proof.
  unfold obj_keys. induction o as [|[k1 v1] o IH]; simpl; intros Hk; [done|].
  apply not_elem_of_cons in Hk as [Hne Hk].
  destruct (String.eqb_spec k1 k) as [->|_]; [done|].
  simpl. f_equal. by apply IH.
Qed.

Lemma obj_keys_is_Some {A} (o : list (string * A)) (k : string) :
  k ∈ obj_keys o <-> is_Some (obj_get o k).
Proof.
  split; [apply obj_get_keys_is_Some|]. intros [v Hv].
  by eapply obj_get_Some_keys.
Qed.

Lemma seed_keys (tokenKeys : list string) (o : FieldNameMultimap) :
  NoDup tokenKeys -> (∀ k, k ∈ tokenKeys -> k ∉ obj_keys o) ->
  obj_keys (foldl (fun o tokenKey => obj_set o tokenKey []) o tokenKeys)
  = obj_keys o ++ tokenKeys.
Proof.
  revert o. induction tokenKeys as [|k l IH]; intros o Hnd Hfresh; simpl.
  - by rewrite app_nil_r.
  - apply NoDup_cons in Hnd as [Hk Hnd].
    rewrite IH; [|done|].
    + rewrite obj_keys_set_absent by (apply Hfresh; left).
      by rewrite <- app_assoc.
    + intros k' Hk'. rewrite obj_keys_set_elem. intros [->|Hin]; [done|].
      revert Hin. apply Hfresh. by right.
Qed.

Lemma foldR_pushTag_keys (spec : Spec) (tagKeys : list string)
    (o m : FieldNameMultimap) :
  foldR (pushTag spec) tagKeys o = Return m -> obj_keys m = obj_keys o.
Proof.
  revert o. induction tagKeys as [|tagKey l IH]; intros o; simpl.
  - by intros [= ->].
  - destruct (pushTag spec o tagKey) as [o'|] eqn:Hpush; [|done]. simpl.
    intros Hm. rewrite (IH _ Hm). unfold pushTag in Hpush.
    destruct (obj_get spec tagKey) as [t|]; [|done].
    destruct (obj_get o (property_key (align t))) as [tags|] eqn:Hget; [|done].
    injection Hpush as <-. apply obj_keys_set_present. by eexists.
Qed.

Lemma foldR_pushTag_is_Return (spec : Spec) (tokenKeys tagKeys : list string)
    (o : FieldNameMultimap) :
  (∀ k, is_Some (obj_get o k) <-> k ∈ tokenKeys) ->
  Forall (fun tagKey => ∃ t, obj_get spec tagKey = Some t ∧
                             property_key (align t) ∈ tokenKeys) tagKeys ->
  is_Return (foldR (pushTag spec) tagKeys o).
Proof.
  intros Ho Hall. revert o Ho.
  induction Hall as [|tagKey l (t & Ht & Hin) _ IH]; intros o Ho; [done|].
  simpl. unfold pushTag at 1. rewrite Ht.
  destruct (proj2 (Ho _) Hin) as [tags Htags]. rewrite Htags. simpl.
  apply IH. intros k.
  destruct (decide (property_key (align t) = k)) as [<-|Hne].
  - rewrite obj_get_set_eq. split; [done|by eexists].
  - rewrite obj_get_set_ne by done. apply Ho.
Qed.

Lemma seed_is_Some (tokenKeys : list string) (k : string) :
  is_Some (obj_get (foldl (fun (o : FieldNameMultimap) tokenKey =>
                             obj_set o tokenKey []) [] tokenKeys) k)
  <-> k ∈ tokenKeys.
Proof.
  rewrite seed_get. destruct (decide (k ∈ tokenKeys)) as [Hin|Hnin]; simpl.
  - split; [done|by eexists].
  - split; [by intros [? ?]|done].
Qed.

Lemma mapTokenToTags_is_Return (spec : Spec) :
  is_Return (mapTokenToTags spec) <-> all_aligned spec.
Proof.
  split.
  - intros Hret tagKey t Htag Ht.
    destruct (decide (property_key (align t) ∈ findSpecKeys spec [Tokens]))
      as [Hin|Hnin]; [done|].
    by rewrite (mapTokenToTags_Throw spec tagKey t Htag Ht Hnin) in Hret.
  - intros Hal. unfold mapTokenToTags.
    apply (foldR_pushTag_is_Return spec (findSpecKeys spec [Tokens]));
      [apply seed_is_Some|].
    apply Forall_forall. intros tagKey Htag.
    destruct (proj1 (elem_of_findSpecKeys _ _ _) Htag) as (t & Ht & _).
    exists t. split; [done|]. by eapply Hal.
Qed.

Lemma findSpecKeys_NoDup (spec : Spec) (types : list LitName) :
  NoDup (obj_keys spec) -> NoDup (findSpecKeys spec types).
Proof.
  unfold findSpecKeys. generalize (obj_keys spec). intros l Hnd.
  induction Hnd as [|k l Hk _ IH]; simpl; [constructor|].
  destruct (isLitSubtype (obj_get spec k) types); [|done].
  constructor; [|done].
  rewrite list_elem_of_In, List.filter_In, <- list_elem_of_In. tauto.
Qed.

Lemma mapTokenToTags_keys (spec : Spec) (m : FieldNameMultimap) :
  mapTokenToTags spec = Return m ->
  (∀ k, k ∈ obj_keys m <-> k ∈ findSpecKeys spec [Tokens]) ∧
  (NoDup (obj_keys spec) -> obj_keys m = findSpecKeys spec [Tokens]).
Proof.
  intros Hm. split.
  - intros k. rewrite obj_keys_is_Some, (mapTokenToTags_Return _ _ Hm).
    destruct (decide (k ∈ findSpecKeys spec [Tokens])).
    + split; [done|by eexists].
    + split; [by intros [? ?]|done].
  - intros Hnd. unfold mapTokenToTags in Hm.
    rewrite (foldR_pushTag_keys _ _ _ _ Hm), seed_keys; [done| |].
    + by apply findSpecKeys_NoDup.
    + intros k _ Hk. by apply elem_of_nil in Hk.
Qed.

Lemma elem_of_aligned_iff (spec : Spec) (tokenKey tagKey : string)
    (t : LitType) :
  obj_get spec tagKey = Some t ->
  tagKey ∈ List.filter (alignedTo spec tokenKey)
             (findSpecKeys spec supportedPredTypes)
  <-> tagKey ∈ findSpecKeys spec supportedPredTypes
      ∧ property_key (align t) = tokenKey.
Proof.
  intros Ht. rewrite list_elem_of_In, List.filter_In, <- list_elem_of_In.
  unfold alignedTo. rewrite Ht.
  by destruct (String.eqb_spec (property_key (align t)) tokenKey); intuition.
Qed.

(** X3.  For a spec with ordinary names, [mapTokenToTags] returns a
    grouping exactly when all
    of its tag fields are aligned to a token field.  The grouping then
    has the token fields as its keys (in spec order, the keys of a spec
    being distinct), holds under each of them the tag fields aligned to
    it, in spec order, and so lists every tag field under the token
    field it is aligned to and under no other. *)
Theorem mapTokenToTags_groups (spec : Spec) :
  ordinary_spec spec ->
  (is_Return (mapTokenToTags spec) <-> all_aligned spec) ∧
  ∀ m, mapTokenToTags spec = Return m ->
    (∀ tokenKey, tokenKey ∈ obj_keys m <-> tokenKey ∈ findSpecKeys spec [Tokens]) ∧
    (NoDup (obj_keys spec) -> obj_keys m = findSpecKeys spec [Tokens]) ∧
    (∀ tokenKey tags, obj_get m tokenKey = Some tags ->
       tags = List.filter (alignedTo spec tokenKey)
                (findSpecKeys spec supportedPredTypes)) ∧
    (∀ tagKey t tokenKey tags,
       tagKey ∈ findSpecKeys spec supportedPredTypes ->
       obj_get spec tagKey = Some t ->
       obj_get m tokenKey = Some tags ->
       (tagKey ∈ tags <-> property_key (align t) = tokenKey)).
Proof.
  intros _.
  split; [apply mapTokenToTags_is_Return|]. intros m Hm.
  destruct (mapTokenToTags_keys _ _ Hm) as [Hkeys Horder].
  assert (∀ tokenKey tags, obj_get m tokenKey = Some tags ->
            tags = List.filter (alignedTo spec tokenKey)
                     (findSpecKeys spec supportedPredTypes)) as Htags.
  { intros tokenKey tags. rewrite (mapTokenToTags_Return _ _ Hm).
    destruct (decide _); [|done]. by intros [= <-]. }
  split; [exact Hkeys|]. split; [exact Horder|]. split; [exact Htags|].
  intros tagKey t tokenKey tags Htag Ht Hget.
  rewrite (Htags _ _ Hget), (elem_of_aligned_iff _ _ _ _ Ht). tauto.
Qed.

Lemma mapTokenToTags_groups_witness :
  ∃ m, mapTokenToTags spec_two_groups = Return m ∧
    obj_keys m = ["tokens"; "pieces"] ∧
    (∀ tokenKey tags, obj_get m tokenKey = Some tags ->
       tags = List.filter (alignedTo spec_two_groups tokenKey)
                (findSpecKeys spec_two_groups supportedPredTypes)).
Proof.
  eexists. split; [vm_compute; reflexivity|].
  destruct (mapTokenToTags_groups spec_two_groups) as [_ Hgroups];
    [by_computation|].
  destruct (Hgroups _ eq_refl) as (_ & Hkeys & Htags & _).
  split; [|exact Htags]. vm_compute. reflexivity.
Defined.

(** ** [parseInput]: what the result holds *)

Lemma annotationLayer_name (data : option Input) (spec : Spec)
    (tagKey : string) (l : AnnotationLayer) :
  annotationLayer data spec tagKey = Return l -> name l = tagKey.
Proof.
  unfold annotationLayer.
  destruct (data_get data tagKey) as [v|]; [|done]. simpl.
  destruct (length_is_zero v) as [b|]; [|done]. simpl.
  match goal with |- bind ?m _ = _ -> _ => destruct m end; [|done].
  simpl. by intros [= <-].
Qed.

Lemma foldR_tokenGroup_keys (data : option Input) (spec : Spec)
    (m : FieldNameMultimap) (l : list string) (acc ret : Annotations) :
  foldR (tokenGroup data spec m) l acc = Return ret ->
  NoDup l -> (∀ k, k ∈ l -> k ∉ obj_keys acc) ->
  obj_keys ret = obj_keys acc ++ l.
Proof.
  revert acc. induction l as [|k l IH]; intros acc; simpl.
  - intros [= ->] _ _. by rewrite app_nil_r.
  - destruct (tokenGroup data spec m acc k) as [acc'|] eqn:Hstep; [|done].
    simpl. intros Hret Hnd Hfresh. apply NoDup_cons in Hnd as [Hk Hnd].
    unfold tokenGroup in Hstep.
    destruct (obj_get m k) as [tagKeys|]; [|done].
    destruct (mapR (annotationLayer data spec) tagKeys) as [ls|]; [|done].
    destruct (resolveTokens data spec k) as [toks|]; [|done].
    simpl in Hstep. injection Hstep as <-.
    rewrite (IH _ Hret Hnd).
    + rewrite obj_keys_set_absent by (apply Hfresh; left).
      by rewrite <- app_assoc.
    + intros k' Hk'. rewrite obj_keys_set_elem. intros [->|Hin]; [done|].
      revert Hin. apply Hfresh. by right.
Qed.

Lemma parseInput_Return_layer (data : option Input) (spec : Spec)
    (ret : Annotations) (tagKey : string) (t : LitType) :
  parseInput data spec = Return ret ->
  tagKey ∈ findSpecKeys spec supportedPredTypes ->
  obj_get spec tagKey = Some t ->
  ∃ g l, obj_get ret (property_key (align t)) = Some g ∧ l ∈ layers g ∧
         annotationLayer data spec tagKey = Return l.
Proof.
  intros Hret Htag Ht.
  pose proof (parseInput_Return_aligned _ _ _ _ _ Hret Htag Ht) as Hal.
  pose proof (parseInput_Return _ _ _ Hret (property_key (align t))) as Hk.
  destruct (obj_get ret (property_key (align t))) as [g|]; [|done].
  destruct Hk as (_ & _ & Hlayers).
  destruct (proj2 (mapR_lookup _ _ _ Hlayers) tagKey) as (l & Hl & Hrun).
  { by apply elem_of_aligned. }
  by exists g, l.
Qed.

(** X4.  The shape of what [parseInput] returns for a spec with
    ordinary names, whatever the record:
    one group per token field of the spec and no other (in spec order,
    the keys of a spec being distinct), and in the group of a token
    field one layer per tag field aligned to it, named after the tag
    field, in spec order. *)
Theorem parseInput_groups_and_layers
    (data : option Input) (spec : Spec) (ret : Annotations) :
  ordinary_spec spec ->
  parseInput data spec = Return ret ->
  (∀ tokenKey, tokenKey ∈ obj_keys ret <-> tokenKey ∈ findSpecKeys spec [Tokens]) ∧
  (NoDup (obj_keys spec) -> obj_keys ret = findSpecKeys spec [Tokens]) ∧
  (∀ tokenKey g, obj_get ret tokenKey = Some g ->
     name <$> layers g
     = List.filter (alignedTo spec tokenKey)
         (findSpecKeys spec supportedPredTypes)).
Proof.
  intros _ Hret. pose proof (parseInput_Return _ _ _ Hret) as Hshape.
  split; [|split].
  - intros k. rewrite obj_keys_is_Some. specialize (Hshape k).
    destruct (obj_get ret k) as [g|].
    + split; [tauto|by eexists].
    + split; [by intros [? ?]|done].
  - intros Hnd. unfold parseInput in Hret.
    destruct (mapTokenToTags spec) as [m|] eqn:Hm; [|done]. simpl in Hret.
    rewrite (foldR_tokenGroup_keys _ _ _ _ _ _ Hret).
    + by apply mapTokenToTags_keys.
    + rewrite (proj2 (mapTokenToTags_keys _ _ Hm) Hnd).
      by apply findSpecKeys_NoDup.
    + intros k _ Hk. by apply elem_of_nil in Hk.
  - intros k g Hg. specialize (Hshape k). rewrite Hg in Hshape.
    destruct Hshape as (_ & _ & Hlayers).
    eapply mapR_names; [exact Hlayers|]. apply annotationLayer_name.
Qed.

Lemma parseInput_groups_and_layers_witness :
  ∃ ret, parseInput (Some record_two_groups) spec_two_groups = Return ret ∧
    obj_keys ret = ["tokens"; "pieces"] ∧
    (∀ tokenKey g, obj_get ret tokenKey = Some g ->
       name <$> layers g
       = List.filter (alignedTo spec_two_groups tokenKey)
           (findSpecKeys spec_two_groups supportedPredTypes)).
Proof.
  eexists. split; [vm_compute; reflexivity|].
  destruct (parseInput_groups_and_layers (Some record_two_groups)
              spec_two_groups _ ltac:(by_computation) eq_refl)
    as (_ & Hkeys & Hlayers).
  split; [|exact Hlayers]. vm_compute. reflexivity.
Defined.

(** X5.  What a layer holds for a tag field whose value is not empty,
    the spec being one with ordinary names:
    the conversion of the value for sequence tags ([tagsToEdges]) and
    for span labels ([spansToEdges]), and the value itself, unchanged,
    for edge labels.  The layer is in the group of the token field the
    tag field is aligned to. *)
Theorem parseInput_layer_edges
    (data : Input) (spec : Spec) (ret : Annotations)
    (tagKey : string) (t : LitType) :
  ordinary_spec spec ->
  parseInput (Some data) spec = Return ret ->
  tagKey ∈ findSpecKeys spec supportedPredTypes ->
  obj_get spec tagKey = Some t ->
  length_is_zero (field data tagKey) = Return false ->
  ∃ g l, obj_get ret (property_key (align t)) = Some g ∧ l ∈ layers g ∧
    name l = tagKey ∧
    match kind t with
    | SequenceTags => tagsToEdges (field data tagKey) = Return (edges l)
    | SpanLabels => spansToEdges (field data tagKey) = Return (edges l)
    | _ => edges l = field data tagKey
    end.
Proof.
  intros _ Hret Htag Ht Hlen.
  destruct (parseInput_Return_layer _ _ _ _ _ Hret Htag Ht)
    as (g & l & Hg & Hl & Hrun).
  exists g, l. split; [done|]. split; [done|].
  split; [by eapply annotationLayer_name|].
  unfold annotationLayer, data_get in Hrun. simpl in Hrun.
  fold (field data tagKey) in Hrun. rewrite Hlen in Hrun. simpl in Hrun.
  rewrite Ht in Hrun. unfold isLitSubtype in Hrun.
  destruct (kind t) eqn:Hkind;
    repeat (first [rewrite bool_decide_eq_true_2 in Hrun by by_computation
                  |rewrite bool_decide_eq_false_2 in Hrun
                     by (rewrite list_elem_of_singleton; discriminate)]);
    simpl in Hrun.
  all: try (injection Hrun as <-; reflexivity).
  - destruct (tagsToEdges (field data tagKey)); [|done].
    simpl in Hrun. by injection Hrun as <-.
  - destruct (spansToEdges (field data tagKey)); [|done].
    simpl in Hrun. by injection Hrun as <-.
Qed.

Lemma parseInput_layer_edges_witness :
  ∃ g l, obj_get
           [("tokens",
             {| tokens := JArr [JStr "so"; JStr "it"; JStr "goes"];
                layers :=
                  [{| name := "pos";
                      edges := JArr
                        [EdgeLabel (JNum 0) (JNum 1) (JStr "ADV");
                         EdgeLabel (JNum 1) (JNum 2) (JStr "PRON");
                         EdgeLabel (JNum 2) (JNum 3) (JStr "VERB")] |};
                   {| name := "ner";
                      edges := JArr
                        [EdgeLabel (JNum 1) (JNum 2) (JStr "THING")] |};
                   {| name := "srl"; edges := field record_full "srl" |}] |})]
           "tokens" = Some g ∧ l ∈ layers g ∧
    name l = "srl" ∧ edges l = field record_full "srl".
Proof.
  exact (parseInput_layer_edges record_full spec_tagged _ "srl"
           {| kind := EdgeLabels; align := Some "tokens" |}
           ltac:(by_computation) eq_refl ltac:(by_computation)
           eq_refl eq_refl).
Defined.

(** ** [parseInput]: when it returns *)

Lemma isLitSubtype_singleton (spec : Spec) (key : string) (k : LitName) :
  isLitSubtype (obj_get spec key) [k] = true <-> kind_of spec key = Some k.
Proof.
  unfold isLitSubtype, kind_of. destruct (obj_get spec key) as [t|]; simpl.
  - rewrite bool_decide_eq_true, list_elem_of_singleton.
    split; [by intros ->|by intros [= ->]].
  - split; discriminate.
Qed.

Lemma isLitSubtype_singleton_false (spec : Spec) (key : string) (k : LitName) :
  kind_of spec key ≠ Some k -> isLitSubtype (obj_get spec key) [k] = false.
Proof.
  intros Hne. destruct (isLitSubtype (obj_get spec key) [k]) eqn:Hsub; [|done].
  by apply isLitSubtype_singleton in Hsub.
Qed.

Lemma tagsToEdges_array (xs : list JsVal) : is_Return (tagsToEdges (JArr xs)).
Proof. unfold tagsToEdges, js_map. by rewrite mapiR_Return. Qed.

Lemma spansToEdges_array (xs : list JsVal) :
  Forall (fun d => ¬ nullish d) xs -> is_Return (spansToEdges (JArr xs)).
Proof.
  intros Hall. unfold spansToEdges, js_map.
  rewrite (mapiR_map_Return _
             (fun d => EdgeLabel (prop_or_undefined d "start")
                         (prop_or_undefined d "end")
                         (prop_or_undefined d "label"))); [done|].
  intros _ d Hd. rewrite Forall_forall in Hall. specialize (Hall d Hd).
  by rewrite !js_get_prop_or_undefined.
Qed.

Lemma length_is_zero_array (xs : list JsVal) :
  length_is_zero (JArr xs) = Return (bool_decide (xs = [])).
Proof.
  by destruct xs as [|x xs].
Qed.

Lemma annotationLayer_is_Return (data : Input) (spec : Spec) (tagKey : string) :
  convertible (kind_of spec tagKey) (field data tagKey) ->
  is_Return (annotationLayer (Some data) spec tagKey).
Proof.
  intros [Hempty|[(xs & Hv & Hspans)|(Hseq & Hspan & Hlen)]].
  - by rewrite annotationLayer_empty.
  - destruct xs as [|x xs]; [by rewrite annotationLayer_empty; rewrite ?Hv|].
    unfold annotationLayer. cbn [bind data_get]. fold (field data tagKey).
    rewrite Hv, length_is_zero_array. cbn [bind bool_decide].
    rewrite bool_decide_eq_false_2 by done.
    destruct (isLitSubtype (obj_get spec tagKey) [SequenceTags]).
    { pose proof (tagsToEdges_array (x :: xs)) as Hr.
      by destruct (tagsToEdges (JArr (x :: xs))). }
    destruct (isLitSubtype (obj_get spec tagKey) [SpanLabels]) eqn:Hsub;
      [|done].
    apply isLitSubtype_singleton in Hsub.
    pose proof (spansToEdges_array _ (Hspans Hsub)) as Hr.
    by destruct (spansToEdges (JArr (x :: xs))).
  - unfold annotationLayer. cbn [bind data_get]. fold (field data tagKey).
    unfold has_length in Hlen. unfold length_is_zero.
    destruct (js_get (field data tagKey) "length") as [len|]; [|done].
    cbn [bind]. by rewrite !isLitSubtype_singleton_false.
Qed.

Lemma resolveTokens_is_Return (data : Input) (spec : Spec) (tokenKey : string) :
  tokenisable data spec (field data tokenKey) ->
  is_Return (resolveTokens (Some data) spec tokenKey).
Proof.
  unfold resolveTokens, data_get. simpl. fold (field data tokenKey).
  intros [->|[-> (s & Hs)]]; simpl; [done|].
  match goal with |- context [js_split _ ?v] => change v with
    (field data (property_key (head (findSpecKeys spec [TextSegment])))) end.
  by rewrite Hs.
Qed.

(** X6.  A record of the right form is always normalised: when every
    tag field of the spec is aligned to a token field, every tag field
    holds something convertible (an empty value, an array, or for edge
    labels anything that is there) and every token field holds
    something non-empty, or empty with a string in the first text
    field, [parseInput] returns. *)
Theorem parseInput_well_formed_returns (data : Input) (spec : Spec) :
  all_aligned spec ->
  (∀ tagKey, tagKey ∈ findSpecKeys spec supportedPredTypes ->
     convertible (kind_of spec tagKey) (field data tagKey)) ->
  (∀ tokenKey, tokenKey ∈ findSpecKeys spec [Tokens] ->
     tokenisable data spec (field data tokenKey)) ->
  is_Return (parseInput (Some data) spec).
Proof.
  intros Hal Htags Htokens. unfold parseInput.
  pose proof (proj2 (mapTokenToTags_is_Return spec) Hal) as Hm.
  destruct (mapTokenToTags spec) as [m|] eqn:Em; [clear Hm|done]. simpl.
  apply foldR_is_Return. intros k acc Hk.
  apply (mapTokenToTags_keys _ _ Em) in Hk.
  unfold tokenGroup. rewrite (mapTokenToTags_Return _ _ Em).
  rewrite decide_True by done.
  assert (is_Return (mapR (annotationLayer (Some data) spec)
            (List.filter (alignedTo spec k)
               (findSpecKeys spec supportedPredTypes)))) as Hlayers.
  { apply mapR_is_Return. intros tagKey Htag.
    apply annotationLayer_is_Return, Htags.
    rewrite list_elem_of_In, List.filter_In, <- list_elem_of_In in Htag.
    tauto. }
  destruct (mapR _ _) as [ls|]; [|done]. simpl.
  pose proof (resolveTokens_is_Return _ _ _ (Htokens k Hk)) as Htoks.
  by destruct (resolveTokens (Some data) spec k).
Qed.

Lemma parseInput_well_formed_returns_witness :
  is_Return (parseInput (Some record_full) spec_tagged).
Proof.
  assert (findSpecKeys spec_tagged supportedPredTypes = ["pos"; "ner"; "srl"])
    as Htags by reflexivity.
  assert (findSpecKeys spec_tagged [Tokens] = ["tokens"])
    as Htokens by reflexivity.
  apply parseInput_well_formed_returns.
  - intros tagKey t Htag Ht. rewrite Htokens. rewrite Htags in Htag.
    repeat (apply elem_of_cons in Htag as [->|Htag]);
      [..|by apply elem_of_nil in Htag];
      injection Ht as <-; by_computation.
  - intros tagKey Htag. rewrite Htags in Htag.
    repeat (apply elem_of_cons in Htag as [->|Htag]);
      [..|by apply elem_of_nil in Htag].
    + right; left. eexists. split; [reflexivity|]. discriminate.
    + right; left. eexists. split; [reflexivity|]. intros _.
      repeat constructor. unfold nullish. intros [?|?]; discriminate.
    + right; right. repeat split; try discriminate.
  - intros tokenKey Htok. rewrite Htokens in Htok.
    apply list_elem_of_singleton in Htok as ->. by left.
Defined.

(** ** [parseInput]: what it reads *)

Lemma data_get_field (data : Input) (key : string) :
  data_get (Some data) key = Return (field data key).
Proof. done. Qed.





(** ** [parseInput]: when it throws *)

(** X8.  Without a record ([undefined], the first element of an empty
    result list) [parseInput] returns, for a spec with ordinary names,
    only when the spec has no token and no tag field, and then the
    empty result; for every such spec with a token field it throws. *)
Theorem parseInput_undefined_record (spec : Spec) :
  ordinary_spec spec ->
  (is_Return (parseInput None spec) <->
     findSpecKeys spec [Tokens] = [] ∧
     findSpecKeys spec supportedPredTypes = []) ∧
  (∀ ret, parseInput None spec = Return ret -> ret = []) ∧
  (findSpecKeys spec [Tokens] ≠ [] -> is_Throw (parseInput None spec)).
Proof.
  intros _.
  assert (∀ ret, parseInput None spec = Return ret ->
            findSpecKeys spec [Tokens] = []) as Hnone.
  { intros ret Hret. destruct (findSpecKeys spec [Tokens]) as [|k l] eqn:Ek;
      [done|exfalso].
    pose proof (parseInput_Return _ _ _ Hret k) as Hk. rewrite Ek in Hk.
    destruct (obj_get ret k) as [g|].
    - by destruct Hk as (_ & Hres & _).
    - apply Hk. by left. }
  assert (findSpecKeys spec [Tokens] = [] ->
          findSpecKeys spec supportedPredTypes = [] ->
          parseInput None spec = Return []) as Hempty.
  { intros Etok Etag. unfold parseInput, mapTokenToTags.
    by rewrite Etok, Etag. }
  split; [split|split].
  - intros Hret. destruct (parseInput None spec) as [ret|] eqn:Eret; [|done].
    pose proof (Hnone _ eq_refl) as Etok. split; [done|].
    destruct (findSpecKeys spec supportedPredTypes) as [|tagKey l] eqn:Etag;
      [done|exfalso].
    assert (tagKey ∈ findSpecKeys spec supportedPredTypes) as Htag
      by (rewrite Etag; left).
    destruct (proj1 (elem_of_findSpecKeys _ _ _) Htag) as (t & Ht & _).
    pose proof (parseInput_Return_aligned _ _ _ _ _ Eret Htag Ht) as Hal.
    rewrite Etok in Hal. by apply elem_of_nil in Hal.
  - intros [Etok Etag]. by rewrite Hempty.
  - intros ret Hret. pose proof (Hnone _ Hret) as Etok.
    unfold parseInput in Hret.
    destruct (mapTokenToTags spec) as [m|] eqn:Em; [|done]. simpl in Hret.
    destruct (obj_keys m) as [|k l] eqn:Ekeys; [by injection Hret as <-|].
    exfalso. assert (k ∈ obj_keys m) as Hk by (rewrite Ekeys; left).
    apply (mapTokenToTags_keys _ _ Em) in Hk. rewrite Etok in Hk.
    by apply elem_of_nil in Hk.
  - intros Hne. destruct (parseInput None spec) as [ret|] eqn:Eret; [|done].
    by apply Hne, (Hnone ret).
Qed.

Lemma parseInput_undefined_record_witness :
  is_Throw (parseInput None spec_tagged) ∧
  parseInput None [("text", {| kind := TextSegment; align := None |})]
    = Return [].
Proof.
  split.
  - destruct (parseInput_undefined_record spec_tagged) as (_ & _ & Hthrow);
      [by_computation|].
    apply Hthrow. discriminate.
  - destruct (parseInput_undefined_record
                [("text", {| kind := TextSegment; align := None |})])
      as (Hreturns & Hempty & _); [by_computation|].
    pose proof (proj2 Hreturns (conj eq_refl eq_refl)) as Hret.
    destruct (parseInput None
                [("text", {| kind := TextSegment; align := None |})])
      as [ret|] eqn:Eret; [|destruct Hret].
    by rewrite (Hempty ret eq_refl).
Defined.

Lemma annotationLayer_not_array (data : Input) (spec : Spec)
    (tagKey : string) (t : LitType) :
  obj_get spec tagKey = Some t ->
  kind t = SequenceTags ∨ kind t = SpanLabels ->
  (∀ xs, field data tagKey ≠ JArr xs) ->
  length_is_zero (field data tagKey) ≠ Return true ->
  is_Throw (annotationLayer (Some data) spec tagKey).
Proof.
  intros Ht Hkind Harr Hlen. unfold annotationLayer.
  rewrite data_get_field. cbn [bind].
  destruct (length_is_zero (field data tagKey)) as [[|]|]; [done| |done].
  cbn [bind]. rewrite Ht. unfold isLitSubtype.
  destruct Hkind as [-> | ->].
  - rewrite bool_decide_eq_true_2 by by_computation.
    unfold tagsToEdges, js_map.
    destruct (field data tagKey); try done. by destruct (Harr xs).
  - rewrite bool_decide_eq_false_2
      by (rewrite list_elem_of_singleton; discriminate).
    rewrite bool_decide_eq_true_2 by by_computation.
    unfold spansToEdges, js_map.
    destruct (field data tagKey); try done. by destruct (Harr xs).
Qed.

(** X9.  The conversions are for arrays only, and only an empty value
    is replaced before they run: a sequence-tag or span-label field
    whose value is neither empty nor an array (a non-empty string, a
    number, an object, or no value at all) makes [parseInput] throw,
    whatever the rest of the record, for a spec with ordinary
    names. *)
Theorem parseInput_tag_not_array_throws
    (data : Input) (spec : Spec) (tagKey : string) (t : LitType) :
  ordinary_spec spec ->
  tagKey ∈ findSpecKeys spec supportedPredTypes ->
  obj_get spec tagKey = Some t ->
  kind t = SequenceTags ∨ kind t = SpanLabels ->
  (∀ xs, field data tagKey ≠ JArr xs) ->
  length_is_zero (field data tagKey) ≠ Return true ->
  is_Throw (parseInput (Some data) spec).
Proof.
  intros _ Htag Ht Hkind Harr Hlen.
  destruct (parseInput (Some data) spec) as [ret|] eqn:Eret; [|done].
  destruct (parseInput_Return_layer _ _ _ _ _ Eret Htag Ht)
    as (g & l & _ & _ & Hrun).
  pose proof (annotationLayer_not_array _ _ _ _ Ht Hkind Harr Hlen) as Hthrow.
  by rewrite Hrun in Hthrow.
Qed.

Lemma parseInput_tag_not_array_throws_witness :
  is_Throw (parseInput
              (Some [("tokens", JArr [JStr "so"; JStr "it"; JStr "goes"]);
                     ("text", JStr "so it goes");
                     ("pos", JStr "ADV PRON VERB");
                     ("ner", JArr []); ("srl", JArr [])]) spec_tagged).
Proof.
  apply (parseInput_tag_not_array_throws _ spec_tagged "pos"
           {| kind := SequenceTags; align := Some "tokens" |}).
  - by_computation.
  - by_computation.
  - reflexivity.
  - left. reflexivity.
  - intros xs. discriminate.
  - discriminate.
Defined.

(** ** The conversions and the tokens: when they return *)

(** X20.  [tagsToEdges] returns exactly for arrays, whatever they hold,
    and [spansToEdges] exactly for arrays none of whose elements is
    [undefined] or [null]; for every other argument they throw. *)
Theorem conversions_return_iff (v : JsVal) :
  (is_Return (tagsToEdges v) <-> ∃ xs, v = JArr xs) ∧
  (is_Return (spansToEdges v) <->
     ∃ xs, v = JArr xs ∧ Forall (fun d => ¬ nullish d) xs).
Proof.
  split; split.
  - destruct v; try done. by exists xs.
  - intros [xs ->]. apply tagsToEdges_array.
  - destruct v; try done. intros Hret. exists xs. split; [done|].
    apply Forall_forall. intros d Hd Hnull.
    assert (Exists nullish xs) as Hex by (apply Exists_exists; eauto).
    clear Hd Hnull. revert Hret. unfold spansToEdges, js_map.
    generalize 0%nat. induction Hex as [d' l Hd'|d' l _ IH]; intros i; simpl.
    + by destruct (js_get_nullish d' "start" Hd') as [-> | ->].
    + destruct (bind (js_get d' "start") _); [|done]. simpl.
      specialize (IH (S i)). by destruct (mapiR _ (S i) l).
  - intros (xs & -> & Hall). by apply spansToEdges_array.
Qed.

(** X21.  An empty token field needs a string to take the tokens from:
    when the value of a token field is empty and the first text field
    of the spec does not hold a string in the record, whether it is
    missing, [null] or a list, [parseInput] throws, for a spec with
    ordinary names. *)
Theorem parseInput_empty_tokens_need_text
    (data : Input) (spec : Spec) (tokenKey : string) :
  ordinary_spec spec ->
  tokenKey ∈ findSpecKeys spec [Tokens] ->
  length_is_zero (field data tokenKey) = Return true ->
  (∀ s, field data (property_key (head (findSpecKeys spec [TextSegment])))
        ≠ JStr s) ->
  is_Throw (parseInput (Some data) spec).
Proof.
  intros _ Htok Hempty Htext.
  destruct (parseInput (Some data) spec) as [ret|] eqn:Eret; [|done].
  pose proof (parseInput_Return _ _ _ Eret tokenKey) as Hk.
  destruct (obj_get ret tokenKey) as [g|]; [|done].
  destruct Hk as (_ & Hres & _).
  apply resolveTokens_Return in Hres as [[Hne _]|(_ & s & Hs & _)].
  - congruence.
  - by destruct (Htext s).
Qed.

Lemma parseInput_empty_tokens_need_text_witness :
  is_Throw (parseInput
              (Some [("tokens", JArr []);
                     ("text", JArr [JStr "so"; JStr "it"; JStr "goes"]);
                     ("pos", JArr []); ("ner", JArr []); ("srl", JArr [])])
              spec_tagged).
Proof.
  apply (parseInput_empty_tokens_need_text _ spec_tagged "tokens").
  - by_computation.
  - by_computation.
  - reflexivity.
  - intros s. discriminate.
Defined.

(** ** [renderTokenGroups] *)

Lemma renderTokenGroups_Return (data : Annotations) (spec : Spec)
    (views : list TokenGroupView) :
  renderTokenGroups data spec = Return views ->
  ∃ m, mapTokenToTags spec = Return m ∧
       group_id <$> views = obj_keys m ∧
       ∀ view, view ∈ views ->
         group_id view ∈ findSpecKeys spec [Tokens] ∧
         graph view = obj_get data (group_id view) ∧
         heading view =
           (if negb (showLayerLabel view)
            then name <$> (obj_get data (group_id view)
                           ≫= fun g => head (layers g))
            else None) ∧
         showLayerLabel view =
           negb match obj_get data (group_id view) with
                | Some g => (length (layers g) =? 1)%nat
                | None => false
                end.
Proof.
  unfold renderTokenGroups.
  destruct (mapTokenToTags spec) as [m|] eqn:Em; [|done]. simpl.
  intros [= <-]. exists m. split; [done|]. split.
  - rewrite <- list_fmap_compose. simpl. apply list_fmap_id.
  - intros view Hview. apply list_elem_of_fmap in Hview as (k & -> & Hk).
    simpl. split; [by apply (mapTokenToTags_keys _ _ Em)|].
    split; [done|]. by rewrite negb_involutive.
Qed.

(** X17.  What is rendered of a normalised record, with the spec it was
    normalised with, a spec with ordinary names: one group per token
    field (in spec order, the keys
    of a spec being distinct), each with its span graph; a group has a
    heading exactly when one tag field is aligned to its token field,
    the heading is the name of that tag field, and the layer labels of
    the graph are then switched off. *)
Theorem renderTokenGroups_of_parsed
    (data : option Input) (spec : Spec) (ret : Annotations) :
  ordinary_spec spec ->
  parseInput data spec = Return ret ->
  ∃ views, renderTokenGroups ret spec = Return views ∧
    (NoDup (obj_keys spec) -> group_id <$> views = findSpecKeys spec [Tokens]) ∧
    ∀ view, view ∈ views ->
      group_id view ∈ findSpecKeys spec [Tokens] ∧
      (∃ g, graph view = Some g ∧ obj_get ret (group_id view) = Some g) ∧
      match List.filter (alignedTo spec (group_id view))
              (findSpecKeys spec supportedPredTypes) with
      | [tagKey] => heading view = Some tagKey ∧ showLayerLabel view = false
      | _ => heading view = None ∧ showLayerLabel view = true
      end.
Proof.
  intros _ Hret.
  destruct (renderTokenGroups ret spec) as [views|] eqn:Eviews.
  2:{ unfold renderTokenGroups in Eviews. unfold parseInput in Hret.
      by destruct (mapTokenToTags spec). }
  exists views. split; [done|].
  destruct (renderTokenGroups_Return _ _ _ Eviews) as (m & Em & Hids & Hviews).
  split.
  - intros Hnd. rewrite Hids. by apply mapTokenToTags_keys.
  - intros view Hview.
    destruct (Hviews view Hview) as (Hid & Hgraph & Hheading & Hshow).
    split; [done|].
    pose proof (parseInput_Return _ _ _ Hret (group_id view)) as Hg.
    destruct (obj_get ret (group_id view)) as [g|] eqn:Eg; [|done].
    destruct Hg as (_ & _ & Hlayers).
    split; [by exists g|].
    pose proof (mapR_names _ name _ _ Hlayers
                  (annotationLayer_name data spec)) as Hnames.
    rewrite Hheading, Hshow. simpl.
    destruct (List.filter _ _) as [|tagKey [|tagKey' tagKeys]];
      destruct (layers g) as [|l [|l' ls]]; try discriminate Hnames; simpl.
    + done.
    + by injection Hnames as ->.
    + done.
Qed.

Lemma renderTokenGroups_of_parsed_witness :
  ∃ views,
    renderTokenGroups
      [("tokens",
        {| tokens := JArr [JStr "unhappy"];
           layers :=
             [{| name := "pos";
                 edges := JArr [EdgeLabel (JNum 0) (JNum 1) (JStr "ADJ")] |};
              {| name := "ner"; edges := JArr [] |}] |});
       ("pieces",
        {| tokens := JArr [JStr "un"; JStr "happy"];
           layers :=
             [{| name := "tags";
                 edges := JArr [EdgeLabel (JNum 0) (JNum 1) (JStr "B");
                                EdgeLabel (JNum 1) (JNum 2) (JStr "I")] |}] |})]
      spec_two_groups = Return views ∧
    (heading <$> views) = [None; Some "tags"] ∧
    (showLayerLabel <$> views) = [true; false].
Proof.
  destruct (renderTokenGroups_of_parsed (Some record_two_groups)
              spec_two_groups _ ltac:(by_computation) eq_refl)
    as (views & Hviews & _ & _).
  exists views. split; [exact Hviews|].
  vm_compute in Hviews. injection Hviews as <-.
  split; reflexivity.
Defined.

(** X18.  With nothing selected the gold module renders, for a dataset
    spec with ordinary names, the frame of
    its groups and nothing in them: one group per token field of the
    dataset, each without span graph and without heading, the layer
    labels left on.  Rendering throws, selection or not, when a tag
    field of the spec is not aligned to a token field. *)
Theorem render_without_selection (dataSpec : Spec) :
  ordinary_spec dataSpec ->
  (is_Return (SpanGraphGoldModule.render None dataSpec)
   <-> all_aligned dataSpec) ∧
  (∀ input, ¬ all_aligned dataSpec ->
     is_Throw (SpanGraphGoldModule.render input dataSpec)) ∧
  ∀ views, SpanGraphGoldModule.render None dataSpec = Return views ->
    (NoDup (obj_keys dataSpec) ->
     group_id <$> views = findSpecKeys dataSpec [Tokens]) ∧
    Forall (fun view => graph view = None ∧ heading view = None ∧
                        showLayerLabel view = true) views.
Proof.
  intros _.
  unfold SpanGraphGoldModule.render. simpl. split; [|split].
  - rewrite <- mapTokenToTags_is_Return. unfold renderTokenGroups.
    by destruct (mapTokenToTags dataSpec).
  - intros input Hnot.
    assert (¬ is_Return (mapTokenToTags dataSpec)) as Hthrow
      by by rewrite mapTokenToTags_is_Return.
    unfold SpanGraphGoldModule.goldDisplayData, parseInput, renderTokenGroups.
    destruct (mapTokenToTags dataSpec) as [m|]; [by destruct Hthrow|].
    by destruct input.
  - intros views Eviews.
    destruct (renderTokenGroups_Return _ _ _ Eviews) as (m & Em & Hids & Hviews).
    split.
    + intros Hnd. rewrite Hids. by apply mapTokenToTags_keys.
    + apply Forall_forall. intros view Hview.
      destruct (Hviews view Hview) as (_ & Hgraph & Hheading & Hshow).
      simpl in Hgraph, Hheading, Hshow. rewrite Hshow in Hheading. done.
Qed.

Lemma render_without_selection_witness :
  ∃ views,
    SpanGraphGoldModule.render None spec_two_groups = Return views ∧
    group_id <$> views = ["tokens"; "pieces"] ∧
    Forall (fun view => graph view = None ∧ heading view = None ∧
                        showLayerLabel view = true) views.
Proof.
  eexists. split; [vm_compute; reflexivity|].
  destruct (render_without_selection spec_two_groups) as (_ & _ & Hviews);
    [by_computation|].
  destruct (Hviews _ eq_refl) as [Hids Hempty].
  split; [|exact Hempty]. vm_compute. reflexivity.
Defined.

(** ** [loadLatest]: more on traces *)

Module LoadLatestFacts.
Import LitModule LitModuleFacts.

Section MoreTraces.
Context {T : Type}.
Implicit Types (key : string) (st : State).
Implicit Types trace before after : list (Event T).

Lemma handle_after_app key trace1 trace2 st :
  handle_after key (trace1 ++ trace2) st
  = handle_after key trace2 (run trace1 st).1.
Proof. unfold handle_after. by rewrite run_app_state. Qed.

Lemma handle_after_foreign key trace st :
  foreign key trace -> handle_after key trace st = latestLoadPromises st !! key.
Proof. intros Hf. by destruct (run_foreign key trace st Hf). Qed.

Lemma committed_by_foreign key trace st :
  foreign key trace -> committed_by key trace st = [].
Proof. intros Hf. by destruct (run_foreign key trace st Hf). Qed.

(** A call that resumes before the next one under its key is made. *)
Lemma round_trip key (P : Promise) (v : T) trace st :
  foreign key trace ->
  let whole := [Call key P] ++ trace ++ [Resume key P (Fulfilled v)] in
  committed_by key whole st = [(P, v)] ∧
  handle_after key whole st = None ∧
  isLoading (run whole st).1 = false.
Proof.
  intros Hf whole. unfold whole.
  rewrite !committed_by_app, !handle_after_app, !run_app_state.
  destruct (call_stores (T:=T) key P st) as (Hh & _ & ->).
  set (s1 := (run [Call key P] st).1) in *.
  rewrite (committed_by_foreign _ _ _ Hf).
  pose proof (handle_after_foreign _ _ s1 Hf) as Hh1.
  unfold handle_after in Hh1. rewrite Hh in Hh1.
  destruct (resume_latest key P v _ Hh1) as (Hnone & Hload & ->).
  done.
Qed.

(** X10.  Whatever happened before, once [loadLatest] has been called
    with [P] under a key, the resumption of any call made with another
    promise under that key is without effect: it returns [null] (or
    throws, when its promise was rejected), commits nothing and leaves
    the loading state as it is, busy signal included. *)
Theorem loadLatest_superseded_has_no_effect
    key (P Q : Promise) (outcome : Settled T) before after st :
  Q ≠ P -> foreign key after ->
  let st' := (run (before ++ [Call key P] ++ after) st).1 in
  loadLatest_resume key Q outcome st'
    = (st', match outcome with
            | Fulfilled _ => Return None
            | Rejected reason => Throw (Rejection reason)
            end) ∧
  committed_by key [Resume key Q outcome] st' = [].
Proof.
  intros Hne Hf st'.
  assert (latestLoadPromises st' !! key = Some P) as Hh.
  { unfold st'. rewrite !run_app_state.
    pose proof (handle_after_foreign key after
                  (run [Call (T:=T) key P] (run before st).1).1 Hf) as Hh.
    unfold handle_after in Hh. rewrite Hh.
    by destruct (call_stores (T:=T) key P (run before st).1). }
  assert (latestLoadPromises st' !! key ≠ Some Q) as Hne' by congruence.
  split; [|by apply resume_superseded].
  unfold loadLatest_resume. destruct outcome; [|done].
  by rewrite decide_False.
Qed.

(** X11.  The busy signal is one flag for all keys: when the call under
    one key commits its result, the signal is cleared although a call
    made under another key is still waiting, its handle still stored. *)
Theorem loadLatest_busy_signal_is_shared
    key1 key2 (A B : Promise) (a : T) trace1 trace2 st :
  key1 ≠ key2 ->
  foreign key1 trace1 -> foreign key1 trace2 -> foreign key2 trace2 ->
  let st' := (run ([Call key1 A] ++ trace1 ++ [Call key2 B] ++ trace2
                   ++ [Resume key1 A (Fulfilled a)]) st).1 in
  isLoading st' = false ∧
  latestLoadPromises st' !! key2 = Some B ∧
  latestLoadPromises st' !! key1 = None.
Proof.
  intros Hne H1 H1' H2 st'.
  assert (foreign key1 (trace1 ++ [Call key2 B] ++ trace2)) as Hmid.
  { unfold foreign. rewrite !Forall_app. split; [done|]. split; [|done].
    by apply Forall_singleton. }
  destruct (round_trip key1 A a _ st Hmid) as (_ & Hnone & Hload).
  unfold st'. rewrite <- !app_assoc in Hnone, Hload.
  split; [exact Hload|]. split; [|exact Hnone].
  rewrite !run_app_state.
  set (s1 := (run trace1 (run [Call (T:=T) key1 A] st).1).1).
  set (s2 := (run [Call (T:=T) key2 B] s1).1).
  assert (latestLoadPromises (run trace2 s2).1 !! key2 = Some B) as HB.
  { pose proof (handle_after_foreign key2 trace2 s2 H2) as Hh.
    unfold handle_after in Hh. rewrite Hh.
    by destruct (call_stores (T:=T) key2 B s1). }
  assert (latestLoadPromises (run trace2 s2).1 !! key1 = Some A) as HA.
  { pose proof (handle_after_foreign key1
                  (trace1 ++ [Call key2 B] ++ trace2)
                  (run [Call (T:=T) key1 A] st).1 Hmid) as Hh.
    unfold handle_after in Hh. rewrite !run_app_state in Hh.
    fold s1 s2 in Hh. rewrite Hh.
    by destruct (call_stores (T:=T) key1 A st). }
  simpl. rewrite decide_True by done. simpl.
  by rewrite lookup_delete_ne.
Qed.

(** X12.  Calls that do not overlap are all used: when the call with
    [A] resumes before the call with [B] is made under the same key,
    both results are committed, in that order, and nothing is left
    stored under the key. *)
Theorem loadLatest_sequential_calls_commit
    key (A B : Promise) (a b : T) trace1 trace2 trace3 st :
  foreign key trace1 -> foreign key trace2 -> foreign key trace3 ->
  let whole := ([Call key A] ++ trace1 ++ [Resume key A (Fulfilled a)])
               ++ trace2
               ++ ([Call key B] ++ trace3 ++ [Resume key B (Fulfilled b)]) in
  committed_by key whole st = [(A, a); (B, b)] ∧
  handle_after key whole st = None ∧
  isLoading (run whole st).1 = false.
Proof.
  intros H1 H2 H3 whole. unfold whole.
  rewrite (committed_by_app key _ (trace2 ++ _)).
  rewrite (committed_by_app key trace2).
  rewrite (handle_after_app key _ (trace2 ++ _)).
  rewrite (handle_after_app key trace2).
  rewrite (run_app_state _ (trace2 ++ _)), (run_app_state trace2).
  destruct (round_trip key A a trace1 st H1) as (-> & _ & _).
  set (s1 := (run ([Call key A] ++ trace1 ++ [Resume key A (Fulfilled a)])
                st).1).
  rewrite (committed_by_foreign _ _ _ H2).
  destruct (round_trip key B b trace3 (run trace2 s1).1 H3)
    as (-> & -> & ->).
  done.
Qed.

End MoreTraces.

Lemma loadLatest_superseded_has_no_effect_witness :
  let st' := (run (T:=string)
                ([Call "getPreds" 0%nat; Call "getPreds" 1%nat]
                 ++ [Call "getPreds" 2%nat]
                 ++ [Call "getEmbeddings" 3%nat]) initial).1 in
  loadLatest_resume "getPreds" 1%nat (Fulfilled "second") st'
    = (st', Return None) ∧
  committed_by "getPreds" [Resume "getPreds" 1%nat (Fulfilled "second")] st'
    = [].
Proof.
  apply (loadLatest_superseded_has_no_effect (T:=string)
           "getPreds" 2%nat 1%nat (Fulfilled "second")
           [Call "getPreds" 0%nat; Call "getPreds" 1%nat]
           [Call "getEmbeddings" 3%nat] initial).
  - lia.
  - repeat constructor. discriminate.
Defined.

Lemma loadLatest_busy_signal_is_shared_witness :
  let st' := (run (T:=string)
                ([Call "getPreds" 0%nat] ++ []
                 ++ [Call "getEmbeddings" 1%nat] ++ []
                 ++ [Resume "getPreds" 0%nat (Fulfilled "preds")])
                initial).1 in
  isLoading st' = false ∧
  latestLoadPromises st' !! "getEmbeddings" = Some 1%nat ∧
  latestLoadPromises st' !! "getPreds" = None.
Proof.
  apply (loadLatest_busy_signal_is_shared (T:=string)
           "getPreds" "getEmbeddings" 0%nat 1%nat "preds" [] [] initial).
  - discriminate.
  - constructor.
  - constructor.
  - constructor.
Defined.

Lemma loadLatest_sequential_calls_commit_witness :
  committed_by (T:=string) "getPreds"
    (([Call "getPreds" 0%nat] ++ []
      ++ [Resume "getPreds" 0%nat (Fulfilled "first")])
     ++ [Call "getEmbeddings" 1%nat]
     ++ ([Call "getPreds" 2%nat] ++ []
         ++ [Resume "getPreds" 2%nat (Fulfilled "second")])) initial
  = [(0%nat, "first"); (2%nat, "second")].
Proof.
  apply (loadLatest_sequential_calls_commit (T:=string)
           "getPreds" 0%nat 2%nat "first" "second" []
           [Call "getEmbeddings" 1%nat] [] initial).
  - constructor.
  - repeat constructor. discriminate.
  - constructor.
Defined.

End LoadLatestFacts.

(** ** [updatePredDisplayData]: more on what is shown *)

Lemma updatePredDisplayData_superseded_state
    (predSpec : Spec) (promise : LitModule.Promise)
    (outcome : LitModule.Settled (list Input)) (st : SpanGraphModule.State) :
  LitModule.latestLoadPromises (SpanGraphModule.base st) !! "getPreds"
    ≠ Some promise ->
  (SpanGraphModule.updatePredDisplayData_resume predSpec promise outcome st).1
  = st.
Proof.
  intros Hne. unfold SpanGraphModule.updatePredDisplayData_resume.
  destruct st as [b d c]. destruct outcome as [results|reason]; simpl in *;
    [|done].
  by rewrite decide_False.
Qed.

Lemma updatePredDisplayData_latest_state
    (predSpec : Spec) (promise : LitModule.Promise)
    (results : list Input) (st : SpanGraphModule.State) :
  LitModule.latestLoadPromises (SpanGraphModule.base st) !! "getPreds"
    = Some promise ->
  let st' := (SpanGraphModule.updatePredDisplayData_resume predSpec promise
                (LitModule.Fulfilled results) st).1 in
  LitModule.latestLoadPromises (SpanGraphModule.base st') !! "getPreds" = None ∧
  LitModule.isLoading (SpanGraphModule.base st') = false.
Proof.
  intros Heq. unfold SpanGraphModule.updatePredDisplayData_resume.
  simpl. rewrite decide_True by done.
  destruct (parseInput (results !! 0%nat) predSpec); simpl;
    by rewrite lookup_delete_eq.
Qed.

(** X13.  Two selections made one after the other, the second before
    the predictions for the first have arrived: whichever fetch
    completes first, and however the first one ends, what is shown in
    the end is what [parseInput] makes of the predictions for the
    second selection; the predictions for the first are never shown. *)
Theorem updatePredDisplayData_last_selection_shown
    (predSpec predSpec' : Spec) (input1 input2 : IndexedInput)
    (outcome1 : LitModule.Settled (list Input)) (results2 : list Input)
    (annotations : Annotations) (st : SpanGraphModule.State) :
  parseInput (results2 !! 0%nat) predSpec = Return annotations ->
  let st1 := (SpanGraphModule.updatePredDisplayData_call (Some input1) st).1 in
  let st2 := (SpanGraphModule.updatePredDisplayData_call (Some input2) st1).1 in
  ∃ promise1 promise2,
    (SpanGraphModule.updatePredDisplayData_call (Some input1) st).2
      = Some promise1 ∧
    (SpanGraphModule.updatePredDisplayData_call (Some input2) st1).2
      = Some promise2 ∧
    promise1 ≠ promise2 ∧
    (let st3 := (SpanGraphModule.updatePredDisplayData_resume predSpec'
                   promise1 outcome1 st2).1 in
     SpanGraphModule.predDisplayData st3 = SpanGraphModule.predDisplayData st ∧
     SpanGraphModule.predDisplayData
       (SpanGraphModule.updatePredDisplayData_resume predSpec promise2
          (LitModule.Fulfilled results2) st3).1 = annotations) ∧
    (let st3 := (SpanGraphModule.updatePredDisplayData_resume predSpec
                   promise2 (LitModule.Fulfilled results2) st2).1 in
     SpanGraphModule.predDisplayData st3 = annotations ∧
     SpanGraphModule.predDisplayData
       (SpanGraphModule.updatePredDisplayData_resume predSpec' promise1
          outcome1 st3).1 = annotations).
Proof.
  intros Hparse st1 st2.
  set (promise1 := length (SpanGraphModule.getPredsCalls st)).
  set (promise2 := length (SpanGraphModule.getPredsCalls st1)).
  exists promise1, promise2.
  assert (promise2 = S promise1) as Hnext.
  { unfold promise2, promise1, st1. simpl. rewrite length_app. simpl. lia. }
  assert (promise1 ≠ promise2) as Hne by lia.
  assert (LitModule.latestLoadPromises (SpanGraphModule.base st2) !! "getPreds"
          = Some promise2) as Hh.
  { unfold st2. simpl. by rewrite lookup_insert_eq. }
  assert (SpanGraphModule.predDisplayData st2
          = SpanGraphModule.predDisplayData st) as Hshown by done.
  split; [done|]. split; [done|]. split; [done|]. split.
  - assert (LitModule.latestLoadPromises (SpanGraphModule.base st2)
              !! "getPreds" ≠ Some promise1) as Hsup
      by (rewrite Hh; congruence).
    rewrite (updatePredDisplayData_superseded_state predSpec' promise1
               outcome1 st2 Hsup).
    split; [done|]. by apply updatePredDisplayData_latest_shows.
  - pose proof (updatePredDisplayData_latest_shows predSpec promise2 results2
                  annotations st2 Hh Hparse) as Hshow.
    split; [done|].
    destruct (updatePredDisplayData_latest_state predSpec promise2 results2
                st2 Hh) as [Hnone _].
    rewrite updatePredDisplayData_superseded_keeps; [done|].
    by rewrite Hnone.
Qed.

Lemma updatePredDisplayData_last_selection_shown_witness :
  let st := {| SpanGraphModule.base := LitModule.initial;
               SpanGraphModule.predDisplayData := [];
               SpanGraphModule.getPredsCalls := [] |} in
  let input1 := {| id_ := "a"; data := record_edited |} in
  let input2 := {| id_ := "b"; data := record_two_groups |} in
  let st1 := (SpanGraphModule.updatePredDisplayData_call (Some input1) st).1 in
  let st2 := (SpanGraphModule.updatePredDisplayData_call (Some input2) st1).1 in
  let shown := [("tokens", {| tokens := JArr [JStr "so"]; layers := [] |})] in
  ∃ promise1 promise2, promise1 ≠ promise2 ∧
    SpanGraphModule.predDisplayData
      (SpanGraphModule.updatePredDisplayData_resume spec_tokens_only promise1
         (LitModule.Fulfilled [[("tokens", JArr [JStr "it"])]])
         (SpanGraphModule.updatePredDisplayData_resume spec_tokens_only
            promise2 (LitModule.Fulfilled [[("tokens", JArr [JStr "so"])]])
            st2).1).1 = shown.
Proof.
  intros st input1 input2 st1 st2 shown.
  destruct (updatePredDisplayData_last_selection_shown
              spec_tokens_only spec_tokens_only input1 input2
              (LitModule.Fulfilled [[("tokens", JArr [JStr "it"])]])
              [[("tokens", JArr [JStr "so"])]] shown st eq_refl)
    as (promise1 & promise2 & _ & _ & Hne & _ & _ & Hlate).
  exists promise1, promise2. split; [exact Hne|exact Hlate].
Defined.

(** X14.  Clearing the selection does not call off the fetch that is
    under way: [updatePredDisplayData(null)] empties what is shown
    but leaves the handle stored, so when the predictions for the
    earlier selection arrive they are shown, with nothing selected. *)
Theorem updatePredDisplayData_cleared_then_overwritten
    (predSpec : Spec) (input : IndexedInput) (results : list Input)
    (annotations : Annotations) (st : SpanGraphModule.State) :
  parseInput (results !! 0%nat) predSpec = Return annotations ->
  let promise := length (SpanGraphModule.getPredsCalls st) in
  let st1 := (SpanGraphModule.updatePredDisplayData_call (Some input) st).1 in
  let st2 := (SpanGraphModule.updatePredDisplayData_call None st1).1 in
  (SpanGraphModule.updatePredDisplayData_call (Some input) st).2
    = Some promise ∧
  SpanGraphModule.predDisplayData st2 = [] ∧
  LitModule.latestLoadPromises (SpanGraphModule.base st2) !! "getPreds"
    = Some promise ∧
  LitModule.isLoading (SpanGraphModule.base st2) = true ∧
  SpanGraphModule.predDisplayData
    (SpanGraphModule.updatePredDisplayData_resume predSpec promise
       (LitModule.Fulfilled results) st2).1 = annotations.
Proof.
  intros Hparse promise st1 st2.
  assert (LitModule.latestLoadPromises (SpanGraphModule.base st2) !! "getPreds"
          = Some promise) as Hh.
  { unfold st2, st1. simpl. by rewrite lookup_insert_eq. }
  split; [done|]. split; [done|]. split; [done|]. split; [done|].
  by apply updatePredDisplayData_latest_shows.
Qed.

Lemma updatePredDisplayData_cleared_then_overwritten_witness :
  let st := {| SpanGraphModule.base := LitModule.initial;
               SpanGraphModule.predDisplayData := [];
               SpanGraphModule.getPredsCalls := [] |} in
  let input := {| id_ := "a"; data := record_edited |} in
  let st1 := (SpanGraphModule.updatePredDisplayData_call (Some input) st).1 in
  let st2 := (SpanGraphModule.updatePredDisplayData_call None st1).1 in
  SpanGraphModule.predDisplayData st2 = [] ∧
  SpanGraphModule.predDisplayData
    (SpanGraphModule.updatePredDisplayData_resume spec_tokens_only 0%nat
       (LitModule.Fulfilled [[("tokens", JArr [JStr "so"])]]) st2).1
  = [("tokens", {| tokens := JArr [JStr "so"]; layers := [] |})].
Proof.
  intros st input st1 st2.
  destruct (updatePredDisplayData_cleared_then_overwritten
              spec_tokens_only input [[("tokens", JArr [JStr "so"])]]
              [("tokens", {| tokens := JArr [JStr "so"]; layers := [] |})]
              st eq_refl)
    as (_ & Hcleared & _ & _ & Hshown).
  split; [exact Hcleared|exact Hshown].
Defined.

(** X15.  When the predictions that arrive cannot be normalised,
    [updatePredDisplayData] throws what [parseInput] threw and what is
    shown stays as it was; [loadLatest] had returned by then, so the
    busy signal is cleared and the handle removed. *)
Theorem updatePredDisplayData_parse_failure
    (predSpec : Spec) (promise : LitModule.Promise) (results : list Input)
    (st : SpanGraphModule.State) :
  LitModule.latestLoadPromises (SpanGraphModule.base st) !! "getPreds"
    = Some promise ->
  is_Throw (parseInput (results !! 0%nat) predSpec) ->
  let st' := (SpanGraphModule.updatePredDisplayData_resume predSpec promise
                (LitModule.Fulfilled results) st).1 in
  (∀ e, parseInput (results !! 0%nat) predSpec = Throw e ->
     (SpanGraphModule.updatePredDisplayData_resume predSpec promise
        (LitModule.Fulfilled results) st).2 = Throw e) ∧
  SpanGraphModule.predDisplayData st' = SpanGraphModule.predDisplayData st ∧
  LitModule.isLoading (SpanGraphModule.base st') = false ∧
  LitModule.latestLoadPromises (SpanGraphModule.base st') !! "getPreds" = None.
Proof.
  intros Hh Hthrow st'.
  destruct (updatePredDisplayData_latest_state predSpec promise results st Hh)
    as [Hnone Hload].
  split; [|split; [|done]].
  - intros e He. unfold SpanGraphModule.updatePredDisplayData_resume.
    simpl. rewrite decide_True by done. by rewrite He.
  - unfold st', SpanGraphModule.updatePredDisplayData_resume.
    simpl. rewrite decide_True by done.
    by destruct (parseInput (results !! 0%nat) predSpec).
Qed.

Lemma updatePredDisplayData_parse_failure_witness :
  let st := (SpanGraphModule.updatePredDisplayData_call
               (Some {| id_ := "a"; data := record_edited |})
               {| SpanGraphModule.base := LitModule.initial;
                  SpanGraphModule.predDisplayData :=
                    [("tokens", {| tokens := JArr [JStr "so"];
                                   layers := [] |})];
                  SpanGraphModule.getPredsCalls := [] |}).1 in
  let st' := (SpanGraphModule.updatePredDisplayData_resume spec_tagged 0%nat
                (LitModule.Fulfilled []) st).1 in
  SpanGraphModule.predDisplayData st'
    = [("tokens", {| tokens := JArr [JStr "so"]; layers := [] |})] ∧
  LitModule.isLoading (SpanGraphModule.base st') = false.
Proof.
  intros st st'.
  destruct (updatePredDisplayData_parse_failure spec_tagged 0%nat [] st
              eq_refl I) as (_ & Hshown & Hload & _).
  split; [exact Hshown|exact Hload].
Defined.

(** ** [SpanGraphModule.shouldDisplayModule] *)

(** X16.  The predictions module is offered exactly when some model of
    the application has, in its output spec, a token field and a field
    of a supported prediction kind; the spec of the dataset and the
    input specs of the models play no part. *)
Theorem shouldDisplayModule_preds_iff
    (modelSpecs : ModelsMap) (datasetSpec : Spec) :
  SpanGraphModule.shouldDisplayModule modelSpecs datasetSpec = true <->
  ∃ model ms, (model, ms) ∈ modelSpecs ∧
    (∃ key t, obj_get (output ms) key = Some t ∧ kind t = Tokens) ∧
    (∃ key t, obj_get (output ms) key = Some t ∧
              (kind t = SequenceTags ∨ kind t = SpanLabels ∨
               kind t = EdgeLabels)).
Proof.
  unfold SpanGraphModule.shouldDisplayModule.
  assert (∀ ms : ModelSpec,
    (0 <? length (findSpecKeys (output ms) [Tokens]))%nat
    && (0 <? length (findSpecKeys (output ms) supportedPredTypes))%nat = true
    <-> (∃ key t, obj_get (output ms) key = Some t ∧ kind t = Tokens) ∧
        (∃ key t, obj_get (output ms) key = Some t ∧
                  (kind t = SequenceTags ∨ kind t = SpanLabels ∨
                   kind t = EdgeLabels))) as Hone.
  { intros ms. rewrite andb_true_iff, !findSpecKeys_nonempty.
    unfold supportedPredTypes.
    setoid_rewrite list_elem_of_singleton. setoid_rewrite elem_of_cons.
    setoid_rewrite elem_of_cons. setoid_rewrite list_elem_of_singleton.
    done. }
  induction modelSpecs as [|[model ms] rest IH]; simpl.
  - split; [done|]. intros (model & ms & Hin & _). by apply elem_of_nil in Hin.
  - destruct (_ && _) eqn:Hhere.
    + split; [|done]. intros _. exists model, ms.
      split; [by left|]. by apply Hone.
    + rewrite IH. split.
      * intros (model' & ms' & Hin & Hok). exists model', ms'.
        split; [by right|done].
      * intros (model' & ms' & Hin & Hok).
        apply elem_of_cons in Hin as [[= -> ->]|Hin].
        -- apply Hone in Hok. congruence.
        -- by exists model', ms'.
Qed.

(** ** The module over time *)





(** ** [parseInput] on a store, run again *)

Module StoreAgain.
Import Store Shape StoreFacts.

(** X19.  [parseInput] can be evaluated again and again on one record,
    as a recomputed getter does: a second run in the store the first
    one left returns a result of the same shape, and the result of the
    first run and the record are still what they were; when the first
    run throws, the second throws the same. *)
Theorem parseInput_run_again
    (spec : Spec) (record : Input) (h : Heap) (data : Val) :
  rep [] h data (JObj record) ->
  let run1 := OnStore.parseInput data spec h in
  let run2 := OnStore.parseInput data spec run1.1 in
  rep [] run2.1 data (JObj record) ∧
  match parseInput (Some record) spec with
  | Return annotations =>
      ∃ v1 v2, run1.2 = Return v1 ∧ run2.2 = Return v2 ∧
               rep [] run2.1 v1 (annotations_js annotations) ∧
               rep [] run2.1 v2 (annotations_js annotations)
  | Throw e => run1.2 = Throw e ∧ run2.2 = Throw e
  end.
Proof.
  intros Hrep run1 run2.
  destruct (parseInput_refines h data record spec Hrep) as (Hst1 & _ & Hres1).
  fold run1 in Hst1, Hres1.
  pose proof (rep_stable _ _ _ _ _ Hst1 Hrep) as Hrep1.
  destruct (parseInput_refines run1.1 data record spec Hrep1)
    as (Hst2 & _ & Hres2).
  fold run2 in Hst2, Hres2.
  split; [by eapply rep_stable|].
  destruct (parseInput (Some record) spec) as [annotations|e]; [|done].
  destruct Hres1 as (v1 & Hv1 & Hr1). destruct Hres2 as (v2 & Hv2 & Hr2).
  exists v1, v2. split; [done|]. split; [done|].
  split; [by eapply rep_stable|done].
Qed.

Lemma parseInput_run_again_witness :
  let run1 := OnStore.parseInput (VRef 3%nat) spec_tagged store_edited in
  let run2 := OnStore.parseInput (VRef 3%nat) spec_tagged run1.1 in
  rep [] run2.1 (VRef 3%nat) (JObj record_edited) ∧
  match parseInput (Some record_edited) spec_tagged with
  | Return annotations =>
      ∃ v1 v2, run1.2 = Return v1 ∧ run2.2 = Return v2 ∧
               rep [] run2.1 v1 (annotations_js annotations) ∧
               rep [] run2.1 v2 (annotations_js annotations)
  | Throw e => run1.2 = Throw e ∧ run2.2 = Throw e
  end.
Proof.
  apply (parseInput_run_again spec_tagged record_edited store_edited
           (VRef 3%nat)).
  unfold record_edited, store_edited. solve_rep.
Defined.

End StoreAgain.
